(** * zfparse: segmentation of zebra-finch vocalization timelines

    A shallow embedding of [zfparse/zfparse.py] and the properties of its
    parse chain (grouping, annealing, splitting, bouts, motifs, phrases).

    Conventions of the embedding:
    - a [datetime] is an integer count of microseconds ([Z]); a [timedelta]
      is a difference of two of them; [total_seconds] turns it into a number
      of seconds;
    - a Python float is the rational number it denotes ([Q]):
      [total_seconds] returns the binary64 float that Python's true
      division of two integers gives, the nearest to the quotient, ties to
      even; a threshold is any finite number ([Q], which holds every float
      and every integer); numbers are compared with the order of [Q], as
      Python compares finite floats and integers;
    - a Python exception is a value of [exn]; code that may raise returns a
      [result];
    - a list index is a Python [int] ([Z]); negative indexes count from the
      end of the list, as [list.__getitem__] does. *)

From Stdlib Require Import List ZArith QArith Qminmax Qabs String Ascii Bool Lia.
From Stdlib Require Import Permutation Sorted.
Import ListNotations.

Local Open Scope Z_scope.

(** ** Exceptions *)

Inductive exn : Type :=
| IndexError   (* sequence index out of range *)
| ValueError.  (* min()/max() of an empty sequence, list.index of an absent item *)

Inductive result (A : Type) : Type :=
| Ok (a : A)
| Raise (e : exn).

Arguments Ok {A} a.
Arguments Raise {A} e.

Definition bind {A B} (c : result A) (k : A -> result B) : result B :=
  match c with
  | Ok a => k a
  | Raise e => Raise e
  end.

Notation "x <- c1 ;; c2" := (bind c1 (fun x => c2))
  (at level 61, c1 at next level, right associativity).

(** [[f(x) for x in l]] where [f] may raise: evaluation is left to right. *)
Fixpoint mapM {A B} (f : A -> result B) (l : list A) : result (list B) :=
  match l with
  | [] => Ok []
  | x :: xs => y <- f x ;; ys <- mapM f xs ;; Ok (y :: ys)
  end.

(** [[x for x in l if p(x)]] where [p] may raise. *)
Fixpoint filterM {A} (p : A -> result bool) (l : list A) : result (list A) :=
  match l with
  | [] => Ok []
  | x :: xs => c <- p x ;; ys <- filterM p xs ;; Ok (if c then x :: ys else ys)
  end.

(** A [for] loop with a loop-carried state. *)
Fixpoint foldM {A S} (step : S -> A -> result S) (l : list A) (s : S) : result S :=
  match l with
  | [] => Ok s
  | x :: xs => s' <- step s x ;; foldM step xs s'
  end.

(** ** Python lists *)

(** [l[i]] *)
Definition getitem {A} (l : list A) (i : Z) : result A :=
  let n := Z.of_nat (List.length l) in
  let j := if i <? 0 then i + n else i in
  if (0 <=? j) && (j <? n) then
    match nth_error l (Z.to_nat j) with
    | Some x => Ok x
    | None => Raise IndexError
    end
  else Raise IndexError.

(** [l[a:b]] and [l[a:]] for non-negative bounds *)
Definition slice {A} (l : list A) (a b : nat) : list A := skipn a (firstn b l).
Definition slice_from {A} (l : list A) (a : nat) : list A := skipn a l.

(** [enumerate(l)] *)
Definition enumerate {A} (l : list A) : list (nat * A) :=
  combine (seq 0 (List.length l)) l.

(** [range(lo, hi)] *)
Definition range (lo hi : Z) : list Z :=
  map (fun k => lo + Z.of_nat k) (seq 0 (Z.to_nat (hi - lo))).

(** [x in l] for integers and for strings *)
Definition in_Z (x : Z) (l : list Z) : bool := existsb (Z.eqb x) l.
Definition in_str (x : string) (l : list string) : bool := existsb (String.eqb x) l.

(** [min(l)] and [max(l)] *)
Definition min_Z (l : list Z) : result Z :=
  match l with
  | [] => Raise ValueError
  | x :: xs => Ok (fold_left Z.min xs x)
  end.

Definition max_Z (l : list Z) : result Z :=
  match l with
  | [] => Raise ValueError
  | x :: xs => Ok (fold_left Z.max xs x)
  end.

(** [a < b], [a <= b] on numbers *)
Definition Qleb (a b : Q) : bool := Qle_bool a b.
Definition Qltb (a b : Q) : bool := negb (Qle_bool b a).

(** [min(l, key=key)]: the first item whose key is minimal; the keys are
    computed once per item, in order. *)
Fixpoint min_scan {A} (key : A -> result Q) (best : A) (kbest : Q) (l : list A)
  : result A :=
  match l with
  | [] => Ok best
  | x :: r =>
      kx <- key x ;;
      if Qltb kx kbest then min_scan key x kx r else min_scan key best kbest r
  end.

Definition min_by_key {A} (key : A -> result Q) (l : list A) : result A :=
  match l with
  | [] => Raise ValueError
  | x :: r => kx <- key x ;; min_scan key x kx r
  end.

(** [l.pop(i)], keeping only the list that remains *)
Definition pop {A} (l : list A) (i : nat) : result (list A) :=
  if (i <? List.length l)%nat then Ok (firstn i l ++ skipn (S i) l)
  else Raise IndexError.

(** [ls[-1].extend(xs)] on a list of lists *)
Fixpoint extend_last {A} (ls : list (list A)) (xs : list A) : result (list (list A)) :=
  match ls with
  | [] => Raise IndexError
  | [l] => Ok [l ++ xs]
  | l :: r => r' <- extend_last r xs ;; Ok (l :: r')
  end.

(** [sorted(l, key=key)]: the keys are computed first; the sort is stable
    (an item stays before the later items that have the same key). *)
Fixpoint insert_by_key {A} (x : A) (kx : Z) (l : list (A * Z)) : list (A * Z) :=
  match l with
  | [] => [(x, kx)]
  | (y, ky) :: r =>
      if kx <=? ky then (x, kx) :: (y, ky) :: r
      else (y, ky) :: insert_by_key x kx r
  end.

Definition sort_keyed {A} (l : list (A * Z)) : list (A * Z) :=
  fold_right (fun p acc => insert_by_key (fst p) (snd p) acc) [] l.

Definition sorted {A} (key : A -> result Z) (l : list A) : result (list A) :=
  ks <- mapM key l ;;
  Ok (map fst (sort_keyed (combine l ks))).

(** [pairwise(iterable)]: (s0,s1), (s1,s2), (s2,s3), ... *)
Definition pairwise {A} (l : list A) : list (A * A) := combine l (tl l).

(** ** Time *)

(** The integer nearest to [num / den], ties going to the even one
    ([0 <= num], [0 < den]). *)
Definition round_half_even (num den : Z) : Z :=
  let q := num / den in
  let r := num mod den in
  match 2 * r ?= den with
  | Lt => q
  | Gt => q + 1
  | Eq => if Z.even q then q else q + 1
  end.

(** [n / m] for two Python integers, [0 < m]: the binary64 float nearest to
    the quotient, ties to even.  With [e] the exponent for which the
    quotient over [2 ^ e] lies in [2^52, 2^53), the float is the quotient
    over [2 ^ e], rounded to an integer, times [2 ^ e].  (The difference of
    two datetimes is below 2^59 microseconds: the quotients of
    [total_seconds] are far from the overflow and the subnormal ranges of
    binary64, which are left out.) *)
Definition true_divide (n m : Z) : Q :=
  if n =? 0 then 0%Q else
  let a := Z.abs n in
  let k := Z.log2 a - Z.log2 m in
  let fl := if (if 0 <=? k then m * 2 ^ k <=? a else m <=? a * 2 ^ (- k))
            then k else k - 1 in
  let e := fl - 52 in
  let mant := if 0 <=? e then round_half_even a (m * 2 ^ e)
              else round_half_even (a * 2 ^ (- e)) m in
  Qred (if 0 <=? e then (Z.sgn n * mant * 2 ^ e) # 1
        else (Z.sgn n * mant) # (Z.to_pos (2 ^ (- e)))).

(** [timedelta.total_seconds()]: the microseconds of the timedelta over
    [10**6], by true division. *)
Definition total_seconds (d : Z) : Q := true_divide d 1000000.

(** Objects with a [start] and a [stop] attribute, which [delta_t] reads. *)
Class Timed (A : Type) : Type := {
  start_of : A -> result Z;
  stop_of : A -> result Z
}.

(** Time between end of first and beginning of second. *)
Definition delta_t {A B} `{Timed A} `{Timed B} (first : A) (second : B) : result Q :=
  s <- start_of second ;;
  e <- stop_of first ;;
  Ok (total_seconds (s - e)).

(** ** Strings *)

Fixpoint str_last (s : string) : option ascii :=
  match s with
  | EmptyString => None
  | String c EmptyString => Some c
  | String _ r => str_last r
  end.

(** [s[:-1]] *)
Fixpoint str_init (s : string) : string :=
  match s with
  | EmptyString => EmptyString
  | String _ EmptyString => EmptyString
  | String c r => String c (str_init r)
  end.

(** [c in s] for a one-character [c] *)
Fixpoint str_contains (c : ascii) (s : string) : bool :=
  match s with
  | EmptyString => false
  | String d r => Ascii.eqb c d || str_contains c r
  end.

(** [s.split(c)[0]] *)
Fixpoint str_before (c : ascii) (s : string) : string :=
  match s with
  | EmptyString => EmptyString
  | String d r => if Ascii.eqb c d then EmptyString else String d (str_before c r)
  end.

(** [seq.index(x)]: position of the first occurrence *)
Fixpoint index_of (x : string) (l : list string) : result Z :=
  match l with
  | [] => Raise ValueError
  | y :: r => if String.eqb y x then Ok 0 else k <- index_of x r ;; Ok (k + 1)
  end.

(** ** A container for data about a bird's vocalization behavior *)

Module BirdMetadata.

Record t : Type := make {
  name : string;
  syllables : list string;
  intro_note : string;
  intro_aliases : list string;
  ignore : list string
}.

(** [alias(voc, elide_garbled, elide_versions)] *)
Definition alias_with (self : t) (voc : string) (elide_garbled elide_versions : bool)
  : string :=
  if String.eqb voc EmptyString || in_str voc (ignore self) then voc
  else
    let v := voc in
    let v :=
      if elide_garbled && (match str_last v with
                           | Some c => Ascii.eqb c "*"
                           | None => false
                           end)
      then str_init v else v in
    let v :=
      if elide_versions && str_contains "_" v then
        let garb := str_contains "*" v in
        let v := str_before "_" v in
        if garb && negb elide_garbled then (v ++ "*")%string else v
      else v in
    if in_str v (intro_aliases self) then intro_note self else v.

(** [alias(voc)], both elisions at their default [True] *)
Definition alias (self : t) (voc : string) : string := alias_with self voc true true.

End BirdMetadata.

(** ** Vocalizations and groups of vocalizations *)

Module Vocalization.

Record t : Type := make {
  start : Z;
  stop : Z;
  name : string
}.

End Vocalization.

#[export] Instance Timed_Vocalization : Timed Vocalization.t := {
  start_of v := Ok (Vocalization.start v);
  stop_of v := Ok (Vocalization.stop v)
}.

(** A group of vocalizations, referenced to a master vocalization list. *)
Module VocGroup.

Record t : Type := make {
  voc_list : list Vocalization.t;
  voc_idxs : list Z;
  vocalizations : list Vocalization.t
}.

(** [VocGroup(voc_list, voc_idxs)] *)
Definition init (voc_list : list Vocalization.t) (voc_idxs : list Z) : result t :=
  vs <- mapM (getitem voc_list) voc_idxs ;;
  Ok (make voc_list voc_idxs vs).

(** [VocGroup(voc_list)]: [voc_idxs] defaults to the empty list *)
Definition init_empty (voc_list : list Vocalization.t) : result t :=
  init voc_list [].

Definition first (self : t) : result Vocalization.t := getitem (vocalizations self) 0.
Definition last (self : t) : result Vocalization.t := getitem (vocalizations self) (-1).
Definition start (self : t) : result Z := v <- first self ;; Ok (Vocalization.start v).
Definition stop (self : t) : result Z := v <- last self ;; Ok (Vocalization.stop v).

End VocGroup.

#[export] Instance Timed_VocGroup : Timed VocGroup.t := {
  start_of := VocGroup.start;
  stop_of := VocGroup.stop
}.

(** ** Parsing defaults (seconds) *)

(** The float literals [0.5], [0.8], [2.0]: the floats nearest to 5/10,
    8/10 and 2. *)
Definition INTRO_GROUP_ANNEAL : Q := true_divide 5 10.
Definition SYLLABLE_GROUP_ANNEAL : Q := true_divide 5 10.
Definition INTRO_GROUP_SPLIT : Q := true_divide 8 10.
Definition SYLLABLE_GROUP_SPLIT : Q := true_divide 8 10.
Definition BOUT_ANNEAL : Q := true_divide 5 10.
Definition PHRASE_ANNEAL : Q := true_divide 2 1.

(** ** Step 5: break song syllable groups into motifs *)

(** Body of the loop of [define_motifs]: a new motif begins when the current
    syllable comes before the last syllable in the song sequence. *)
Definition motif_step (voc_list : list Vocalization.t) (song_sequence : list string)
  (alias_fn : string -> string) (motifs : list (list Z)) (i : Z)
  : result (list (list Z)) :=
  s <- getitem voc_list i ;;
  m <- getitem motifs (-1) ;;
  j <- getitem m (-1) ;;
  last <- getitem voc_list j ;;
  ps <- index_of (alias_fn (Vocalization.name s)) song_sequence ;;
  pl <- index_of (alias_fn (Vocalization.name last)) song_sequence ;;
  if ps <? pl then Ok (motifs ++ [[i]]) else extend_last motifs [i].

(** The list [motifs] when the loop of [define_motifs] ends. *)
Definition motif_idxs (voc_list : list Vocalization.t) (syllable_idxs : list Z)
  (song_sequence : list string) (alias_fn : string -> string)
  : result (list (list Z)) :=
  match syllable_idxs with
  | [] => Ok []
  | i0 :: rest => foldM (motif_step voc_list song_sequence alias_fn) rest [[i0]]
  end.

Definition define_motifs (voc_list : list Vocalization.t) (syllable_idxs : list Z)
  (song_sequence : list string) (alias_fn : string -> string)
  : result (list VocGroup.t) :=
  match syllable_idxs with
  | [] => Ok []
  | _ :: _ =>
      motifs <- motif_idxs voc_list syllable_idxs song_sequence alias_fn ;;
      mapM (VocGroup.init voc_list) motifs
  end.

(** ** Bouts *)

(** A common subassembly of birdsong: zero or one group of intro notes, and
    zero or more motifs. *)
Module Bout.

Record t : Type := make {
  voc_list : list Vocalization.t;
  intro_notes : list Vocalization.t;
  intro_idxs : list Z;
  syllables : list Vocalization.t;
  syll_idxs : list Z;
  motifs : option (list VocGroup.t);   (* [None] until [parse_motifs] is called *)
  intervening_idxs : list Z;
  intervening_vocs : list Vocalization.t
}.

(** [Bout(voc_list, intro_group, syllable_group)] *)
Definition init (voc_list : list Vocalization.t)
  (intro_group syllable_group : VocGroup.t) : result t :=
  let intro_notes := VocGroup.vocalizations intro_group in
  let intro_idxs := VocGroup.voc_idxs intro_group in
  let syllables := VocGroup.vocalizations syllable_group in
  let syll_idxs := VocGroup.voc_idxs syllable_group in
  lowest_idx <- min_Z (intro_idxs ++ syll_idxs) ;;
  highest_idx <- max_Z (intro_idxs ++ syll_idxs) ;;
  let intervening_idxs :=
    filter (fun i => negb (in_Z i (intro_idxs ++ syll_idxs)))
           (range lowest_idx highest_idx) in
  intervening_vocs <- mapM (getitem voc_list) intervening_idxs ;;
  Ok (make voc_list intro_notes intro_idxs syllables syll_idxs None
           intervening_idxs intervening_vocs).

(** Truth value of [self.motifs]: [None] and the empty list are false. *)
Definition motifs_truthy (self : t) : bool :=
  match motifs self with
  | Some (_ :: _) => true
  | _ => false
  end.

Definition first (self : t) : result Vocalization.t :=
  match intro_notes self with
  | _ :: _ => getitem (intro_notes self) 0
  | [] => getitem (syllables self) 0
  end.

Definition last (self : t) : result Vocalization.t :=
  if motifs_truthy self then getitem (syllables self) (-1)
  else getitem (intro_notes self) (-1).

Definition start (self : t) : result Z := v <- first self ;; Ok (Vocalization.start v).
Definition stop (self : t) : result Z := v <- last self ;; Ok (Vocalization.stop v).

Definition duration (self : t) : result Q :=
  e <- stop self ;;
  s <- start self ;;
  Ok (total_seconds (e - s)).

(** [parse_motifs] assigns [self.motifs]; the updated bout is returned. *)
Definition parse_motifs (self : t) (seq : list string) (alias : string -> string)
  : result t :=
  m <- define_motifs (voc_list self) (syll_idxs self) seq alias ;;
  Ok (make (voc_list self) (intro_notes self) (intro_idxs self) (syllables self)
           (syll_idxs self) (Some m) (intervening_idxs self) (intervening_vocs self)).

End Bout.

#[export] Instance Timed_Bout : Timed Bout.t := {
  start_of := Bout.start;
  stop_of := Bout.stop
}.

(** ** Step 1: grouping consecutive vocalizations matching a given list *)

Definition group_step (targets : list string) (alias_fn : string -> string)
  (st : list (list Z) * bool) (iv : nat * Vocalization.t)
  : result (list (list Z) * bool) :=
  let '(groups, last_in_target) := st in
  let '(idx, voc) := iv in
  let aliased := alias_fn (Vocalization.name voc) in
  if in_str aliased targets then
    let groups := if negb last_in_target then groups ++ [[]] else groups in
    groups <- extend_last groups [Z.of_nat idx] ;;
    Ok (groups, true)
  else Ok (groups, false).

Definition group_elements (voc_list : list Vocalization.t) (targets : list string)
  (alias_fn : string -> string) : result (list VocGroup.t) :=
  st <- foldM (group_step targets alias_fn) (enumerate voc_list) ([], false) ;;
  mapM (VocGroup.init voc_list) (fst st).

(** ** Step 2: anneal groups separated by a short interval *)

(** [[1 for b in breaks if b >= cg.stop and b <= ng.start]] *)
Definition song_between (breaks : list Z) (cg ng : VocGroup.t) : result (list Z) :=
  hits <- filterM (fun b =>
                     e <- VocGroup.stop cg ;;
                     if e <=? b then (s <- VocGroup.start ng ;; Ok (b <=? s))
                     else Ok false) breaks ;;
  Ok (map (fun _ => 1) hits).

Definition anneal_step (anneal_threshold : Q) (breaks : list Z)
  (annealed : list (list Z)) (p : VocGroup.t * VocGroup.t) : result (list (list Z)) :=
  let '(cg, ng) := p in
  sb <- song_between breaks cg ng ;;
  c <- match sb with
       | _ :: _ => Ok true
       | [] => d <- delta_t cg ng ;; Ok (Qltb anneal_threshold d)
       end ;;
  if c then Ok (annealed ++ [VocGroup.voc_idxs ng])
  else extend_last annealed (VocGroup.voc_idxs ng).

(** The list [annealed] when the loop of [anneal_groups] ends. *)
Definition annealed_idxs (groups : list VocGroup.t) (anneal_threshold : Q)
  (breaks : list Z) : result (list (list Z)) :=
  match groups with
  | [] => Ok []
  | g0 :: _ =>
      foldM (anneal_step anneal_threshold breaks) (pairwise groups) [VocGroup.voc_idxs g0]
  end.

Definition anneal_groups (groups : list VocGroup.t) (anneal_threshold : Q)
  (breaks : list Z) : result (list VocGroup.t) :=
  match groups with
  | [] => Ok []
  | g0 :: _ =>
      annealed <- annealed_idxs groups anneal_threshold breaks ;;
      mapM (VocGroup.init (VocGroup.voc_list g0)) annealed
  end.

(** ** Step 3: split groups containing long silences *)

Definition split_step (grp : VocGroup.t) (split_threshold : Q)
  (st : nat * list (list Z)) (e : nat * (Z * Z)) : result (nat * list (list Z)) :=
  let '(start, split) := st in
  let '(idx, (cn, nn)) := e in
  c <- getitem (VocGroup.voc_list grp) cn ;;
  n <- getitem (VocGroup.voc_list grp) nn ;;
  d <- delta_t c n ;;
  if Qleb split_threshold d then
    Ok ((idx + 1)%nat, split ++ [slice (VocGroup.voc_idxs grp) start (idx + 1)])
  else Ok (start, split).

(** Body of the outer loop of [split_groups]: the fragments of one group are
    appended to [split]. *)
Definition split_group (split_threshold : Q) (split : list (list Z)) (grp : VocGroup.t)
  : result (list (list Z)) :=
  st <- foldM (split_step grp split_threshold)
              (enumerate (pairwise (VocGroup.voc_idxs grp))) (0%nat, split) ;;
  Ok (snd st ++ [slice_from (VocGroup.voc_idxs grp) (fst st)]).

(** The list [split] when the loops of [split_groups] end. *)
Definition split_idxs (groups : list VocGroup.t) (split_threshold : Q)
  : result (list (list Z)) :=
  foldM (split_group split_threshold) groups [].

Definition split_groups (groups : list VocGroup.t) (split_threshold : Q)
  : result (list VocGroup.t) :=
  match groups with
  | [] => Ok []
  | g0 :: _ =>
      split <- split_idxs groups split_threshold ;;
      mapM (VocGroup.init (VocGroup.voc_list g0)) split
  end.

(** ** Step 4: combine intro note groups and song syllable groups into bouts *)

(** [[i for i,g in enumerate(sg_left) if ig.stop < g.start]] *)
Definition later_groups (ig : VocGroup.t) (sg_left : list VocGroup.t) : result (list nat) :=
  cands <- filterM (fun ig' : nat * VocGroup.t =>
                      e <- VocGroup.stop ig ;;
                      s <- VocGroup.start (snd ig') ;;
                      Ok (e <? s)) (enumerate sg_left) ;;
  Ok (map fst cands).

(** Body of the loop of [define_bouts] over the intro groups; the state is
    the pair of [sg_left] and [bouts]. *)
Definition bout_step (anneal_threshold : Q)
  (st : list VocGroup.t * list Bout.t) (ig : VocGroup.t)
  : result (list VocGroup.t * list Bout.t) :=
  let '(sg_left, bouts) := st in
  cands <- later_groups ig sg_left ;;
  near_idx <- min_by_key (fun idx => g <- getitem sg_left (Z.of_nat idx) ;; delta_t ig g)
                         cands ;;
  near_sg <- getitem sg_left (Z.of_nat near_idx) ;;
  d <- delta_t ig near_sg ;;
  if Qleb d anneal_threshold then
    b <- Bout.init (VocGroup.voc_list ig) ig near_sg ;;
    sg_left <- pop sg_left near_idx ;;
    Ok (sg_left, bouts ++ [b])
  else
    empty <- VocGroup.init_empty (VocGroup.voc_list ig) ;;
    b <- Bout.init (VocGroup.voc_list ig) ig empty ;;
    Ok (sg_left, bouts ++ [b]).

(** [Bout(g.voc_list, VocGroup(g.voc_list), g)] *)
Definition song_only_bout (g : VocGroup.t) : result Bout.t :=
  empty <- VocGroup.init_empty (VocGroup.voc_list g) ;;
  Bout.init (VocGroup.voc_list g) empty g.

Definition define_bouts (intro_groups song_groups : list VocGroup.t)
  (anneal_threshold : Q) : result (list Bout.t) :=
  st <- foldM (bout_step anneal_threshold) intro_groups (song_groups, []) ;;
  rest <- mapM song_only_bout (fst st) ;;
  sorted Bout.start (snd st ++ rest).

(** ** Step 6: construct phrases from closely-associated bouts *)

Definition phrase_step (anneal_threshold : Q) (phrases : list (list Bout.t)) (b : Bout.t)
  : result (list (list Bout.t)) :=
  p <- getitem phrases (-1) ;;
  prev <- getitem p (-1) ;;
  d <- delta_t prev b ;;
  if Qleb d anneal_threshold then extend_last phrases [b]
  else Ok (phrases ++ [[b]]).

Definition define_phrases (bout_list : list Bout.t) (anneal_threshold : Q)
  : result (list (list Bout.t)) :=
  match bout_list with
  | [] => Ok []
  | b0 :: rest => foldM (phrase_step anneal_threshold) rest [[b0]]
  end.

(** ** All parse steps on a vocalization list *)

Definition full_parse (voc_list : list Vocalization.t) (bird_meta : BirdMetadata.t)
  (intro_anneal song_anneal intro_split song_split bout_anneal : Q)
  (parse_motifs : bool) (phrase_anneal : Q) : result (list (list Bout.t)) :=
  let alias := BirdMetadata.alias bird_meta in
  in_grps <- group_elements voc_list [BirdMetadata.intro_note bird_meta] alias ;;
  song_grps <- group_elements voc_list (BirdMetadata.syllables bird_meta) alias ;;
  song_starts <- mapM VocGroup.start song_grps ;;
  ann_ing <- anneal_groups in_grps intro_anneal song_starts ;;
  intro_starts <- mapM VocGroup.start in_grps ;;
  ann_sg <- anneal_groups song_grps song_anneal intro_starts ;;
  split_ing <- split_groups ann_ing intro_split ;;
  split_sg <- split_groups ann_sg song_split ;;
  bouts <- define_bouts split_ing split_sg bout_anneal ;;
  bouts <- (if parse_motifs
            then mapM (fun b => Bout.parse_motifs b (BirdMetadata.syllables bird_meta) alias)
                      bouts
            else Ok bouts) ;;
  phrases <- define_phrases bouts phrase_anneal ;;
  sorted (fun p => b <- getitem p 0 ;; Bout.start b) phrases.

(** [full_parse] with every threshold at its default. *)
Definition full_parse_default (voc_list : list Vocalization.t) (bird_meta : BirdMetadata.t)
  (parse_motifs : bool) : result (list (list Bout.t)) :=
  full_parse voc_list bird_meta INTRO_GROUP_ANNEAL SYLLABLE_GROUP_ANNEAL
             INTRO_GROUP_SPLIT SYLLABLE_GROUP_SPLIT BOUT_ANNEAL parse_motifs PHRASE_ANNEAL.

(** ** A recursive reading of the grouping loops

    The loops of [anneal_groups], [split_groups], [define_motifs] and
    [define_phrases] all cut a sequence into consecutive runs, deciding at
    each adjacent pair whether a new run starts.  [chunks] states that
    reading once, by recursion on the sequence; the loops are proved equal
    to it below.  [brk a b] tells whether a new run starts at [b], which
    follows [a]; [f] gives what each item contributes to its run. *)

Section Chunks.

Context {A B : Type}.
Variable brk : A -> A -> result bool.
Variable f : A -> list B.

Definition glue (x : list B) (rest : list (list B)) : list (list B) :=
  match rest with
  | [] => [x]
  | y :: r => (x ++ y) :: r
  end.

Fixpoint chunks (a : A) (l : list A) : result (list (list B)) :=
  match l with
  | [] => Ok [f a]
  | b :: r =>
      c <- brk a b ;;
      rest <- chunks b r ;;
      Ok (if c then f a :: rest else glue (f a) rest)
  end.

Definition chunk_list (l : list A) : result (list (list B)) :=
  match l with
  | [] => Ok []
  | a :: r => chunks a r
  end.

End Chunks.

(** The tests of the four loops, as functions of an adjacent pair. *)

(** Position in the song sequence of the aliased name of syllable [i]. *)
Definition template_position (voc_list : list Vocalization.t) (song_sequence : list string)
  (alias_fn : string -> string) (i : Z) : result Z :=
  s <- getitem voc_list i ;;
  index_of (alias_fn (Vocalization.name s)) song_sequence.

(** [define_motifs]: syllable [i], which follows syllable [j], begins a motif. *)
Definition motif_break (voc_list : list Vocalization.t) (song_sequence : list string)
  (alias_fn : string -> string) (j i : Z) : result bool :=
  s <- getitem voc_list i ;;
  last <- getitem voc_list j ;;
  ps <- index_of (alias_fn (Vocalization.name s)) song_sequence ;;
  pl <- index_of (alias_fn (Vocalization.name last)) song_sequence ;;
  Ok (ps <? pl).

(** [define_phrases]: bout [b], which follows bout [prev], begins a phrase. *)
Definition phrase_break (anneal_threshold : Q) (prev b : Bout.t) : result bool :=
  d <- delta_t prev b ;;
  Ok (Qltb anneal_threshold d).

(** [anneal_groups]: group [ng], which follows group [cg], is not joined to it. *)
Definition anneal_break (anneal_threshold : Q) (breaks : list Z) (cg ng : VocGroup.t)
  : result bool :=
  sb <- song_between breaks cg ng ;;
  match sb with
  | _ :: _ => Ok true
  | [] => d <- delta_t cg ng ;; Ok (Qltb anneal_threshold d)
  end.

(** [split_groups]: the group is cut between its members [cn] and [nn]. *)
Definition split_break (voc_list : list Vocalization.t) (split_threshold : Q) (cn nn : Z)
  : result bool :=
  c <- getitem voc_list cn ;;
  n <- getitem voc_list nn ;;
  d <- delta_t c n ;;
  Ok (Qleb split_threshold d).

(** Steps 1 to 4 of [full_parse]: the value of [bouts] before the motifs are
    parsed. *)
Definition assemble_bouts (voc_list : list Vocalization.t) (bird_meta : BirdMetadata.t)
  (intro_anneal song_anneal intro_split song_split bout_anneal : Q)
  : result (list Bout.t) :=
  let alias := BirdMetadata.alias bird_meta in
  in_grps <- group_elements voc_list [BirdMetadata.intro_note bird_meta] alias ;;
  song_grps <- group_elements voc_list (BirdMetadata.syllables bird_meta) alias ;;
  song_starts <- mapM VocGroup.start song_grps ;;
  ann_ing <- anneal_groups in_grps intro_anneal song_starts ;;
  intro_starts <- mapM VocGroup.start in_grps ;;
  ann_sg <- anneal_groups song_grps song_anneal intro_starts ;;
  split_ing <- split_groups ann_ing intro_split ;;
  split_sg <- split_groups ann_sg song_split ;;
  define_bouts split_ing split_sg bout_anneal.

(** The timeline indexes held by a bout, intro notes first. *)
Definition bout_idxs (b : Bout.t) : list Z := Bout.intro_idxs b ++ Bout.syll_idxs b.

(** The fragments that [split_groups] makes of one group. *)
Definition fragments (grp : VocGroup.t) (split_threshold : Q) : result (list (list Z)) :=
  match VocGroup.voc_idxs grp with
  | [] => Ok [[]]
  | a :: l => chunks (split_break (VocGroup.voc_list grp) split_threshold) (fun i => [i]) a l
  end.

(** The aliased names of the syllables [idxs], in order. *)
Definition aliased_labels (voc_list : list Vocalization.t) (alias_fn : string -> string)
  (idxs : list Z) : result (list string) :=
  mapM (fun i => s <- getitem voc_list i ;; Ok (alias_fn (Vocalization.name s))) idxs.

(** ** Sample data *)

(** A time of [d] microseconds in seconds, as the exact quotient; it is
    what [total_seconds] rounds. *)
Definition exact_seconds (d : Z) : Q := d # 1000000.

(** [2 ^ e] for an exponent of either sign: the distance between two
    neighbouring floats whose 53-bit mantissa is scaled by [2 ^ e]. *)
Definition pow2 (e : Z) : Q :=
  if 0 <=? e then inject_Z (2 ^ e) else 1 # Z.to_pos (2 ^ (- e)).

Module Sample.

Definition voc (start stop : Z) (name : string) : Vocalization.t :=
  Vocalization.make start stop name.

Definition bird : BirdMetadata.t :=
  BirdMetadata.make "sample" ["a"; "b"; "c"]%string "i" ["i"; "I"]%string [].

(** Two intro notes, then four syllables 3 s later. *)
Definition timeline : list Vocalization.t :=
  [ voc 0 100000 "i"; voc 300000 400000 "i";
    voc 3400000 3500000 "a"; voc 3700000 3800000 "b";
    voc 4000000 4100000 "a"; voc 4300000 4400000 "b" ].

(** The song [a b c a b a c], syllables 0.1 s long and 0.1 s apart. *)
Definition song : list Vocalization.t :=
  [ voc 0 100000 "a"; voc 200000 300000 "b"; voc 400000 500000 "c";
    voc 600000 700000 "a"; voc 800000 900000 "b";
    voc 1000000 1100000 "a"; voc 1200000 1300000 "c" ].

Definition group (vl : list Vocalization.t) (idxs : list Z) : VocGroup.t :=
  VocGroup.make vl idxs
    (map (fun i => nth (Z.to_nat i) vl (voc 0 0 "")) idxs).

Definition song_motifs : list VocGroup.t :=
  [group song [0; 1; 2]; group song [3; 4]; group song [5; 6]].

Definition late_group : VocGroup.t := group timeline [5].
Definition first_note : VocGroup.t := group timeline [0].
Definition second_note : VocGroup.t := group timeline [1].
Definition whole_group : VocGroup.t := group timeline [0; 1; 2; 3; 4; 5].

Definition intro_group : VocGroup.t := group timeline [0; 1].
Definition song_group : VocGroup.t := group timeline [2; 3; 4; 5].
Definition empty_group : VocGroup.t := group timeline [].

(** Three bouts (intro note, then a b): the second 1 s after the first,
    the third 5 s after the second. *)
Definition session : list Vocalization.t :=
  [ voc 0 100000 "i"; voc 200000 300000 "a"; voc 400000 500000 "b";
    voc 1500000 1600000 "i"; voc 1700000 1800000 "a"; voc 1900000 2000000 "b";
    voc 7000000 7100000 "i"; voc 7200000 7300000 "a"; voc 7400000 7500000 "b" ].

Definition or_nil {A} (r : result (list A)) : list A :=
  match r with
  | Ok l => l
  | Raise _ => []
  end.

Definition timeline_bouts : list Bout.t :=
  Eval vm_compute in or_nil (define_bouts [intro_group] [song_group] BOUT_ANNEAL).

(** The four syllables of [timeline] alone. *)
Definition song_only : list Vocalization.t := skipn 2 timeline.

(** The four syllables, then an intro note and a syllable 4.6 s later. *)
Definition song_then_bout : list Vocalization.t :=
  song_only ++ [voc 9000000 9100000 "i"; voc 9200000 9300000 "a"].

(** An intro note, an unlabelled sound, a syllable. *)
Definition mixed : list Vocalization.t :=
  [ voc 0 100000 "i"; voc 200000 300000 "x"; voc 400000 500000 "a" ].

Definition session_bouts : list Bout.t :=
  Eval vm_compute in
    or_nil (bouts <- assemble_bouts session bird INTRO_GROUP_ANNEAL SYLLABLE_GROUP_ANNEAL
                       INTRO_GROUP_SPLIT SYLLABLE_GROUP_SPLIT BOUT_ANNEAL ;;
            mapM (fun b => Bout.parse_motifs b (BirdMetadata.syllables bird)
                                             (BirdMetadata.alias bird)) bouts).

Definition session_phrases : list (list Bout.t) :=
  Eval vm_compute in or_nil (define_phrases session_bouts PHRASE_ANNEAL).

(** The bout of the intro group and the song group of [timeline], before
    and after [parse_motifs]. *)
Definition paired_bout : Bout.t :=
  Eval vm_compute in
    match Bout.init timeline intro_group song_group with
    | Ok b => b
    | Raise _ => Bout.make [] [] [] [] [] None [] []
    end.

Definition parsed_bout : Bout.t :=
  Eval vm_compute in
    match Bout.parse_motifs paired_bout (BirdMetadata.syllables bird)
                            (BirdMetadata.alias bird) with
    | Ok b => b
    | Raise _ => paired_bout
    end.

(** Two sounds 10^17 + 1 microseconds apart (some 3169 years), and two
    sounds 10^17 - 1 microseconds apart. *)
Definition far_apart : list Vocalization.t :=
  [ voc 0 0 "a"; voc 100000000000000001 100000000000000001 "a" ].

Definition nearly_far_apart : list Vocalization.t :=
  [ voc 0 0 "a"; voc 99999999999999999 99999999999999999 "a" ].

(** An intro note and the song a b c, which ends at 3.0 s; then an intro
    note at 3.4 s and a syllable. *)
Definition close_bouts : list Vocalization.t :=
  [ voc 0 100000 "i"; voc 200000 1000000 "a"; voc 1100000 2000000 "b";
    voc 2100000 3000000 "c"; voc 3400000 3500000 "i"; voc 3600000 3700000 "a" ].

End Sample.

(** ** Reference functions for the grouping step *)

(** The indexes, counted from [k], of the vocalizations of [l] whose aliased
    name is one of [targets]. *)
Fixpoint target_idxs (targets : list string) (alias_fn : string -> string)
  (k : nat) (l : list Vocalization.t) : list Z :=
  match l with
  | [] => []
  | voc :: r =>
      if in_str (alias_fn (Vocalization.name voc)) targets
      then Z.of_nat k :: target_idxs targets alias_fn (S k) r
      else target_idxs targets alias_fn (S k) r
  end.

(** Timeline index [j] does not come right after index [i]. *)
Definition gap_break (i j : Z) : result bool := Ok (negb (j =? i + 1)).

(** * Properties *)

(** ** The error monad *)

Lemma bind_Ok {A B} (c : result A) (k : A -> result B) (b : B) :
  (x <- c ;; k x) = Ok b -> exists a, c = Ok a /\ k a = Ok b.
Proof.
  destruct c as [a|e]; simpl; intros H; [eauto | discriminate].
Qed.

Lemma bind_Raise {A B} (c : result A) (k : A -> result B) (e : exn) :
  (x <- c ;; k x) = Raise e ->
  c = Raise e \/ exists a, c = Ok a /\ k a = Raise e.
Proof.
  destruct c as [a|e']; simpl; intros H; [right; eauto | left; congruence].
Qed.

(** Invert a successful sequence of binds in hypothesis [H]. *)
Ltac inv_bind H :=
  repeat match type of H with
  | bind ?c ?k = Ok _ =>
      let a := fresh "a" in
      let Ha := fresh "E" in
      apply bind_Ok in H; destruct H as [a [Ha H]]
  end.

Ltac inv_ok :=
  repeat match goal with
  | H : Ok _ = Ok _ |- _ => injection H as H; subst
  | H : Raise _ = Ok _ |- _ => discriminate H
  | H : Ok _ = Raise _ |- _ => discriminate H
  end.

(** Invert every successful sequence of binds among the hypotheses. *)
Ltac inv_binds :=
  repeat (match goal with
          | H : bind _ _ = Ok _ |- _ =>
              let a := fresh "a" in
              let Ha := fresh "E" in
              apply bind_Ok in H; destruct H as [a [Ha H]]
          end; inv_ok).

Lemma mapM_app {A B} (f : A -> result B) (l1 l2 : list A) :
  mapM f (l1 ++ l2) = (ys1 <- mapM f l1 ;; ys2 <- mapM f l2 ;; Ok (ys1 ++ ys2)).
Proof.
  induction l1 as [|x l1 IH]; simpl.
  - destruct (mapM f l2); reflexivity.
  - destruct (f x); simpl; [|reflexivity].
    rewrite IH. destruct (mapM f l1); simpl; [|reflexivity].
    destruct (mapM f l2); reflexivity.
Qed.

Lemma mapM_length {A B} (f : A -> result B) (l : list A) (ys : list B) :
  mapM f l = Ok ys -> List.length ys = List.length l.
Proof.
  revert ys. induction l as [|x l IH]; simpl; intros ys H.
  - inv_ok. reflexivity.
  - inv_bind H. inv_ok. simpl. f_equal. eauto.
Qed.

Lemma mapM_Forall2 {A B} (f : A -> result B) (l : list A) (ys : list B) :
  mapM f l = Ok ys -> Forall2 (fun x y => f x = Ok y) l ys.
Proof.
  revert ys. induction l as [|x l IH]; simpl; intros ys H.
  - inv_ok. constructor.
  - inv_bind H. inv_ok. constructor; auto.
Qed.

Lemma foldM_app {A S} (step : S -> A -> result S) (l1 l2 : list A) (s : S) :
  foldM step (l1 ++ l2) s = (s' <- foldM step l1 s ;; foldM step l2 s').
Proof.
  revert s. induction l1 as [|x l1 IH]; simpl; intros s; [reflexivity|].
  destruct (step s x); simpl; [apply IH | reflexivity].
Qed.

(** ** Python lists *)

Lemma getitem_last {A} (l : list A) (x : A) : getitem (l ++ [x]) (-1) = Ok x.
Proof.
  unfold getitem. rewrite length_app. simpl List.length.
  replace (-1 <? 0) with true by reflexivity.
  replace (-1 + Z.of_nat (List.length l + 1)) with (Z.of_nat (List.length l)) by lia.
  replace (0 <=? Z.of_nat (List.length l)) with true by (symmetry; apply Z.leb_le; lia).
  replace (Z.of_nat (List.length l) <? Z.of_nat (List.length l + 1)) with true
    by (symmetry; apply Z.ltb_lt; lia).
  simpl. rewrite Nat2Z.id, nth_error_app2 by lia.
  rewrite Nat.sub_diag. reflexivity.
Qed.

Lemma getitem_nil {A} (i : Z) : getitem (@nil A) i = Raise IndexError.
Proof.
  unfold getitem. simpl.
  destruct (i <? 0) eqn:E.
  - apply Z.ltb_lt in E.
    replace (0 <=? i + 0) with false by (symmetry; apply Z.leb_gt; lia).
    reflexivity.
  - destruct (0 <=? i); simpl; [|reflexivity].
    apply Z.ltb_ge in E.
    replace (i <? 0) with false by (symmetry; apply Z.ltb_ge; lia).
    reflexivity.
Qed.

Lemma getitem_head {A} (x : A) (l : list A) : getitem (x :: l) 0 = Ok x.
Proof.
  unfold getitem. simpl List.length.
  replace (0 <? 0) with false by reflexivity.
  replace (0 <? Z.of_nat (S (List.length l))) with true by (symmetry; apply Z.ltb_lt; lia).
  reflexivity.
Qed.

(** Indexing only ever raises [IndexError]. *)
Lemma getitem_Raise {A} (l : list A) (i : Z) (e : exn) :
  getitem l i = Raise e -> e = IndexError.
Proof.
  unfold getitem.
  destruct (_ && _); [destruct (nth_error _ _)|]; congruence.
Qed.

Lemma extend_last_snoc {A} (ls : list (list A)) (l xs : list A) :
  extend_last (ls ++ [l]) xs = Ok (ls ++ [l ++ xs]).
Proof.
  induction ls as [|y ls IH]; [reflexivity|].
  simpl app at 1. simpl extend_last. rewrite IH.
  destruct (ls ++ [l]) eqn:E; [destruct ls; discriminate|reflexivity].
Qed.

(** ** The recursive reading: general facts *)

Section ChunkFacts.

Context {A B : Type}.
Variable brk : A -> A -> result bool.
Variable f : A -> list B.

Lemma glue_nil (rest : list (list B)) : rest <> [] -> glue [] rest = rest.
Proof. destruct rest; [congruence | reflexivity]. Qed.

Lemma glue_glue (u x : list B) (rest : list (list B)) :
  rest <> [] -> glue u (glue x rest) = glue (u ++ x) rest.
Proof.
  destruct rest; [congruence | intros _; simpl; now rewrite app_assoc].
Qed.

(** The first run starts with the contribution of the first item, and no
    element is lost or repeated. *)
Lemma chunks_head (a : A) (l : list A) (rest : list (list B)) :
  chunks brk f a l = Ok rest ->
  exists w Y, rest = (f a ++ w) :: Y /\ w ++ List.concat Y = List.concat (map f l).
Proof.
  revert a rest. induction l as [|b r IH]; simpl; intros a rest H.
  - inv_ok. exists [], []. now rewrite app_nil_r.
  - inv_bind H. inv_ok.
    destruct (IH _ _ E0) as (w & Y & -> & HY).
    destruct a0; simpl.
    + exists [], ((f b ++ w) :: Y). rewrite app_nil_r. split; [reflexivity|].
      simpl. now rewrite <- app_assoc, HY.
    + exists (f b ++ w), Y. split; [reflexivity|].
      now rewrite <- app_assoc, HY.
Qed.

Lemma chunks_nonempty (a : A) (l : list A) (rest : list (list B)) :
  chunks brk f a l = Ok rest -> rest <> [].
Proof.
  intros H. destruct (chunks_head _ _ _ H) as (w & Y & -> & _). discriminate.
Qed.

Lemma chunk_list_concat (l : list A) (out : list (list B)) :
  chunk_list brk f l = Ok out -> List.concat out = List.concat (map f l).
Proof.
  destruct l as [|a l]; simpl; intros H.
  - inv_ok. reflexivity.
  - destruct (chunks_head _ _ _ H) as (w & Y & -> & HY).
    simpl. now rewrite <- app_assoc, HY.
Qed.

(** The rule of the cut: at an adjacent pair [x], [y] the runs are cut
    exactly when [brk x y] holds. *)
Lemma chunk_rule (pre : list A) (x y : A) (post : list A) (out : list (list B)) :
  chunk_list brk f (pre ++ x :: y :: post) = Ok out ->
  exists c X u w Y,
    brk x y = Ok c /\
    List.concat X ++ u = List.concat (map f pre) /\
    w ++ List.concat Y = List.concat (map f post) /\
    out = if c then X ++ (u ++ f x) :: (f y ++ w) :: Y
          else X ++ (u ++ f x ++ f y ++ w) :: Y.
Proof.
  revert out. induction pre as [|p pre IH]; intros out H.
  - simpl in H. inv_bind H. inv_ok.
    destruct (chunks_head _ _ _ E0) as (w & Y & -> & HY).
    exists a, [], [], w, Y. repeat split; auto.
  - assert (Hc : chunk_list brk f ((p :: pre) ++ x :: y :: post) =
                 (c <- brk p (hd x pre) ;;
                  rest <- chunk_list brk f (pre ++ x :: y :: post) ;;
                  Ok (if c then f p :: rest else glue (f p) rest))).
    { destruct pre; reflexivity. }
    rewrite Hc in H. inv_bind H. inv_ok.
    destruct (IH _ E0) as (c & X & u & w & Y & Hb & HX & HY & Hout).
    exists c.
    destruct a.
    + exists (f p :: X), u, w, Y. repeat split; auto.
      * simpl. now rewrite <- app_assoc, HX.
      * rewrite Hout. destruct c; reflexivity.
    + destruct X as [|x0 X].
      * exists [], (f p ++ u), w, Y. repeat split; auto.
        -- simpl in *. now rewrite HX.
        -- rewrite Hout. destruct c; simpl; now rewrite <- !app_assoc.
      * exists ((f p ++ x0) :: X), u, w, Y. repeat split; auto.
        -- simpl in *. rewrite <- HX. now rewrite <- !app_assoc.
        -- rewrite Hout. destruct c; reflexivity.
Qed.

(** When no adjacent pair starts a new run, there is one run. *)
Lemma chunks_joined (a : A) (l : list A) :
  (forall pre x y post, a :: l = pre ++ x :: y :: post -> brk x y = Ok false) ->
  chunks brk f a l = Ok [List.concat (map f (a :: l))].
Proof.
  revert a. induction l as [|b r IH]; intros a H; simpl.
  - now rewrite app_nil_r.
  - rewrite (H [] a b r eq_refl). simpl.
    rewrite IH.
    + reflexivity.
    + intros pre x y post E. apply (H (a :: pre) x y post). simpl. now rewrite E.
Qed.

(** A loop over [pairwise] that appends to the last run or opens a new
    one computes [chunks]. *)
Lemma foldM_pairwise_chunks (step : list (list B) -> A * A -> result (list (list B))) :
  (forall P u a x,
      step (P ++ [u]) (a, x) =
      (c <- brk a x ;; Ok (P ++ (if c then [u; f x] else [u ++ f x])))) ->
  forall l a P u,
    foldM step (pairwise (a :: l)) (P ++ [u ++ f a]) =
    (rest <- chunks brk f a l ;; Ok (P ++ glue u rest)).
Proof.
  intros Hstep. induction l as [|b r IH]; intros a P u.
  - reflexivity.
  - change (pairwise (a :: b :: r)) with ((a, b) :: pairwise (b :: r)).
    simpl foldM. rewrite Hstep. simpl chunks.
    destruct (brk a b) as [c|e]; simpl; [|reflexivity].
    destruct c.
    + change (P ++ [u ++ f a; f b]) with (P ++ [u ++ f a] ++ [[] ++ f b]).
      rewrite app_assoc, IH.
      destruct (chunks brk f b r) as [rest|e] eqn:E; simpl; [|reflexivity].
      rewrite glue_nil by (eapply chunks_nonempty; eauto).
      now rewrite <- app_assoc.
    + rewrite (IH b P (u ++ f a)).
      destruct (chunks brk f b r) as [rest|e] eqn:E; simpl; [|reflexivity].
      rewrite glue_glue by (eapply chunks_nonempty; eauto).
      reflexivity.
Qed.

End ChunkFacts.

(** A loop that reads the previous item back from the end of the last run
    computes [chunks] too. *)
Lemma foldM_last_chunks {A} (brk : A -> A -> result bool)
  (step : list (list A) -> A -> result (list (list A))) :
  (forall P u a x,
      step (P ++ [u ++ [a]]) x =
      (c <- brk a x ;; Ok (P ++ (if c then [u ++ [a]; [x]] else [u ++ [a; x]])))) ->
  forall l a P u,
    foldM step l (P ++ [u ++ [a]]) =
    (rest <- chunks brk (fun x => [x]) a l ;; Ok (P ++ glue u rest)).
Proof.
  intros Hstep. induction l as [|b r IH]; intros a P u.
  - reflexivity.
  - simpl foldM. rewrite Hstep. simpl chunks.
    destruct (brk a b) as [c|e]; simpl; [|reflexivity].
    destruct c.
    + change (P ++ [u ++ [a]; [b]]) with (P ++ [u ++ [a]] ++ [[] ++ [b]]).
      rewrite app_assoc, IH.
      destruct (chunks brk _ b r) as [rest|e] eqn:E; simpl; [|reflexivity].
      rewrite glue_nil by (eapply chunks_nonempty; eauto).
      now rewrite <- app_assoc.
    + replace (u ++ [a; b]) with ((u ++ [a]) ++ [b]) by now rewrite <- app_assoc.
      rewrite IH.
      destruct (chunks brk _ b r) as [rest|e] eqn:E; simpl; [|reflexivity].
      rewrite glue_glue by (eapply chunks_nonempty; eauto).
      reflexivity.
Qed.

(** ** Groups built by [VocGroup.init] *)

Lemma init_idxs (vl : list Vocalization.t) (idxs : list Z) (g : VocGroup.t) :
  VocGroup.init vl idxs = Ok g ->
  VocGroup.voc_list g = vl /\ VocGroup.voc_idxs g = idxs /\
  mapM (getitem vl) idxs = Ok (VocGroup.vocalizations g).
Proof.
  unfold VocGroup.init. intros H. inv_bind H. inv_ok. simpl. auto.
Qed.

Lemma mapM_init_idxs (vl : list Vocalization.t) (ls : list (list Z))
  (gs : list VocGroup.t) :
  mapM (VocGroup.init vl) ls = Ok gs -> map VocGroup.voc_idxs gs = ls.
Proof.
  revert gs. induction ls as [|l ls IH]; simpl; intros gs H.
  - inv_ok. reflexivity.
  - inv_bind H. inv_ok. simpl. f_equal; [|auto].
    now apply init_idxs in E.
Qed.

Lemma concat_map_singleton {A} (l : list A) : List.concat (map (fun x => [x]) l) = l.
Proof. induction l; simpl; congruence. Qed.

(** ** Motifs *)

Section Motifs.

Variable voc_list : list Vocalization.t.
Variable song_sequence : list string.
Variable alias_fn : string -> string.

Lemma motif_step_break (P : list (list Z)) (u : list Z) (a x : Z) :
  motif_step voc_list song_sequence alias_fn (P ++ [u ++ [a]]) x =
  (c <- motif_break voc_list song_sequence alias_fn a x ;;
   Ok (P ++ (if c then [u ++ [a]; [x]] else [u ++ [a; x]]))).
Proof.
  unfold motif_step, motif_break.
  destruct (getitem voc_list x) as [s|e]; simpl; [|reflexivity].
  rewrite getitem_last. simpl. rewrite getitem_last. simpl.
  destruct (getitem voc_list a) as [la|e]; simpl; [|reflexivity].
  destruct (index_of _ _) as [ps|e]; simpl; [|reflexivity].
  destruct (index_of _ _) as [pl|e]; simpl; [|reflexivity].
  destruct (ps <? pl).
  - now rewrite <- app_assoc.
  - rewrite extend_last_snoc. now rewrite <- app_assoc.
Qed.

(** The loop of [define_motifs] cuts the syllables at each [motif_break]. *)
Lemma motif_idxs_chunks (syllable_idxs : list Z) :
  motif_idxs voc_list syllable_idxs song_sequence alias_fn =
  chunk_list (motif_break voc_list song_sequence alias_fn) (fun i => [i]) syllable_idxs.
Proof.
  destruct syllable_idxs as [|i0 rest]; [reflexivity|].
  unfold motif_idxs, chunk_list.
  change [[i0]] with ([] ++ [[] ++ [i0]]).
  rewrite (foldM_last_chunks _ _ motif_step_break rest i0 [] []).
  destruct (chunks _ _ i0 rest) as [r|e] eqn:E; simpl; [|reflexivity].
  rewrite glue_nil by (eapply chunks_nonempty; eauto). reflexivity.
Qed.

Lemma define_motifs_idxs (syllable_idxs : list Z) (ms : list VocGroup.t) :
  define_motifs voc_list syllable_idxs song_sequence alias_fn = Ok ms ->
  motif_idxs voc_list syllable_idxs song_sequence alias_fn = Ok (map VocGroup.voc_idxs ms).
Proof.
  destruct syllable_idxs as [|i0 rest]; simpl; intros H.
  - inv_ok. reflexivity.
  - inv_bind H. apply mapM_init_idxs in H. now rewrite H.
Qed.

Lemma motif_break_positions (j i : Z) (c : bool) :
  motif_break voc_list song_sequence alias_fn j i = Ok c ->
  exists pj pi,
    template_position voc_list song_sequence alias_fn j = Ok pj /\
    template_position voc_list song_sequence alias_fn i = Ok pi /\
    c = (pi <? pj).
Proof.
  unfold motif_break, template_position. intros H. inv_bind H. inv_ok.
  exists a2, a1. rewrite E, E0. simpl. auto.
Qed.

End Motifs.

Lemma motif_break_of_labels (vl : list Vocalization.t) (seq : list string)
  (alias_fn : string -> string) (j i : Z) (vj vi : Vocalization.t) (pj pi : Z) :
  getitem vl j = Ok vj -> getitem vl i = Ok vi ->
  index_of (alias_fn (Vocalization.name vj)) seq = Ok pj ->
  index_of (alias_fn (Vocalization.name vi)) seq = Ok pi ->
  motif_break vl seq alias_fn j i = Ok (pi <? pj).
Proof.
  intros Hj Hi Hpj Hpi. unfold motif_break.
  rewrite Hi, Hj. simpl. rewrite Hpi, Hpj. reflexivity.
Qed.

(** C7: [define_motifs] starts a new motif at a syllable exactly when the
    position (first occurrence) of its aliased name in the song sequence is
    strictly before that of the previous syllable.  For two adjacent
    syllables [j], [i] of the input, with positions [pj] and [pi]: when
    [pi < pj] a motif ends with [j] and the next one begins with [i];
    otherwise [j] and [i] are neighbours inside one motif.  With the song
    sequence a, b, c, syllables named a,b,c,a,b,a,c come out as the motifs
    [a,b,c], [a,b], [a,c]; no syllables give no motifs. *)
Theorem define_motifs_boundary_rule :
  (forall vl seq alias_fn pre j i post ms,
      define_motifs vl (pre ++ j :: i :: post) seq alias_fn = Ok ms ->
      exists pj pi X u w Y,
        template_position vl seq alias_fn j = Ok pj /\
        template_position vl seq alias_fn i = Ok pi /\
        List.concat X ++ u = pre /\
        w ++ List.concat Y = post /\
        map VocGroup.voc_idxs ms =
          if pi <? pj then X ++ (u ++ [j]) :: (i :: w) :: Y
          else X ++ (u ++ j :: i :: w) :: Y) /\
  (forall vl alias_fn idxs,
      aliased_labels vl alias_fn idxs = Ok ["a"; "b"; "c"; "a"; "b"; "a"; "c"]%string ->
      exists ms i0 i1 i2 i3 i4 i5 i6,
        idxs = [i0; i1; i2; i3; i4; i5; i6] /\
        define_motifs vl idxs ["a"; "b"; "c"]%string alias_fn = Ok ms /\
        map VocGroup.voc_idxs ms = [[i0; i1; i2]; [i3; i4]; [i5; i6]]) /\
  (forall vl seq alias_fn, define_motifs vl [] seq alias_fn = Ok []).
Proof.
  split; [|split].
  - intros vl seq alias_fn pre j i post ms H.
    apply define_motifs_idxs in H. rewrite motif_idxs_chunks in H.
    apply chunk_rule in H.
    destruct H as (c & X & u & w & Y & Hb & HX & HY & Hout).
    rewrite concat_map_singleton in HX, HY.
    apply motif_break_positions in Hb. destruct Hb as (pj & pi & Hj & Hi & ->).
    exists pj, pi, X, u, w, Y. repeat split; auto.
  - intros vl alias_fn idxs H. unfold aliased_labels in H.
    pose proof (mapM_length _ _ _ H) as Hlen.
    do 7 (destruct idxs as [|? idxs]; [discriminate Hlen|]).
    destruct idxs; [|discriminate Hlen]. clear Hlen.
    simpl in H. inv_binds.
    eexists. exists z, z0, z1, z2, z3, z4, z5. split; [reflexivity|].
    unfold define_motifs. rewrite motif_idxs_chunks.
    unfold chunk_list, chunks, motif_break, VocGroup.init, mapM.
    repeat match goal with
           | Hj : getitem vl _ = Ok _ |- _ => rewrite Hj
           end.
    cbn [bind].
    repeat match goal with
           | Hj : alias_fn _ = _ |- _ => rewrite Hj
           end.
    simpl.
    repeat match goal with
           | Hj : getitem vl _ = Ok _ |- _ => rewrite Hj
           end.
    simpl. split; reflexivity.
  - reflexivity.
Qed.

Lemma define_motifs_boundary_rule_witness :
  define_motifs Sample.song [0; 1; 2; 3; 4; 5; 6] ["a"; "b"; "c"]%string (fun x => x)
  = Ok Sample.song_motifs /\
  exists pj pi X u w Y,
    template_position Sample.song ["a"; "b"; "c"]%string (fun x => x) 2 = Ok pj /\
    template_position Sample.song ["a"; "b"; "c"]%string (fun x => x) 3 = Ok pi /\
    List.concat X ++ u = [0; 1] /\
    w ++ List.concat Y = [4; 5; 6] /\
    map VocGroup.voc_idxs Sample.song_motifs =
      if pi <? pj then X ++ (u ++ [2]) :: (3 :: w) :: Y
      else X ++ (u ++ 2 :: 3 :: w) :: Y.
Proof.
  split; [reflexivity|].
  apply (proj1 define_motifs_boundary_rule Sample.song ["a"; "b"; "c"]%string
               (fun x => x) [0; 1] 2 3 [4; 5; 6] Sample.song_motifs).
  reflexivity.
Defined.

(** ** Runs of single items *)

Lemma app_cons_eq {A} (P : list A) (m : A) (S : list A) (h : A) (T : list A) :
  P ++ m :: S = h :: T ->
  (P = [] /\ m = h /\ S = T) \/ (exists P', P = h :: P' /\ P' ++ m :: S = T).
Proof.
  destruct P as [|p P]; simpl; intros H; injection H as -> <-; eauto.
Qed.

(** Inside a run no adjacent pair starts a run; between two runs the pair
    does. *)
Lemma chunks_singleton_sound {A} (brk : A -> A -> result bool) (l : list A) :
  forall (a : A) (out : list (list A)),
    chunks brk (fun x => [x]) a l = Ok out ->
    (forall P u x y w S, out = P ++ (u ++ x :: y :: w) :: S -> brk x y = Ok false) /\
    (forall P u x y w S, out = P ++ (u ++ [x]) :: (y :: w) :: S -> brk x y = Ok true).
Proof.
  induction l as [|b r IH]; simpl; intros a out H.
  - inv_ok. split; intros P u x y w S E; symmetry in E;
      apply app_cons_eq in E; destruct E as [(-> & E & E') | (P' & -> & E)].
    + destruct u as [|? [|? ?]]; discriminate.
    + destruct P'; discriminate.
    + discriminate.
    + destruct P'; discriminate.
  - inv_bind H. inv_ok.
    destruct (chunks_head _ _ _ _ _ E0) as (w0 & Y0 & -> & _).
    destruct (IH _ _ E0) as [IH1 IH2]. simpl in *.
    destruct a0; split; intros P u x y w S Eq; symmetry in Eq;
      apply app_cons_eq in Eq; destruct Eq as [(-> & Eq & Eq') | (P' & -> & Eq)].
    + destruct u as [|? [|? ?]]; discriminate.
    + apply (IH1 P' u x y w S). now rewrite Eq.
    + destruct u as [|? [|? ?]]; simpl in Eq; try discriminate.
      injection Eq as ->. injection Eq' as -> _ _. exact E.
    + apply (IH2 P' u x y w S). now rewrite Eq.
    + destruct u as [|a1 u]; simpl in Eq.
      * injection Eq as -> -> _. exact E.
      * injection Eq as -> Eq. apply (IH1 [] u x y w S). simpl. now rewrite Eq, Eq'.
    + apply (IH1 ((b :: w0) :: P') u x y w S). simpl. now rewrite Eq.
    + destruct u as [|a1 u]; simpl in Eq.
      * injection Eq as -> Eq. discriminate.
      * injection Eq as -> Eq. apply (IH2 [] u x y w S). simpl. now rewrite Eq, Eq'.
    + apply (IH2 ((b :: w0) :: P') u x y w S). simpl. now rewrite Eq.
Qed.

(** ** Numbers *)

Lemma Qleb_true (a b : Q) : Qleb a b = true <-> (a <= b)%Q.
Proof. apply Qle_bool_iff. Qed.

Lemma Qleb_false (a b : Q) : Qleb a b = false <-> (b < a)%Q.
Proof.
  unfold Qleb. split; intros H.
  - apply Qnot_le_lt. intros Hle. apply Qle_bool_iff in Hle. congruence.
  - destruct (Qle_bool a b) eqn:E; [|reflexivity].
    apply Qle_bool_iff in E. exfalso. exact (Qlt_not_le _ _ H E).
Qed.

Lemma Qltb_true (a b : Q) : Qltb a b = true <-> (a < b)%Q.
Proof.
  unfold Qltb. rewrite negb_true_iff. apply Qleb_false.
Qed.

Lemma Qltb_false (a b : Q) : Qltb a b = false <-> (b <= a)%Q.
Proof.
  unfold Qltb. rewrite negb_false_iff. apply Qleb_true.
Qed.

(** ** Phrases *)

Lemma phrase_step_break (t : Q) (P : list (list Bout.t)) (u : list Bout.t)
  (a x : Bout.t) :
  phrase_step t (P ++ [u ++ [a]]) x =
  (c <- phrase_break t a x ;;
   Ok (P ++ (if c then [u ++ [a]; [x]] else [u ++ [a; x]]))).
Proof.
  unfold phrase_step, phrase_break.
  rewrite getitem_last. simpl. rewrite getitem_last. simpl.
  destruct (delta_t a x) as [d|e]; simpl; [|reflexivity].
  unfold Qltb, Qleb. destruct (Qle_bool d t); simpl.
  - rewrite extend_last_snoc. now rewrite <- app_assoc.
  - now rewrite <- app_assoc.
Qed.

(** The loop of [define_phrases] cuts the bouts at each [phrase_break]. *)
Lemma define_phrases_chunks (bout_list : list Bout.t) (t : Q) :
  define_phrases bout_list t = chunk_list (phrase_break t) (fun b => [b]) bout_list.
Proof.
  destruct bout_list as [|b0 rest]; [reflexivity|].
  unfold define_phrases, chunk_list.
  change [[b0]] with ([] ++ [[] ++ [b0]]).
  rewrite (foldM_last_chunks _ _ (phrase_step_break t) rest b0 [] []).
  destruct (chunks _ _ b0 rest) as [r|e] eqn:E; simpl; [|reflexivity].
  rewrite glue_nil by (eapply chunks_nonempty; eauto). reflexivity.
Qed.

(** X23: the rule of [define_phrases], on the number that [delta_t]
    returns for two bouts: [total_seconds] of the time from the stop that
    the first bout reports to the start of the second.  For two consecutive
    bouts inside one phrase that number is at most the threshold; for the
    last bout of a phrase and the first bout of the next phrase it is above
    the threshold.  (Holds for every bout list for which [define_phrases]
    returns, sorted or not.  The stop that a bout reports before
    [parse_motifs] is that of its last intro note.) *)
Theorem define_phrases_silences (bout_list : list Bout.t) (t : Q)
  (phrases : list (list Bout.t)) :
  define_phrases bout_list t = Ok phrases ->
  (forall P u b1 b2 w S,
      phrases = P ++ (u ++ b1 :: b2 :: w) :: S ->
      exists d, delta_t b1 b2 = Ok d /\ (d <= t)%Q) /\
  (forall P u b1 b2 w S,
      phrases = P ++ (u ++ [b1]) :: (b2 :: w) :: S ->
      exists d, delta_t b1 b2 = Ok d /\ (t < d)%Q).
Proof.
  rewrite define_phrases_chunks. intros H.
  destruct bout_list as [|b0 rest]; simpl in H.
  - inv_ok. split; intros P u b1 b2 w S E; destruct P; discriminate.
  - apply chunks_singleton_sound in H. destruct H as [H1 H2].
    split; intros P u b1 b2 w S E.
    + apply H1 in E. unfold phrase_break in E. inv_bind E. inv_ok.
      exists a. split; [assumption|]. now apply Qltb_false.
    + apply H2 in E. unfold phrase_break in E. inv_bind E. inv_ok.
      exists a. split; [assumption|]. now apply Qltb_true.
Qed.

Lemma define_phrases_silences_witness :
  define_phrases Sample.session_bouts PHRASE_ANNEAL = Ok Sample.session_phrases /\
  List.length Sample.session_phrases = 2%nat /\
  (forall P u b1 b2 w S,
      Sample.session_phrases = P ++ (u ++ b1 :: b2 :: w) :: S ->
      exists d, delta_t b1 b2 = Ok d /\ (d <= PHRASE_ANNEAL)%Q) /\
  (forall P u b1 b2 w S,
      Sample.session_phrases = P ++ (u ++ [b1]) :: (b2 :: w) :: S ->
      exists d, delta_t b1 b2 = Ok d /\ (PHRASE_ANNEAL < d)%Q).
Proof.
  split; [reflexivity|]. split; [reflexivity|].
  apply (define_phrases_silences Sample.session_bouts PHRASE_ANNEAL Sample.session_phrases).
  reflexivity.
Defined.

(** C9: two bouts that [define_phrases] puts in different phrases although
    the silence between them is below the threshold.  On the sample the
    last syllable of the first bout stops at 3.0 s and the second bout
    starts at 3.4 s: a silence of 0.4 s, under the default threshold of
    2 s.  Before [parse_motifs] the first bout reports the stop of its
    intro note, 0.1 s, since [Bout.last] tests [motifs] and not
    [syllables]; [define_phrases] measures 3.3 s and cuts.  After
    [parse_motifs] the same two bouts are in one phrase. *)
Theorem define_phrases_unparsed_bouts_apart :
  exists b1 b2,
    full_parse_default Sample.close_bouts Sample.bird false = Ok [[b1]; [b2]] /\
    define_phrases [b1; b2] PHRASE_ANNEAL = Ok [[b1]; [b2]] /\
    Bout.start b1 = Ok 0 /\
    Bout.start b2 = Ok 3400000 /\
    getitem (Bout.syllables b1) (-1) = Ok (Sample.voc 2100000 3000000 "c") /\
    Bout.first b2 = Ok (Sample.voc 3400000 3500000 "i") /\
    (total_seconds (3400000 - 3000000) <= PHRASE_ANNEAL)%Q /\
    (exact_seconds (3400000 - 3000000) <= PHRASE_ANNEAL)%Q /\
    Bout.stop b1 = Ok 100000 /\
    delta_t b1 b2 = Ok (total_seconds (3400000 - 100000)) /\
    (PHRASE_ANNEAL < total_seconds (3400000 - 100000))%Q /\
    exists b1' b2',
      full_parse_default Sample.close_bouts Sample.bird true = Ok [[b1'; b2']] /\
      Bout.stop b1' = Ok 3000000 /\
      delta_t b1' b2' = Ok (total_seconds (3400000 - 3000000)).
Proof.
  eexists. eexists.
  split; [vm_compute; reflexivity|].
  repeat (split; [reflexivity|]).
  split; [apply Qle_bool_iff; reflexivity|].
  split; [apply Qle_bool_iff; reflexivity|].
  split; [reflexivity|]. split; [reflexivity|].
  split; [apply Qltb_true; reflexivity|].
  eexists. eexists.
  split; [vm_compute; reflexivity|].
  split; reflexivity.
Qed.

(** ** Bouts *)

Lemma min_Z_Ok (l : list Z) (x : Z) : min_Z l = Ok x -> l <> [].
Proof. destruct l; simpl; congruence. Qed.

Lemma init_bout (vl : list Vocalization.t) (ig sg : VocGroup.t) (b : Bout.t) :
  Bout.init vl ig sg = Ok b ->
  Bout.voc_list b = vl /\
  Bout.intro_notes b = VocGroup.vocalizations ig /\
  Bout.intro_idxs b = VocGroup.voc_idxs ig /\
  Bout.syllables b = VocGroup.vocalizations sg /\
  Bout.syll_idxs b = VocGroup.voc_idxs sg /\
  Bout.motifs b = None /\
  VocGroup.voc_idxs ig ++ VocGroup.voc_idxs sg <> [].
Proof.
  unfold Bout.init. intros H. inv_bind H. inv_ok. simpl.
  repeat split. eapply min_Z_Ok; eauto.
Qed.

(** C10: a bout cannot be built from two empty groups ([min] of the empty
    index list raises [ValueError]); so a bout that was built has an index
    in its intro notes or in its syllables. *)
Theorem bout_init_needs_an_index (vl : list Vocalization.t) (ig sg : VocGroup.t) :
  (VocGroup.voc_idxs ig = [] -> VocGroup.voc_idxs sg = [] ->
   Bout.init vl ig sg = Raise ValueError) /\
  (forall b, Bout.init vl ig sg = Ok b ->
             exists i, In i (Bout.intro_idxs b) \/ In i (Bout.syll_idxs b)).
Proof.
  split.
  - intros Hi Hs. unfold Bout.init. rewrite Hi, Hs. reflexivity.
  - intros b H. apply init_bout in H.
    destruct H as (_ & _ & Hi & _ & Hs & _ & Hne). rewrite Hi, Hs.
    destruct (VocGroup.voc_idxs ig) as [|i r].
    + destruct (VocGroup.voc_idxs sg) as [|i r]; [now elim Hne|].
      exists i. right. now left.
    + exists i. left. now left.
Qed.

Lemma bout_init_needs_an_index_witness :
  Bout.init Sample.timeline Sample.empty_group Sample.empty_group = Raise ValueError /\
  (forall b, Bout.init Sample.timeline Sample.empty_group Sample.song_group = Ok b ->
             exists i, In i (Bout.intro_idxs b) \/ In i (Bout.syll_idxs b)).
Proof.
  split.
  - apply (proj1 (bout_init_needs_an_index Sample.timeline Sample.empty_group
                                           Sample.empty_group)); reflexivity.
  - apply (proj2 (bout_init_needs_an_index Sample.timeline Sample.empty_group
                                           Sample.song_group)).
Defined.

(** Before [parse_motifs], [last] is the last intro note, whatever the
    syllables are. *)
Lemma bout_last_unparsed (b : Bout.t) :
  Bout.motifs b = None -> Bout.last b = getitem (Bout.intro_notes b) (-1).
Proof.
  unfold Bout.last, Bout.motifs_truthy. now intros ->.
Qed.

(** C1: the stop of a bout before [parse_motifs] has run.  On the sample
    timeline, the bout made of the intro group [0; 1] and the song group
    [2; 3; 4; 5] stops with its last intro note (at 0.4 s) although its last
    syllable stops at 4.4 s; for the bout made of the song group alone,
    [stop] and [duration] raise [IndexError]. *)
Theorem bout_stop_before_parse_motifs :
  VocGroup.init Sample.timeline [0; 1] = Ok Sample.intro_group /\
  VocGroup.init Sample.timeline [2; 3; 4; 5] = Ok Sample.song_group /\
  VocGroup.init_empty Sample.timeline = Ok Sample.empty_group /\
  (exists b,
      Bout.init Sample.timeline Sample.intro_group Sample.song_group = Ok b /\
      (v <- getitem (Bout.syllables b) (-1) ;; Ok (Vocalization.stop v)) = Ok 4400000 /\
      Bout.stop b = Ok 400000 /\
      Bout.duration b = Ok (total_seconds 400000)) /\
  (exists b,
      Bout.init Sample.timeline Sample.empty_group Sample.song_group = Ok b /\
      (v <- getitem (Bout.syllables b) (-1) ;; Ok (Vocalization.stop v)) = Ok 4400000 /\
      Bout.stop b = Raise IndexError /\
      Bout.duration b = Raise IndexError).
Proof.
  repeat split; try reflexivity.
  - eexists. split; [reflexivity|]. repeat split; reflexivity.
  - eexists. split; [reflexivity|]. repeat split; reflexivity.
Qed.

(** ** Sorting *)

Lemma insert_by_key_perm {A} (x : A) (kx : Z) (l : list (A * Z)) :
  Permutation (insert_by_key x kx l) ((x, kx) :: l).
Proof.
  induction l as [|[y ky] l IH]; simpl; [reflexivity|].
  destruct (kx <=? ky); [reflexivity|].
  rewrite IH. apply perm_swap.
Qed.

Lemma sort_keyed_perm {A} (l : list (A * Z)) : Permutation (sort_keyed l) l.
Proof.
  induction l as [|[x kx] l IH]; simpl; [reflexivity|].
  rewrite insert_by_key_perm. now apply perm_skip.
Qed.

Lemma map_fst_combine {A B} (l : list A) (ks : list B) :
  List.length ks = List.length l -> map fst (combine l ks) = l.
Proof.
  revert ks. induction l as [|x l IH]; intros [|k ks]; simpl; intros H;
    try discriminate; [reflexivity|].
  f_equal. apply IH. now injection H.
Qed.

(** [sorted] rearranges its argument. *)
Lemma sorted_perm {A} (key : A -> result Z) (l l' : list A) :
  sorted key l = Ok l' -> Permutation l' l.
Proof.
  unfold sorted. intros H. inv_bind H. inv_ok.
  rewrite sort_keyed_perm. rewrite map_fst_combine; [reflexivity|].
  eapply mapM_length; eauto.
Qed.

(** ** Assembling bouts *)

Lemma getitem_nat {A} (l : list A) (k : nat) (x : A) :
  getitem l (Z.of_nat k) = Ok x -> nth_error l k = Some x.
Proof.
  unfold getitem.
  replace (Z.of_nat k <? 0) with false by (symmetry; apply Z.ltb_ge; lia).
  rewrite Nat2Z.id.
  destruct (_ && _); [|discriminate].
  destruct (nth_error l k); congruence.
Qed.

Lemma skipn_S_length_app {A} (l1 : list A) (x : A) (l2 : list A) :
  skipn (S (List.length l1)) (l1 ++ x :: l2) = l2.
Proof. induction l1; simpl; auto. Qed.

Lemma firstn_length_app {A} (l1 l2 : list A) :
  firstn (List.length l1) (l1 ++ l2) = l1.
Proof. induction l1; simpl; congruence. Qed.

Lemma pop_split {A} (l l' : list A) (k : nat) (x : A) :
  nth_error l k = Some x -> pop l k = Ok l' ->
  exists l1 l2, l = l1 ++ x :: l2 /\ l' = l1 ++ l2.
Proof.
  intros Hn Hp. apply nth_error_split in Hn. destruct Hn as (l1 & l2 & -> & <-).
  unfold pop in Hp. destruct (_ <? _)%nat; [|discriminate].
  rewrite skipn_S_length_app, firstn_length_app in Hp. inv_ok.
  exists l1, l2. split; reflexivity.
Qed.

(** One turn of the loop of [define_bouts] adds one bout, which holds the
    intro group and either one song group, taken out of the pool, or none. *)
Lemma bout_step_Ok (t : Q) (sg_left sg_left' : list VocGroup.t)
  (bouts bouts' : list Bout.t) (ig : VocGroup.t) :
  bout_step t (sg_left, bouts) ig = Ok (sg_left', bouts') ->
  exists b,
    bouts' = bouts ++ [b] /\
    Bout.motifs b = None /\
    Bout.intro_notes b = VocGroup.vocalizations ig /\
    Bout.intro_idxs b = VocGroup.voc_idxs ig /\
    ((exists l1 g l2, sg_left = l1 ++ g :: l2 /\ sg_left' = l1 ++ l2 /\
                      Bout.syll_idxs b = VocGroup.voc_idxs g) \/
     (sg_left' = sg_left /\ Bout.syll_idxs b = [])).
Proof.
  unfold bout_step. intros H. inv_bind H.
  destruct (Qleb a2 t).
  - inv_bind H. inv_ok.
    apply init_bout in E3. destruct E3 as (_ & Hn & Hi & _ & Hs & Hm & _).
    apply getitem_nat in E1.
    destruct (pop_split _ _ _ _ E1 E4) as (l1 & l2 & -> & ->).
    exists a3. repeat split; auto. left. exists l1, a1, l2. auto.
  - inv_bind H. inv_ok.
    apply init_bout in E4. destruct E4 as (_ & Hn & Hi & _ & Hs & Hm & _).
    unfold VocGroup.init_empty, VocGroup.init in E3. simpl in E3. inv_ok.
    exists a4. repeat split; auto.
Qed.

Lemma bout_loop_Ok (t : Q) (igs : list VocGroup.t) :
  forall sg_left bouts sg_left' bouts',
    foldM (bout_step t) igs (sg_left, bouts) = Ok (sg_left', bouts') ->
    Permutation (flat_map bout_idxs bouts' ++ flat_map VocGroup.voc_idxs sg_left')
                (flat_map bout_idxs bouts ++
                 flat_map VocGroup.voc_idxs igs ++ flat_map VocGroup.voc_idxs sg_left) /\
    (Forall (fun b => Bout.motifs b = None) bouts ->
     Forall (fun b => Bout.motifs b = None) bouts').
Proof.
  induction igs as [|ig igs IH]; simpl; intros sg_left bouts sg_left' bouts' H.
  - inv_ok. split; [reflexivity | auto].
  - inv_bind H. destruct a as [sg1 bouts1].
    apply bout_step_Ok in E.
    destruct E as (b & -> & Hm & _ & Hi & Hcase).
    apply IH in H. destruct H as [HP HF].
    split.
    + rewrite HP. rewrite flat_map_app. simpl. rewrite app_nil_r.
      unfold bout_idxs at 2. rewrite Hi.
      rewrite <- !app_assoc. apply Permutation_app_head.
      destruct Hcase as [(l1 & g & l2 & -> & -> & Hs) | (-> & Hs)]; rewrite Hs.
      * rewrite !flat_map_app. simpl.
        apply Permutation_app_head.
        rewrite (Permutation_app_swap_app (VocGroup.voc_idxs g)).
        apply Permutation_app_head.
        rewrite (Permutation_app_swap_app (flat_map VocGroup.voc_idxs l1)).
        reflexivity.
      * simpl. reflexivity.
    + intros HF0. apply HF. apply Forall_app. split; [assumption|].
      constructor; [assumption | constructor].
Qed.

Lemma song_only_bouts (gs : list VocGroup.t) (rest : list Bout.t) :
  mapM song_only_bout gs = Ok rest ->
  flat_map bout_idxs rest = flat_map VocGroup.voc_idxs gs /\
  Forall (fun b => Bout.motifs b = None /\ Bout.intro_notes b = []) rest.
Proof.
  revert rest. induction gs as [|g gs IH]; simpl; intros rest H.
  - inv_ok. split; [reflexivity | constructor].
  - inv_bind H. inv_ok. destruct (IH _ E0) as [IH1 IH2].
    unfold song_only_bout in E. inv_bind E.
    unfold VocGroup.init_empty, VocGroup.init in E1. simpl in E1. inv_ok.
    apply init_bout in E. destruct E as (_ & Hn & Hi & _ & Hs & Hm & _).
    simpl in *. split.
    + unfold bout_idxs at 1. rewrite Hi, Hs, IH1. reflexivity.
    + constructor; auto.
Qed.

(** What [define_bouts] returns: the indexes of the two inputs, rearranged,
    in bouts that have no motifs yet. *)
Lemma define_bouts_Ok (intro_groups song_groups : list VocGroup.t) (t : Q)
  (bouts : list Bout.t) :
  define_bouts intro_groups song_groups t = Ok bouts ->
  Permutation (flat_map bout_idxs bouts)
              (flat_map VocGroup.voc_idxs intro_groups ++
               flat_map VocGroup.voc_idxs song_groups) /\
  Forall (fun b => Bout.motifs b = None) bouts.
Proof.
  unfold define_bouts. intros H. inv_bind H. destruct a as [sg_left paired].
  simpl in *.
  apply bout_loop_Ok in E. destruct E as [HP HF].
  apply song_only_bouts in E0. destruct E0 as [HR HFR].
  apply sorted_perm in H. split.
  - rewrite H, flat_map_app, HR. exact HP.
  - eapply Permutation_Forall; [symmetry; exact H|].
    apply Forall_app. split; [apply HF; constructor|].
    eapply Forall_impl; [|exact HFR]. simpl. tauto.
Qed.

Lemma filterM_none {A} (p : A -> result bool) (l : list A) :
  (forall x, In x l -> p x = Ok false) -> filterM p l = Ok [].
Proof.
  induction l as [|x l IH]; simpl; intros H; [reflexivity|].
  rewrite (H x) by now left. simpl. rewrite IH; [reflexivity|].
  intros y Hy. apply H. now right.
Qed.

Lemma later_groups_none (ig : VocGroup.t) (sg_left : list VocGroup.t) :
  (forall g, In g sg_left ->
             exists e s, VocGroup.stop ig = Ok e /\ VocGroup.start g = Ok s /\ s <= e) ->
  later_groups ig sg_left = Ok [].
Proof.
  intros H. unfold later_groups. rewrite filterM_none; [reflexivity|].
  intros [k g] Hin. apply in_combine_r in Hin.
  destruct (H g Hin) as (e & s0 & -> & Hs & Hle). simpl. rewrite Hs. simpl.
  f_equal. apply Z.ltb_ge. exact Hle.
Qed.

(** C5, amended: when [define_bouts] comes to an intro group and no song
    group left in the pool starts strictly after the stop of that intro
    group, it raises the [ValueError] of [min] on an empty sequence, not an
    error of its own, and returns no bouts; so it does for any intro group
    when there are no song groups at all. *)
Theorem define_bouts_unmatched_intro_group :
  (forall t pre ig post song_groups sg_left bouts,
      foldM (bout_step t) pre (song_groups, []) = Ok (sg_left, bouts) ->
      (forall g, In g sg_left ->
                 exists e s, VocGroup.stop ig = Ok e /\ VocGroup.start g = Ok s /\ s <= e) ->
      define_bouts (pre ++ ig :: post) song_groups t = Raise ValueError) /\
  (forall t ig rest, define_bouts (ig :: rest) [] t = Raise ValueError).
Proof.
  assert (H : forall t pre ig post song_groups sg_left bouts,
             foldM (bout_step t) pre (song_groups, []) = Ok (sg_left, bouts) ->
             later_groups ig sg_left = Ok [] ->
             define_bouts (pre ++ ig :: post) song_groups t = Raise ValueError).
  { intros t pre ig post song_groups sg_left bouts Hpre Hnone.
    unfold define_bouts. rewrite foldM_app, Hpre. simpl.
    rewrite Hnone. reflexivity. }
  split.
  - intros t pre ig post song_groups sg_left bouts Hpre Hnone.
    eapply H; eauto using later_groups_none.
  - intros t ig rest. apply (H t [] ig rest [] [] []); reflexivity.
Qed.

Lemma define_bouts_unmatched_intro_group_witness :
  define_bouts [Sample.intro_group; Sample.late_group] [Sample.song_group] (4 # 1)
  = Raise ValueError.
Proof.
  eapply (proj1 define_bouts_unmatched_intro_group (4 # 1) [Sample.intro_group]
                Sample.late_group [] [Sample.song_group] []).
  - reflexivity.
  - intros g [].
Defined.

(** C5 as stated fails in its words "a descriptive error".  [define_bouts]
    has no raise of its own: the error is the one that [min] raises on any
    empty sequence (in Python, "min() arg is an empty sequence").  It is the
    same for two different unmatched intro groups, so that no reading of
    the error tells which intro group had no song group after it. *)
Lemma define_bouts_error_not_descriptive :
  define_bouts [Sample.intro_group] [] BOUT_ANNEAL = Raise ValueError /\
  define_bouts [Sample.late_group] [] BOUT_ANNEAL = Raise ValueError /\
  VocGroup.voc_idxs Sample.intro_group <> VocGroup.voc_idxs Sample.late_group /\
  (forall (A : Type) (key : A -> result Q), min_by_key key [] = Raise ValueError) /\
  ~ (exists describe : exn -> list Z,
        forall ig t e,
          define_bouts [ig] [] t = Raise e -> describe e = VocGroup.voc_idxs ig).
Proof.
  split; [reflexivity|]. split; [reflexivity|]. split; [discriminate|].
  split; [reflexivity|].
  intros [describe H].
  assert (H1 := H Sample.intro_group BOUT_ANNEAL ValueError eq_refl).
  assert (H2 := H Sample.late_group BOUT_ANNEAL ValueError eq_refl).
  rewrite H1 in H2. discriminate.
Qed.

Lemma NoDup_flat_map_nth {A B} (f : A -> list B) (l : list A) :
  NoDup (flat_map f l) ->
  forall k1 k2 x1 x2 y,
    nth_error l k1 = Some x1 -> nth_error l k2 = Some x2 ->
    In y (f x1) -> In y (f x2) -> k1 = k2.
Proof.
  induction l as [|x l IH]; simpl; intros Hnd k1 k2 x1 x2 y H1 H2 I1 I2.
  - destruct k1; discriminate.
  - assert (Hcross : forall k z, nth_error l k = Some z -> In y (f x) -> In y (f z) -> False).
    { intros k z Hk Ix Iz.
      apply NoDup_app_remove_l in Hnd as Hl.
      assert (In y (flat_map f l)).
      { apply in_flat_map. exists z. split; [eapply nth_error_In; eauto | assumption]. }
      clear Hl. revert Hnd Ix H. generalize (flat_map f l) as r. generalize (f x) as q.
      induction q as [|c q IHq]; simpl; intros r Hnd Ix Hr; [contradiction|].
      inversion Hnd as [|? ? Hc Hnd']; subst. destruct Ix as [->|Ix].
      - apply Hc. apply in_or_app. now right.
      - eapply IHq; eauto. }
    destruct k1 as [|k1], k2 as [|k2]; simpl in *.
    + reflexivity.
    + injection H1 as <-. exfalso. eapply Hcross; eauto.
    + injection H2 as <-. exfalso. eapply Hcross; eauto.
    + f_equal. eapply IH; eauto. eapply NoDup_app_remove_l; eauto.
Qed.

(** C6, amended: [define_bouts] neither loses nor repeats an index: the
    indexes of the returned bouts are those of the two inputs, rearranged,
    each as many times as the inputs have it.  When no index occurs twice
    in the inputs, each index of the inputs is in exactly one returned
    bout. *)
Theorem define_bouts_complete (intro_groups song_groups : list VocGroup.t) (t : Q)
  (bouts : list Bout.t) :
  define_bouts intro_groups song_groups t = Ok bouts ->
  Permutation (flat_map bout_idxs bouts)
              (flat_map VocGroup.voc_idxs intro_groups ++
               flat_map VocGroup.voc_idxs song_groups) /\
  (NoDup (flat_map VocGroup.voc_idxs intro_groups ++
          flat_map VocGroup.voc_idxs song_groups) ->
   forall i,
     In i (flat_map VocGroup.voc_idxs intro_groups ++
           flat_map VocGroup.voc_idxs song_groups) ->
     exists! k, exists b, nth_error bouts k = Some b /\ In i (bout_idxs b)).
Proof.
  intros H. apply define_bouts_Ok in H. destruct H as [HP _].
  split; [exact HP|].
  intros Hnd i Hi.
  assert (Hnd' : NoDup (flat_map bout_idxs bouts)).
  { eapply Permutation_NoDup; [symmetry; exact HP | exact Hnd]. }
  assert (Hi' : In i (flat_map bout_idxs bouts)).
  { eapply Permutation_in; [symmetry; exact HP | exact Hi]. }
  apply in_flat_map in Hi'. destruct Hi' as (b & Hb & Hib).
  apply In_nth_error in Hb. destruct Hb as [k Hk].
  exists k. split.
  - exists b. auto.
  - intros k' (b' & Hk' & Hib').
    eapply NoDup_flat_map_nth; eauto.
Qed.

Lemma define_bouts_complete_witness :
  define_bouts [Sample.intro_group] [Sample.song_group] BOUT_ANNEAL
  = Ok Sample.timeline_bouts /\
  Permutation (flat_map bout_idxs Sample.timeline_bouts) ([0; 1] ++ [2; 3; 4; 5]) /\
  (forall i, In i ([0; 1] ++ [2; 3; 4; 5]) ->
     exists! k, exists b, nth_error Sample.timeline_bouts k = Some b /\ In i (bout_idxs b)).
Proof.
  split; [reflexivity|].
  destruct (define_bouts_complete [Sample.intro_group] [Sample.song_group] BOUT_ANNEAL
                                  Sample.timeline_bouts eq_refl) as [HP HU].
  split; [exact HP|].
  apply HU. simpl.
  repeat (constructor; [simpl; intuition discriminate|]). constructor.
Defined.

(** The groups that [group_elements] returns for the timeline [Sample.mixed]
    when the intro note is also listed among the syllables: the intro note
    is in a group of both streams. *)
Example group_elements_shared_index :
  group_elements Sample.mixed ["i"]%string (fun x => x)
  = Ok [Sample.group Sample.mixed [0]] /\
  group_elements Sample.mixed ["i"; "a"]%string (fun x => x)
  = Ok [Sample.group Sample.mixed [0]; Sample.group Sample.mixed [2]].
Proof. split; reflexivity. Qed.

(** C6 as stated fails on such streams: index 0 is in two returned bouts. *)
Lemma define_bouts_exactly_one_fails :
  ~ (forall intro_groups song_groups t bouts,
        define_bouts intro_groups song_groups t = Ok bouts ->
        forall i,
          In i (flat_map VocGroup.voc_idxs intro_groups ++
                flat_map VocGroup.voc_idxs song_groups) ->
          exists! k, exists b, nth_error bouts k = Some b /\ In i (bout_idxs b)).
Proof.
  intros H.
  pose (g0 := Sample.group Sample.mixed [0]).
  pose (g2 := Sample.group Sample.mixed [2]).
  destruct (define_bouts [g0] [g0; g2] BOUT_ANNEAL) as [bouts|e] eqn:E;
    [|discriminate E].
  specialize (H [g0] [g0; g2] BOUT_ANNEAL bouts E 0 (or_introl eq_refl)).
  vm_compute in E. injection E as <-.
  destruct H as (k & _ & Huniq).
  assert (H0 : k = 0%nat).
  { apply Huniq. eexists. split; [reflexivity|]. simpl. auto. }
  assert (H1 : k = 1%nat).
  { apply Huniq. eexists. split; [reflexivity|]. simpl. auto. }
  congruence.
Qed.

(** ** Bouts without intro notes, before [parse_motifs] *)

Lemma bout_start_Raise (b : Bout.t) (e : exn) : Bout.start b = Raise e -> e = IndexError.
Proof.
  unfold Bout.start, Bout.first. intros H.
  apply bind_Raise in H. destruct H as [H | (v & _ & H)]; [|discriminate].
  destruct (Bout.intro_notes b); eapply getitem_Raise; eauto.
Qed.

Lemma bout_stop_Raise (b : Bout.t) (e : exn) : Bout.stop b = Raise e -> e = IndexError.
Proof.
  unfold Bout.stop, Bout.last. intros H.
  apply bind_Raise in H. destruct H as [H | (v & _ & H)]; [|discriminate].
  destruct (Bout.motifs_truthy b); eapply getitem_Raise; eauto.
Qed.

Lemma phrase_break_Raise (t : Q) (prev b : Bout.t) (e : exn) :
  phrase_break t prev b = Raise e -> e = IndexError.
Proof.
  unfold phrase_break, delta_t. simpl. intros H.
  destruct (Bout.start b) eqn:Es; simpl in H.
  - destruct (Bout.stop prev) eqn:Ee; simpl in H; [discriminate|].
    injection H as <-. eapply bout_stop_Raise; eauto.
  - injection H as <-. eapply bout_start_Raise; eauto.
Qed.

Lemma bout_stop_intro_less (b : Bout.t) :
  Bout.intro_notes b = [] -> Bout.motifs b = None -> Bout.stop b = Raise IndexError.
Proof.
  intros Hi Hm. unfold Bout.stop. rewrite bout_last_unparsed, Hi, getitem_nil by assumption.
  reflexivity.
Qed.

Lemma phrase_break_intro_less (t : Q) (prev b : Bout.t) :
  Bout.intro_notes prev = [] -> Bout.motifs prev = None ->
  phrase_break t prev b = Raise IndexError.
Proof.
  intros Hi Hm. unfold phrase_break, delta_t. simpl.
  destruct (Bout.start b) eqn:Es; simpl.
  - rewrite bout_stop_intro_less by assumption. reflexivity.
  - f_equal. eapply bout_start_Raise; eauto.
Qed.

(** When the test of one adjacent pair raises, and the tests raise nothing
    else, the whole cut raises. *)
Lemma chunk_list_Raise {A B} (brk : A -> A -> result bool) (f : A -> list B) (e : exn)
  (pre : list A) (x y : A) (post : list A) :
  (forall a b e', brk a b = Raise e' -> e' = e) ->
  brk x y = Raise e ->
  chunk_list brk f (pre ++ x :: y :: post) = Raise e.
Proof.
  intros Honly Hxy. induction pre as [|p pre IH].
  - simpl. rewrite Hxy. reflexivity.
  - assert (Hc : chunk_list brk f ((p :: pre) ++ x :: y :: post) =
                 (c <- brk p (hd x pre) ;;
                  rest <- chunk_list brk f (pre ++ x :: y :: post) ;;
                  Ok (if c then f p :: rest else glue (f p) rest))).
    { destruct pre; reflexivity. }
    rewrite Hc, IH.
    destruct (brk p (hd x pre)) eqn:E; simpl; [reflexivity|].
    f_equal. eapply Honly; eauto.
Qed.

Lemma full_parse_assemble (voc_list : list Vocalization.t) (bird_meta : BirdMetadata.t)
  (intro_anneal song_anneal intro_split song_split bout_anneal : Q)
  (parse_motifs : bool) (phrase_anneal : Q) :
  full_parse voc_list bird_meta intro_anneal song_anneal intro_split song_split
             bout_anneal parse_motifs phrase_anneal =
  (bouts <- assemble_bouts voc_list bird_meta intro_anneal song_anneal intro_split
                           song_split bout_anneal ;;
   bouts <- (if parse_motifs
             then mapM (fun b => Bout.parse_motifs b (BirdMetadata.syllables bird_meta)
                                                   (BirdMetadata.alias bird_meta)) bouts
             else Ok bouts) ;;
   phrases <- define_phrases bouts phrase_anneal ;;
   sorted (fun p => b <- getitem p 0 ;; Bout.start b) phrases).
Proof.
  unfold full_parse, assemble_bouts.
  repeat match goal with
         | |- bind ?c _ = bind (bind ?c _) _ => destruct c; simpl; [|reflexivity]
         end.
  reflexivity.
Qed.

(** ** Annealing *)

Lemma filterM_pure {A} (p : A -> result bool) (q : A -> bool) (l : list A) :
  (forall x, In x l -> p x = Ok (q x)) -> filterM p l = Ok (filter q l).
Proof.
  induction l as [|x l IH]; simpl; intros H; [reflexivity|].
  rewrite (H x) by now left. simpl. rewrite IH by (intros y Hy; apply H; now right).
  reflexivity.
Qed.

Section Barriers.

Variables (cg ng : VocGroup.t) (e s : Z).
Hypothesis Hstop : VocGroup.stop cg = Ok e.
Hypothesis Hstart : VocGroup.start ng = Ok s.

Lemma song_between_filter (breaks : list Z) :
  song_between breaks cg ng =
  Ok (map (fun _ => 1) (filter (fun b => (e <=? b) && (b <=? s)) breaks)).
Proof.
  unfold song_between. erewrite filterM_pure; [reflexivity|].
  intros b _. simpl. rewrite Hstop. simpl.
  destruct (e <=? b); [rewrite Hstart|]; reflexivity.
Qed.

Lemma song_between_none (breaks : list Z) :
  (forall b, In b breaks -> ~ (e <= b <= s)) -> song_between breaks cg ng = Ok [].
Proof.
  intros H. rewrite song_between_filter. f_equal.
  induction breaks as [|b breaks IH]; [reflexivity|]. simpl.
  destruct ((e <=? b) && (b <=? s)) eqn:E.
  - exfalso. apply (H b); [now left|].
    apply andb_true_iff in E. destruct E as [E1 E2].
    apply Z.leb_le in E1, E2. lia.
  - apply IH. intros b' Hb'. apply H. now right.
Qed.

Lemma song_between_some (breaks : list Z) (b : Z) :
  In b breaks -> e <= b <= s ->
  exists h r, song_between breaks cg ng = Ok (h :: r).
Proof.
  intros Hin Hb. rewrite song_between_filter.
  assert (Hf : In b (filter (fun b => (e <=? b) && (b <=? s)) breaks)).
  { apply filter_In. split; [assumption|].
    apply andb_true_iff. split; apply Z.leb_le; lia. }
  destruct (filter _ breaks) as [|h r]; [contradiction|].
  simpl. eauto.
Qed.

Lemma delta_t_groups : delta_t cg ng = Ok (total_seconds (s - e)).
Proof. unfold delta_t. simpl. now rewrite Hstart, Hstop. Qed.

(** Without a barrier, the test is that of the threshold. *)
Lemma anneal_break_clear (t : Q) (breaks : list Z) :
  (forall b, In b breaks -> ~ (e <= b <= s)) ->
  anneal_break t breaks cg ng = Ok (Qltb t (total_seconds (s - e))).
Proof.
  intros H. unfold anneal_break. rewrite song_between_none by assumption.
  simpl. now rewrite delta_t_groups.
Qed.

(** With a barrier, the two groups stay apart. *)
Lemma anneal_break_barrier (t : Q) (breaks : list Z) (b : Z) :
  In b breaks -> e <= b <= s -> anneal_break t breaks cg ng = Ok true.
Proof.
  intros Hin Hb. unfold anneal_break.
  destruct (song_between_some breaks b Hin Hb) as (h & r & ->). reflexivity.
Qed.

End Barriers.

Lemma anneal_step_break (t : Q) (breaks : list Z) (P : list (list Z)) (u : list Z)
  (cg ng : VocGroup.t) :
  anneal_step t breaks (P ++ [u]) (cg, ng) =
  (c <- anneal_break t breaks cg ng ;;
   Ok (P ++ (if c then [u; VocGroup.voc_idxs ng] else [u ++ VocGroup.voc_idxs ng]))).
Proof.
  unfold anneal_step, anneal_break.
  destruct (song_between breaks cg ng) as [[|h r]|e]; simpl; [| |reflexivity].
  - destruct (delta_t cg ng) as [d|e]; simpl; [|reflexivity].
    destruct (Qltb t d).
    + now rewrite <- app_assoc.
    + now rewrite extend_last_snoc.
  - now rewrite <- app_assoc.
Qed.

(** The loop of [anneal_groups] cuts the groups at each [anneal_break]. *)
Lemma annealed_idxs_chunks (groups : list VocGroup.t) (t : Q) (breaks : list Z) :
  annealed_idxs groups t breaks =
  chunk_list (anneal_break t breaks) VocGroup.voc_idxs groups.
Proof.
  destruct groups as [|g0 rest]; [reflexivity|].
  unfold annealed_idxs, chunk_list.
  change [VocGroup.voc_idxs g0] with ([] ++ [[] ++ VocGroup.voc_idxs g0]).
  rewrite (foldM_pairwise_chunks _ _ _ (anneal_step_break t breaks) rest g0 [] []).
  destruct (chunks _ _ g0 rest) as [r|e] eqn:E; simpl; [|reflexivity].
  rewrite glue_nil by (eapply chunks_nonempty; eauto). reflexivity.
Qed.

Lemma anneal_groups_idxs (groups out : list VocGroup.t) (t : Q) (breaks : list Z) :
  anneal_groups groups t breaks = Ok out ->
  annealed_idxs groups t breaks = Ok (map VocGroup.voc_idxs out).
Proof.
  destruct groups as [|g0 rest]; intros H.
  - simpl in H. inv_ok. reflexivity.
  - unfold anneal_groups in H. inv_bind H. apply mapM_init_idxs in H. now rewrite H.
Qed.

Lemma anneal_groups_rule (pre : list VocGroup.t) (cg ng : VocGroup.t)
  (post out : list VocGroup.t) (t : Q) (breaks : list Z) :
  anneal_groups (pre ++ cg :: ng :: post) t breaks = Ok out ->
  exists c X u w Y,
    anneal_break t breaks cg ng = Ok c /\
    List.concat X ++ u = flat_map VocGroup.voc_idxs pre /\
    w ++ List.concat Y = flat_map VocGroup.voc_idxs post /\
    map VocGroup.voc_idxs out =
      if c then X ++ (u ++ VocGroup.voc_idxs cg) :: (VocGroup.voc_idxs ng ++ w) :: Y
      else X ++ (u ++ VocGroup.voc_idxs cg ++ VocGroup.voc_idxs ng ++ w) :: Y.
Proof.
  intros H. apply anneal_groups_idxs in H. rewrite annealed_idxs_chunks in H.
  apply chunk_rule in H. rewrite !flat_map_concat_map. exact H.
Qed.

(** C4: two adjacent groups with a barrier [b] between them,
    [cg.stop <= b <= ng.start], are not joined by [anneal_groups], whatever
    the threshold: in the output a group ends with the indexes of [cg] and
    the next one begins with those of [ng]. *)
Theorem anneal_groups_barrier (pre : list VocGroup.t) (cg ng : VocGroup.t)
  (post out : list VocGroup.t) (t : Q) (breaks : list Z) (e s b : Z) :
  anneal_groups (pre ++ cg :: ng :: post) t breaks = Ok out ->
  VocGroup.stop cg = Ok e ->
  VocGroup.start ng = Ok s ->
  In b breaks -> e <= b <= s ->
  exists X u w Y,
    List.concat X ++ u = flat_map VocGroup.voc_idxs pre /\
    w ++ List.concat Y = flat_map VocGroup.voc_idxs post /\
    map VocGroup.voc_idxs out =
      X ++ (u ++ VocGroup.voc_idxs cg) :: (VocGroup.voc_idxs ng ++ w) :: Y.
Proof.
  intros H He Hs Hin Hb.
  apply anneal_groups_rule in H.
  destruct H as (c & X & u & w & Y & Hc & HX & HY & Hout).
  rewrite (anneal_break_barrier cg ng e s He Hs t breaks b Hin Hb) in Hc.
  inv_ok. exists X, u, w, Y. auto.
Qed.

Lemma anneal_groups_barrier_witness :
  anneal_groups [Sample.first_note; Sample.second_note] (10 # 1) [200000]
  = Ok [Sample.first_note; Sample.second_note] /\
  exists X u w Y,
    List.concat X ++ u = [] /\
    w ++ List.concat Y = [] /\
    map VocGroup.voc_idxs [Sample.first_note; Sample.second_note] =
      X ++ (u ++ [0]) :: ([1] ++ w) :: Y.
Proof.
  split; [reflexivity|].
  apply (anneal_groups_barrier [] Sample.first_note Sample.second_note []
           [Sample.first_note; Sample.second_note] (10 # 1) [200000]
           100000 300000 200000).
  - reflexivity.
  - reflexivity.
  - reflexivity.
  - now left.
  - lia.
Defined.

(** ** Splitting *)

Section Split.

Variable grp : VocGroup.t.
Variable t : Q.

Lemma split_step_break (start : nat) (split : list (list Z)) (idx : nat) (cn nn : Z) :
  split_step grp t (start, split) (idx, (cn, nn)) =
  (c <- split_break (VocGroup.voc_list grp) t cn nn ;;
   Ok (if c then ((idx + 1)%nat,
                  split ++ [slice (VocGroup.voc_idxs grp) start (idx + 1)])
       else (start, split))).
Proof.
  unfold split_step, split_break.
  destruct (getitem _ cn) as [c|e]; simpl; [|reflexivity].
  destruct (getitem _ nn) as [n|e]; simpl; [|reflexivity].
  destruct (Qleb _ _); reflexivity.
Qed.

Lemma skipn_snoc {A} (k : nat) (l : list A) (a : A) :
  (k <= List.length l)%nat -> skipn k (l ++ [a]) = skipn k l ++ [a].
Proof.
  intros H. rewrite skipn_app.
  replace (k - List.length l)%nat with 0%nat by lia. reflexivity.
Qed.

(** The inner loop of [split_groups], started at any member of the
    group: [done] are the members already seen, of which those from
    [start] on belong to the fragment being read. *)
Lemma split_loop (l : list Z) :
  forall (a : Z) (done : list Z) (split : list (list Z)) (start : nat),
    VocGroup.voc_idxs grp = done ++ a :: l ->
    (start <= List.length done)%nat ->
    (st <- foldM (split_step grp t)
                 (combine (seq (List.length done) (List.length l)) (pairwise (a :: l)))
                 (start, split) ;;
     Ok (snd st ++ [slice_from (VocGroup.voc_idxs grp) (fst st)])) =
    (rest <- chunks (split_break (VocGroup.voc_list grp) t) (fun i => [i]) a l ;;
     Ok (split ++ glue (skipn start done) rest)).
Proof.
  induction l as [|b r IH]; intros a done split start Hidxs Hstart.
  - simpl. unfold slice_from. rewrite Hidxs, skipn_snoc by assumption. reflexivity.
  - change (pairwise (a :: b :: r)) with ((a, b) :: pairwise (b :: r)).
    cbn [List.length seq combine foldM].
    rewrite split_step_break. cbn [chunks].
    destruct (split_break _ t a b) as [c|e]; simpl bind; [|reflexivity].
    assert (Hidxs' : VocGroup.voc_idxs grp = (done ++ [a]) ++ b :: r)
      by now rewrite <- app_assoc.
    assert (Hlen : List.length (done ++ [a]) = S (List.length done))
      by (rewrite length_app; simpl; lia).
    destruct c.
    + specialize (IH b (done ++ [a])
                     (split ++ [slice (VocGroup.voc_idxs grp) start
                                      (List.length done + 1)])
                     (List.length done + 1)%nat Hidxs').
      rewrite Hlen in IH. rewrite IH by lia.
      destruct (chunks _ _ b r) as [rest|e] eqn:E; simpl; [|reflexivity].
      replace (List.length done + 1)%nat with (List.length (done ++ [a])) by lia.
      rewrite skipn_all, glue_nil by (eapply chunks_nonempty; eauto).
      unfold slice. rewrite Hidxs', firstn_length_app, skipn_snoc by assumption.
      now rewrite <- app_assoc.
    + specialize (IH b (done ++ [a]) split start Hidxs').
      rewrite Hlen in IH. rewrite IH by lia.
      destruct (chunks _ _ b r) as [rest|e] eqn:E; simpl; [|reflexivity].
      rewrite skipn_snoc by assumption.
      rewrite glue_glue by (eapply chunks_nonempty; eauto). reflexivity.
Qed.

Lemma length_pairwise {A} (a : A) (l : list A) :
  List.length (pairwise (a :: l)) = List.length l.
Proof.
  unfold pairwise. rewrite length_combine. cbn [tl List.length].
  apply Nat.min_r. lia.
Qed.

(** One turn of the outer loop appends the fragments of the group. *)
Lemma split_group_fragments (split : list (list Z)) :
  split_group t split grp = (frags <- fragments grp t ;; Ok (split ++ frags)).
Proof.
  unfold split_group, fragments, enumerate.
  destruct (VocGroup.voc_idxs grp) as [|a l] eqn:E; [reflexivity|].
  rewrite length_pairwise.
  pose proof (split_loop l a [] split 0%nat) as H.
  rewrite E in H. cbn [List.length app skipn] in H.
  rewrite H by (auto; lia).
  destruct (chunks _ _ a l) as [rest|e] eqn:Ec; simpl; [|reflexivity].
  rewrite glue_nil by (eapply chunks_nonempty; eauto). reflexivity.
Qed.

End Split.

Lemma fragments_concat (grp : VocGroup.t) (t : Q) (frags : list (list Z)) :
  fragments grp t = Ok frags -> List.concat frags = VocGroup.voc_idxs grp.
Proof.
  unfold fragments. destruct (VocGroup.voc_idxs grp) as [|a l]; intros H.
  - inv_ok. reflexivity.
  - apply (chunk_list_concat _ _ (a :: l)) in H.
    now rewrite concat_map_singleton in H.
Qed.

Lemma split_loop_groups (t : Q) (groups : list VocGroup.t) :
  forall split,
    foldM (split_group t) groups split =
    (fs <- mapM (fun g => fragments g t) groups ;; Ok (split ++ List.concat fs)).
Proof.
  induction groups as [|g groups IH]; intros split; simpl.
  - now rewrite app_nil_r.
  - rewrite split_group_fragments.
    destruct (fragments g t) as [frags|e]; simpl; [|reflexivity].
    rewrite IH.
    destruct (mapM _ groups) as [fs|e]; simpl; [|reflexivity].
    now rewrite app_assoc.
Qed.

Lemma split_groups_idxs (groups out : list VocGroup.t) (t : Q) :
  split_groups groups t = Ok out ->
  exists fs, mapM (fun g => fragments g t) groups = Ok fs /\
             map VocGroup.voc_idxs out = List.concat fs.
Proof.
  destruct groups as [|g0 rest]; intros H.
  - simpl in H. inv_ok. exists []. split; reflexivity.
  - unfold split_groups, split_idxs in H. inv_bind H.
    rewrite split_loop_groups in E. inv_bind E. inv_ok.
    apply mapM_init_idxs in H. exists a0. split; [assumption|]. exact H.
Qed.

Lemma fragments_all_concat (t : Q) (groups : list VocGroup.t) (fs : list (list (list Z))) :
  mapM (fun g => fragments g t) groups = Ok fs ->
  List.concat (List.concat fs) = flat_map VocGroup.voc_idxs groups.
Proof.
  revert fs. induction groups as [|g groups IH]; simpl; intros fs H.
  - inv_ok. reflexivity.
  - inv_bind H. inv_ok. simpl. rewrite concat_app.
    erewrite fragments_concat, IH by eauto. reflexivity.
Qed.

Lemma fragments_chunk_list (grp : VocGroup.t) (t : Q) :
  VocGroup.voc_idxs grp <> [] ->
  fragments grp t =
  chunk_list (split_break (VocGroup.voc_list grp) t) (fun i => [i]) (VocGroup.voc_idxs grp).
Proof.
  unfold fragments. destruct (VocGroup.voc_idxs grp); [congruence | reflexivity].
Qed.

Lemma split_break_gap (vl : list Vocalization.t) (t : Q) (cn nn : Z)
  (c n : Vocalization.t) :
  getitem vl cn = Ok c -> getitem vl nn = Ok n ->
  split_break vl t cn nn =
  Ok (Qleb t (total_seconds (Vocalization.start n - Vocalization.stop c))).
Proof.
  intros Hc Hn. unfold split_break. rewrite Hc, Hn. reflexivity.
Qed.

(** C3, amended: the two thresholds at their boundary.  The silence is the
    number that [delta_t] returns, [total_seconds] of the time between the
    two: the float nearest to the number of seconds.  Two adjacent groups
    with no barrier between them are joined by [anneal_groups] exactly when
    that number for [ng.start - cg.stop] is at most the threshold (equality
    joins); [split_groups] cuts a group between two consecutive members
    exactly when that number for the time between them is at least the
    threshold (equality cuts).
    In both statements the output is described around the pair: either one
    list holds both items, side by side, or one list ends with the first
    item and the next list begins with the second. *)
Theorem threshold_boundaries :
  (forall pre cg ng post out t breaks e s,
      anneal_groups (pre ++ cg :: ng :: post) t breaks = Ok out ->
      VocGroup.stop cg = Ok e ->
      VocGroup.start ng = Ok s ->
      (forall b, In b breaks -> ~ (e <= b <= s)) ->
      exists X u w Y,
        List.concat X ++ u = flat_map VocGroup.voc_idxs pre /\
        w ++ List.concat Y = flat_map VocGroup.voc_idxs post /\
        ((total_seconds (s - e) <= t)%Q ->
         map VocGroup.voc_idxs out =
           X ++ (u ++ VocGroup.voc_idxs cg ++ VocGroup.voc_idxs ng ++ w) :: Y) /\
        ((t < total_seconds (s - e))%Q ->
         map VocGroup.voc_idxs out =
           X ++ (u ++ VocGroup.voc_idxs cg) :: (VocGroup.voc_idxs ng ++ w) :: Y)) /\
  (forall G1 grp G2 out t pre cn nn post c n,
      split_groups (G1 ++ grp :: G2) t = Ok out ->
      VocGroup.voc_idxs grp = pre ++ cn :: nn :: post ->
      getitem (VocGroup.voc_list grp) cn = Ok c ->
      getitem (VocGroup.voc_list grp) nn = Ok n ->
      exists F1 X u w Y F2,
        List.concat F1 = flat_map VocGroup.voc_idxs G1 /\
        List.concat F2 = flat_map VocGroup.voc_idxs G2 /\
        List.concat X ++ u = pre /\
        w ++ List.concat Y = post /\
        ((t <= total_seconds (Vocalization.start n - Vocalization.stop c))%Q ->
         map VocGroup.voc_idxs out = F1 ++ (X ++ (u ++ [cn]) :: (nn :: w) :: Y) ++ F2) /\
        ((total_seconds (Vocalization.start n - Vocalization.stop c) < t)%Q ->
         map VocGroup.voc_idxs out = F1 ++ (X ++ (u ++ cn :: nn :: w) :: Y) ++ F2)).
Proof.
  split.
  - intros pre cg ng post out t breaks e s H He Hs Hclear.
    apply anneal_groups_rule in H.
    destruct H as (c & X & u & w & Y & Hc & HX & HY & Hout).
    rewrite (anneal_break_clear cg ng e s He Hs t breaks Hclear) in Hc.
    injection Hc as Hc.
    exists X, u, w, Y. repeat split; auto.
    + intros Hle. apply Qltb_false in Hle. rewrite Hle in Hc. now subst c.
    + intros Hlt. apply Qltb_true in Hlt. rewrite Hlt in Hc. now subst c.
  - intros G1 grp G2 out t pre cn nn post c n H Hidxs Hc Hn.
    apply split_groups_idxs in H. destruct H as (fs & Hfs & Hout).
    rewrite mapM_app in Hfs. simpl in Hfs. inv_binds.
    match goal with
    | H1 : mapM _ G1 = Ok ?f1, H : fragments grp t = Ok ?f, H2 : mapM _ G2 = Ok ?f2 |- _ =>
        rename f1 into fs1; rename f into frags; rename f2 into fs2;
        rename H1 into Hfs1; rename H into Hfr; rename H2 into Hfs2
    end.
    rewrite fragments_chunk_list, Hidxs in Hfr
      by (rewrite Hidxs; destruct pre; discriminate).
    apply chunk_rule in Hfr.
    destruct Hfr as (b & X & u & w & Y & Hb & HX & HY & Hfrags).
    rewrite concat_map_singleton in HX, HY.
    rewrite (split_break_gap _ t cn nn c n Hc Hn) in Hb. injection Hb as Hb.
    exists (List.concat fs1), X, u, w, Y, (List.concat fs2).
    rewrite Hout, concat_app. simpl.
    repeat split; eauto using fragments_all_concat.
    + intros Hle. apply Qleb_true in Hle. rewrite Hle in Hb. now subst b frags.
    + intros Hlt. apply Qleb_false in Hlt. rewrite Hlt in Hb. now subst b frags.
Qed.

Lemma threshold_boundaries_witness :
  (anneal_groups [Sample.first_note; Sample.second_note] (true_divide 2 10) []
   = Ok [Sample.intro_group] /\
   exists X u w Y,
     List.concat X ++ u = [] /\ w ++ List.concat Y = [] /\
     map VocGroup.voc_idxs [Sample.intro_group] = X ++ (u ++ [0] ++ [1] ++ w) :: Y) /\
  (split_groups [Sample.whole_group] (3 # 1)
   = Ok [Sample.intro_group; Sample.song_group] /\
   exists F1 X u w Y F2,
     List.concat F1 = [] /\ List.concat F2 = [] /\
     List.concat X ++ u = [0] /\ w ++ List.concat Y = [3; 4; 5] /\
     map VocGroup.voc_idxs [Sample.intro_group; Sample.song_group] =
       F1 ++ (X ++ (u ++ [1]) :: (2 :: w) :: Y) ++ F2).
Proof.
  split; (split; [reflexivity|]).
  - destruct (proj1 threshold_boundaries [] Sample.first_note Sample.second_note []
                [Sample.intro_group] (true_divide 2 10) [] 100000 300000
                eq_refl eq_refl eq_refl (fun b (H : In b []) => match H with end))
      as (X & u & w & Y & HX & HY & Hjoin & _).
    exists X, u, w, Y. repeat split; auto.
    apply Hjoin. apply Qle_bool_iff. vm_compute. reflexivity.
  - destruct (proj2 threshold_boundaries [] Sample.whole_group [] 
                [Sample.intro_group; Sample.song_group] (3 # 1) [0] 1 2 [3; 4; 5]
                (Sample.voc 300000 400000 "i") (Sample.voc 3400000 3500000 "a")
                eq_refl eq_refl eq_refl eq_refl)
      as (F1 & X & u & w & Y & F2 & H1 & H2 & HX & HY & Hcut & _).
    exists F1, X, u, w, Y, F2. repeat split; auto.
    apply Hcut. apply Qle_bool_iff. vm_compute. reflexivity.
Defined.

(** C3 as stated, the silence being the time between the two, fails where
    [total_seconds] rounds.  Two groups 10^17 + 1 microseconds apart are
    joined at a threshold of 10^11 s, although the time between them is
    above the threshold; two members 10^17 - 1 microseconds apart are cut
    at that threshold, although the time between them is below it.  Both
    times are 10^11 s to [total_seconds]. *)
Lemma threshold_boundaries_exact_silence_fails :
  (VocGroup.init Sample.far_apart [0] = Ok (Sample.group Sample.far_apart [0]) /\
   VocGroup.init Sample.far_apart [1] = Ok (Sample.group Sample.far_apart [1]) /\
   VocGroup.stop (Sample.group Sample.far_apart [0]) = Ok 0 /\
   VocGroup.start (Sample.group Sample.far_apart [1]) = Ok 100000000000000001 /\
   (100000000000 # 1 < exact_seconds (100000000000000001 - 0))%Q /\
   total_seconds (100000000000000001 - 0) = 100000000000 # 1 /\
   anneal_groups [Sample.group Sample.far_apart [0]; Sample.group Sample.far_apart [1]]
                 (100000000000 # 1) []
   = Ok [Sample.group Sample.far_apart [0; 1]]) /\
  (VocGroup.init Sample.nearly_far_apart [0; 1]
   = Ok (Sample.group Sample.nearly_far_apart [0; 1]) /\
   getitem Sample.nearly_far_apart 0 = Ok (Sample.voc 0 0 "a") /\
   getitem Sample.nearly_far_apart 1
   = Ok (Sample.voc 99999999999999999 99999999999999999 "a") /\
   (exact_seconds (99999999999999999 - 0) < 100000000000 # 1)%Q /\
   total_seconds (99999999999999999 - 0) = 100000000000 # 1 /\
   split_groups [Sample.group Sample.nearly_far_apart [0; 1]] (100000000000 # 1)
   = Ok [Sample.group Sample.nearly_far_apart [0];
         Sample.group Sample.nearly_far_apart [1]]).
Proof.
  split; repeat (split; [reflexivity|]); reflexivity.
Qed.

(** ** Splitting, then annealing *)

Lemma mapM_Ok_each {A B} (f : A -> result B) (l : list A) (ys : list B) :
  mapM f l = Ok ys -> forall x, In x l -> exists y, f x = Ok y.
Proof.
  revert ys. induction l as [|a l IH]; simpl; intros ys H x Hx; [contradiction|].
  inv_bind H. destruct Hx as [<-|Hx]; eauto.
Qed.

Lemma mapM_total {A B} (f : A -> result B) (l : list A) :
  (forall x, In x l -> exists y, f x = Ok y) -> exists ys, mapM f l = Ok ys.
Proof.
  induction l as [|a l IH]; simpl; intros H; [eauto|].
  destruct (H a (or_introl eq_refl)) as [y ->].
  destruct IH as [ys ->]; [intros x Hx; apply H; now right|].
  simpl. eauto.
Qed.

Lemma chunks_total {A B} (brk : A -> A -> result bool) (f : A -> list B) (l : list A) :
  forall a,
    (forall x y, In x (a :: l) -> In y (a :: l) -> exists c, brk x y = Ok c) ->
    exists out, chunks brk f a l = Ok out.
Proof.
  induction l as [|b r IH]; intros a H; simpl; [eauto|].
  destruct (H a b) as [c ->]; [now left | right; now left |].
  destruct (IH b) as [rest ->]; [intros x y Hx Hy; apply H; now right|].
  simpl. eauto.
Qed.

Lemma chunks_singleton_nonempty {A} (brk : A -> A -> result bool) (l : list A) :
  forall a out,
    chunks brk (fun x => [x]) a l = Ok out -> Forall (fun c => c <> []) out.
Proof.
  induction l as [|b r IH]; simpl; intros a out H.
  - inv_ok. constructor; [discriminate | constructor].
  - inv_bind H. inv_ok. specialize (IH _ _ E0).
    destruct a0.
    + constructor; [discriminate | assumption].
    + destruct a1 as [|y rest]; simpl.
      * constructor; [discriminate | constructor].
      * inversion IH; subst. constructor; [discriminate | assumption].
Qed.

Lemma mapM_init_concat (vl : list Vocalization.t) (F : list (list Z))
  (frags : list VocGroup.t) :
  mapM (VocGroup.init vl) F = Ok frags ->
  mapM (getitem vl) (List.concat F) =
  Ok (List.concat (map VocGroup.vocalizations frags)).
Proof.
  revert frags. induction F as [|fr F IH]; simpl; intros frags H.
  - inv_ok. reflexivity.
  - inv_bind H. inv_ok. apply init_idxs in E. destruct E as (_ & _ & E).
    rewrite mapM_app, E. simpl. rewrite (IH _ E0). reflexivity.
Qed.

Lemma mapM_init_nonempty (vl : list Vocalization.t) (F : list (list Z))
  (frags : list VocGroup.t) :
  mapM (VocGroup.init vl) F = Ok frags ->
  Forall (fun c => c <> []) F ->
  Forall (fun g => VocGroup.voc_list g = vl /\ VocGroup.vocalizations g <> []) frags.
Proof.
  revert frags. induction F as [|fr F IH]; simpl; intros frags H HF.
  - inv_ok. constructor.
  - inv_bind H. inv_ok. inversion HF; subst.
    apply init_idxs in E. destruct E as (Hvl & _ & E).
    constructor; [|auto]. split; [assumption|].
    apply mapM_length in E. intros Hnil. rewrite Hnil in E.
    destruct fr; [congruence | discriminate].
Qed.

(** Two adjacent groups whose last and first vocalizations are at most [T]
    apart are joined when there is no barrier. *)
Lemma anneal_break_close (T : Q) (g1 g2 : VocGroup.t) (p q : list Vocalization.t)
  (u v : Vocalization.t) :
  VocGroup.vocalizations g1 = p ++ [u] ->
  VocGroup.vocalizations g2 = v :: q ->
  (total_seconds (Vocalization.start v - Vocalization.stop u) <= T)%Q ->
  anneal_break T [] g1 g2 = Ok false.
Proof.
  intros H1 H2 Hle.
  assert (He : VocGroup.stop g1 = Ok (Vocalization.stop u)).
  { unfold VocGroup.stop, VocGroup.last. now rewrite H1, getitem_last. }
  assert (Hs : VocGroup.start g2 = Ok (Vocalization.start v)).
  { unfold VocGroup.start, VocGroup.first. now rewrite H2, getitem_head. }
  rewrite (anneal_break_clear g1 g2 _ _ He Hs T []) by (intros b []).
  f_equal. now apply Qltb_false.
Qed.

Lemma anneal_fragments (T : Q) (vs : list Vocalization.t) (frags : list VocGroup.t) :
  Forall (fun g => VocGroup.vocalizations g <> []) frags ->
  List.concat (map VocGroup.vocalizations frags) = vs ->
  (forall p u v q,
      vs = p ++ u :: v :: q ->
      (total_seconds (Vocalization.start v - Vocalization.stop u) <= T)%Q) ->
  forall pre x y post,
    frags = pre ++ x :: y :: post -> anneal_break T [] x y = Ok false.
Proof.
  intros Hne Hvs Hclose pre x y post ->.
  apply Forall_app in Hne. destruct Hne as [_ Hne].
  inversion Hne as [|? ? Hx Hne']; subst. inversion Hne' as [|? ? Hy _]; subst.
  destruct (exists_last Hx) as (p & u & Hu).
  destruct (VocGroup.vocalizations y) as [|v q] eqn:Hv; [congruence|].
  eapply anneal_break_close; eauto.
  apply (Hclose (List.concat (map VocGroup.vocalizations pre) ++ p) u v
                (q ++ List.concat (map VocGroup.vocalizations post))).
  rewrite map_app, concat_app. simpl. rewrite Hu, Hv.
  rewrite <- !app_assoc. reflexivity.
Qed.

(** C8: splitting one non-empty group and annealing the fragments, without
    barriers and with a threshold that no silence between consecutive
    members of the group exceeds, gives the group back: one group, with
    the index list of the original. *)
Theorem split_then_anneal (vl : list Vocalization.t) (idxs : list Z) (g : VocGroup.t)
  (t T : Q) :
  VocGroup.init vl idxs = Ok g ->
  idxs <> [] ->
  (forall p u v q,
      VocGroup.vocalizations g = p ++ u :: v :: q ->
      (total_seconds (Vocalization.start v - Vocalization.stop u) <= T)%Q) ->
  exists frags g',
    split_groups [g] t = Ok frags /\
    anneal_groups frags T [] = Ok [g'] /\
    VocGroup.voc_idxs g' = VocGroup.voc_idxs g.
Proof.
  intros Hinit Hne Hclose.
  destruct (init_idxs _ _ _ Hinit) as (Hvl & Hidxs & Hvs).
  (* the fragments *)
  assert (Hbrk : forall x y, In x idxs -> In y idxs ->
                             exists c, split_break vl t x y = Ok c).
  { intros x y Hx Hy.
    destruct (mapM_Ok_each _ _ _ Hvs x Hx) as [vx Ex].
    destruct (mapM_Ok_each _ _ _ Hvs y Hy) as [vy Ey].
    rewrite (split_break_gap vl t x y vx vy Ex Ey). eauto. }
  destruct idxs as [|a l]; [congruence|].
  destruct (chunks_total _ (fun i => [i]) l a Hbrk) as [F HF].
  assert (Hfr : fragments g t = Ok F).
  { unfold fragments. now rewrite Hidxs, Hvl. }
  assert (HcF : List.concat F = a :: l).
  { apply fragments_concat in Hfr. now rewrite Hfr. }
  destruct (mapM_total (VocGroup.init vl) F) as [frags Hfrags].
  { intros fr Hfrin. unfold VocGroup.init.
    destruct (mapM_total (getitem vl) fr) as [vs' ->]; [|simpl; eauto].
    intros i Hi. apply (mapM_Ok_each _ _ _ Hvs).
    rewrite <- HcF. apply in_concat. eauto. }
  assert (Hsplit : split_groups [g] t = Ok frags).
  { unfold split_groups, split_idxs. rewrite split_loop_groups. simpl.
    rewrite Hfr. simpl. rewrite app_nil_r, Hvl. exact Hfrags. }
  (* the fragments, annealed *)
  pose proof (chunks_singleton_nonempty _ _ _ _ HF) as HneF.
  pose proof (mapM_init_nonempty _ _ _ Hfrags HneF) as Hgs.
  pose proof (mapM_init_concat _ _ _ Hfrags) as Hcat.
  rewrite HcF, Hvs in Hcat. injection Hcat as Hcat.
  pose proof (mapM_init_idxs _ _ _ Hfrags) as HFi.
  destruct frags as [|g0 rest].
  { destruct F as [|fr F']; [discriminate HcF|].
    simpl in Hfrags. inv_bind Hfrags. discriminate Hfrags. }
  assert (Hann : annealed_idxs (g0 :: rest) T [] = Ok [a :: l]).
  { rewrite annealed_idxs_chunks. simpl chunk_list.
    rewrite chunks_joined.
    - rewrite <- flat_map_concat_map, flat_map_concat_map, HFi, HcF. reflexivity.
    - apply (anneal_fragments T (VocGroup.vocalizations g)); auto.
      eapply Forall_impl; [|exact Hgs]. simpl. tauto. }
  exists (g0 :: rest), g. split; [exact Hsplit|]. split; [|reflexivity].
  unfold anneal_groups. rewrite Hann. simpl.
  inversion Hgs as [|? ? [Hvl0 _] _]; subst.
  rewrite Hvl0, Hinit. reflexivity.
Qed.

Lemma split_then_anneal_witness :
  exists frags g',
    split_groups [Sample.whole_group] SYLLABLE_GROUP_SPLIT = Ok frags /\
    anneal_groups frags (3 # 1) [] = Ok [g'] /\
    VocGroup.voc_idxs g' = VocGroup.voc_idxs Sample.whole_group.
Proof.
  apply (split_then_anneal Sample.timeline [0; 1; 2; 3; 4; 5] Sample.whole_group
                           SYLLABLE_GROUP_SPLIT (3 # 1)).
  - reflexivity.
  - discriminate.
  - intros p u v q H.
    change (VocGroup.vocalizations Sample.whole_group) with Sample.timeline in H.
    unfold Sample.timeline, Sample.voc in H.
    repeat match goal with
           | H : _ :: _ = ?p ++ _ |- _ =>
               destruct p as [|? p]; simpl in H;
               [ inversion H; subst; apply Qle_bool_iff; vm_compute; reflexivity
               | injection H as _ H ]
           end.
    destruct p; discriminate H.
Defined.

(** ** Bouts after [parse_motifs] *)

(** Once [parse_motifs] has run on a bout as [Bout.init] builds it, [last]
    is the last syllable when there are syllables and the last intro note
    otherwise. *)
Lemma bout_last_after_parse_motifs (vl : list Vocalization.t) (ig sg : VocGroup.t)
  (b b' : Bout.t) (seq : list string) (alias_fn : string -> string) :
  List.length (VocGroup.vocalizations sg) = List.length (VocGroup.voc_idxs sg) ->
  Bout.init vl ig sg = Ok b ->
  Bout.parse_motifs b seq alias_fn = Ok b' ->
  Bout.last b' =
  match Bout.syllables b' with
  | [] => getitem (Bout.intro_notes b') (-1)
  | _ :: _ => getitem (Bout.syllables b') (-1)
  end.
Proof.
  intros Hlen Hinit Hparse.
  apply init_bout in Hinit. destruct Hinit as (_ & _ & _ & Hs & Hsi & _ & _).
  unfold Bout.parse_motifs in Hparse. inv_bind Hparse. inv_ok.
  unfold Bout.last, Bout.motifs_truthy. simpl.
  rewrite Hs. rewrite Hsi in E.
  destruct (VocGroup.voc_idxs sg) as [|i r] eqn:Ei.
  - simpl in E. inv_ok.
    destruct (VocGroup.vocalizations sg); [reflexivity | discriminate Hlen].
  - pose proof (define_motifs_idxs _ _ _ _ _ E) as Hm.
    rewrite motif_idxs_chunks in Hm. simpl in Hm.
    apply chunks_nonempty in Hm.
    destruct a as [|m ms]; [now elim Hm|].
    destruct (VocGroup.vocalizations sg); [discriminate Hlen | reflexivity].
Qed.

(** * Further properties of the parse chain *)

(** ** Grouping *)

Lemma target_idxs_bounds (targets : list string) (alias_fn : string -> string)
  (l : list Vocalization.t) :
  forall k i,
    In i (target_idxs targets alias_fn k l) ->
    Z.of_nat k <= i < Z.of_nat (k + List.length l).
Proof.
  induction l as [|v r IH]; simpl; intros k i H; [contradiction|].
  destruct (in_str _ targets).
  - destruct H as [<-|H]; [lia|]. apply IH in H. lia.
  - apply IH in H. lia.
Qed.

Lemma target_idxs_increasing (targets : list string) (alias_fn : string -> string)
  (l : list Vocalization.t) :
  forall k p i j q,
    target_idxs targets alias_fn k l = p ++ i :: j :: q -> i < j.
Proof.
  induction l as [|v r IH]; simpl; intros k p i j q H.
  - destruct p; discriminate.
  - destruct (in_str _ targets); [|eauto].
    destruct p as [|x p]; simpl in H.
    + injection H as <- H.
      assert (Hj : In j (target_idxs targets alias_fn (S k) r))
        by (rewrite H; now left).
      apply target_idxs_bounds in Hj. lia.
    + injection H as _ H. eauto.
Qed.

Section Grouping.

Variable targets : list string.
Variable alias_fn : string -> string.

(** The loop of [group_elements], once a group is open: [j] is the last
    index put in a group, and [last_in_target] tells whether it is the
    index just before [k]. *)
Lemma group_loop_open (l : list Vocalization.t) :
  forall k P u j last_in_target,
    (last_in_target = true -> j = Z.of_nat k - 1) ->
    (last_in_target = false -> j < Z.of_nat k - 1) ->
    exists rest flag,
      chunks gap_break (fun i => [i]) j (target_idxs targets alias_fn k l) = Ok rest /\
      foldM (group_step targets alias_fn) (combine (seq k (List.length l)) l)
            (P ++ [u ++ [j]], last_in_target) = Ok (P ++ glue u rest, flag).
Proof.
  induction l as [|v r IH]; intros k P u j lit Ht Hf.
  - simpl. eauto.
  - cbn [List.length seq combine foldM target_idxs]. unfold group_step at 1.
    destruct (in_str (alias_fn (Vocalization.name v)) targets).
    + destruct lit; cbn [negb].
      * rewrite extend_last_snoc. cbn [bind].
        destruct (IH (S k) P (u ++ [j]) (Z.of_nat k) true) as (rest & flag & Hc & Hl);
          [lia | discriminate |].
        rewrite Hl. cbn [chunks]. unfold gap_break at 1.
        replace (Z.of_nat k =? j + 1) with true
          by (symmetry; apply Z.eqb_eq; specialize (Ht eq_refl); lia).
        cbn [negb bind]. rewrite Hc. cbn [bind].
        exists (glue [j] rest), flag. split; [reflexivity|].
        rewrite glue_glue by (eapply chunks_nonempty; eauto). reflexivity.
      * rewrite <- app_assoc.
        change ([u ++ [j]] ++ [[]]) with ([u ++ [j]] ++ [[] ++ []]).
        rewrite app_assoc, extend_last_snoc. cbn [bind app].
        destruct (IH (S k) (P ++ [u ++ [j]]) [] (Z.of_nat k) true)
          as (rest & flag & Hc & Hl); [lia | discriminate |].
        cbn [app] in Hl. rewrite Hl. cbn [chunks]. unfold gap_break at 1.
        replace (Z.of_nat k =? j + 1) with false
          by (symmetry; apply Z.eqb_neq; specialize (Hf eq_refl); lia).
        cbn [negb bind]. rewrite Hc. cbn [bind].
        exists ([j] :: rest), flag. split; [reflexivity|].
        rewrite glue_nil by (eapply chunks_nonempty; eauto).
        rewrite <- app_assoc. reflexivity.
    + cbn [bind].
      destruct (IH (S k) P u j false) as (rest & flag & Hc & Hl);
        [discriminate | intros _; destruct lit; [rewrite Ht by reflexivity|specialize (Hf eq_refl)]; lia |].
      eauto.
Qed.

(** The loop of [group_elements] from its start. *)
Lemma group_loop_closed (l : list Vocalization.t) :
  forall k,
    exists out flag,
      chunk_list gap_break (fun i => [i]) (target_idxs targets alias_fn k l) = Ok out /\
      foldM (group_step targets alias_fn) (combine (seq k (List.length l)) l)
            ([], false) = Ok (out, flag).
Proof.
  induction l as [|v r IH]; intros k.
  - simpl. eauto.
  - cbn [List.length seq combine foldM target_idxs]. unfold group_step at 1.
    destruct (in_str (alias_fn (Vocalization.name v)) targets).
    + cbn [negb app extend_last bind].
      destruct (group_loop_open r (S k) [] [] (Z.of_nat k) true)
        as (rest & flag & Hc & Hl); [lia | discriminate |].
      cbn [app] in Hl. rewrite Hl. cbn [chunk_list]. rewrite Hc.
      rewrite glue_nil by (eapply chunks_nonempty; eauto). eauto.
    + cbn [bind]. apply IH.
Qed.

End Grouping.

Lemma getitem_in_range {A} (l : list A) (i : Z) :
  0 <= i < Z.of_nat (List.length l) -> exists x, getitem l i = Ok x.
Proof.
  intros H. unfold getitem.
  replace (i <? 0) with false by (symmetry; apply Z.ltb_ge; lia).
  replace (0 <=? i) with true by (symmetry; apply Z.leb_le; lia).
  replace (i <? Z.of_nat (List.length l)) with true by (symmetry; apply Z.ltb_lt; lia).
  simpl. destruct (nth_error l (Z.to_nat i)) eqn:E; [eauto|].
  apply nth_error_None in E. lia.
Qed.

Lemma init_total (vl : list Vocalization.t) (idxs : list Z) :
  (forall i, In i idxs -> exists v, getitem vl i = Ok v) ->
  exists g, VocGroup.init vl idxs = Ok g.
Proof.
  intros H. unfold VocGroup.init.
  destruct (mapM_total (getitem vl) idxs H) as [vs ->]. simpl. eauto.
Qed.

(** What [group_elements] returns: the index lists are the target indexes
    of the timeline, cut wherever two of them are not neighbours. *)
Lemma group_elements_chunks (voc_list : list Vocalization.t) (targets : list string)
  (alias_fn : string -> string) :
  exists gs,
    group_elements voc_list targets alias_fn = Ok gs /\
    chunk_list gap_break (fun i => [i]) (target_idxs targets alias_fn 0 voc_list)
    = Ok (map VocGroup.voc_idxs gs).
Proof.
  unfold group_elements, enumerate.
  destruct (group_loop_closed targets alias_fn voc_list 0%nat) as (out & flag & Hc & Hl).
  rewrite Hl. cbn [bind fst].
  destruct (mapM_total (VocGroup.init voc_list) out) as [gs Hgs].
  { intros idxs Hin. apply init_total. intros i Hi.
    apply getitem_in_range.
    apply chunk_list_concat in Hc. rewrite concat_map_singleton in Hc.
    assert (Hi' : In i (target_idxs targets alias_fn 0 voc_list)).
    { rewrite <- Hc. apply in_concat. eauto. }
    apply target_idxs_bounds in Hi'. simpl in Hi'. lia. }
  exists gs. split; [assumption|].
  now rewrite (mapM_init_idxs _ _ _ Hgs).
Qed.

(** X1: [group_elements] never raises, and the indexes of the groups it
    returns, read in order, are exactly the indexes of the vocalizations
    whose aliased name is a target, in increasing order. *)
Theorem group_elements_complete (voc_list : list Vocalization.t) (targets : list string)
  (alias_fn : string -> string) :
  exists gs,
    group_elements voc_list targets alias_fn = Ok gs /\
    flat_map VocGroup.voc_idxs gs = target_idxs targets alias_fn 0 voc_list /\
    (forall p i j q, flat_map VocGroup.voc_idxs gs = p ++ i :: j :: q -> i < j) /\
    (forall i, In i (flat_map VocGroup.voc_idxs gs) <->
               exists v, 0 <= i /\ getitem voc_list i = Ok v /\
                         in_str (alias_fn (Vocalization.name v)) targets = true).
Proof.
  destruct (group_elements_chunks voc_list targets alias_fn) as (gs & Hg & Hc).
  exists gs. split; [assumption|].
  apply chunk_list_concat in Hc. rewrite concat_map_singleton in Hc.
  rewrite flat_map_concat_map, Hc.
  split; [reflexivity|]. split; [apply target_idxs_increasing|].
  clear. intros i.
  assert (Hgen : forall l k,
             In i (target_idxs targets alias_fn k l) <->
             exists v, Z.of_nat k <= i /\ nth_error l (Z.to_nat i - k) = Some v /\
                       in_str (alias_fn (Vocalization.name v)) targets = true).
  { induction l as [|v r IH]; intros k; simpl.
    - split; [contradiction|]. intros (v & _ & H & _). destruct (_ - _)%nat; discriminate.
    - destruct (in_str (alias_fn (Vocalization.name v)) targets) eqn:E.
      + split.
        * intros [<-|H].
          -- exists v. rewrite Nat2Z.id, Nat.sub_diag. auto with zarith.
          -- apply IH in H. destruct H as (w & Hk & Hn & Hw). exists w.
             replace (Z.to_nat i - k)%nat with (S (Z.to_nat i - S k)) by lia.
             simpl. split; [lia | auto].
        * intros (w & Hk & Hn & Hw).
          destruct (Z.to_nat i - k)%nat as [|m] eqn:Em.
          -- left. lia.
          -- right. apply IH. exists w. simpl in Hn.
             replace (Z.to_nat i - S k)%nat with m by lia. split; [lia | auto].
      + rewrite IH. split.
        * intros (w & Hk & Hn & Hw). exists w.
          replace (Z.to_nat i - k)%nat with (S (Z.to_nat i - S k)) by lia.
          simpl. split; [lia | auto].
        * intros (w & Hk & Hn & Hw).
          destruct (Z.to_nat i - k)%nat as [|m] eqn:Em.
          -- simpl in Hn. injection Hn as ->. congruence.
          -- exists w. simpl in Hn.
             replace (Z.to_nat i - S k)%nat with m by lia. split; [lia | auto]. }
  rewrite Hgen. simpl. rewrite Nat.sub_0_r.
  split; intros (v & Hi & Hn & Hv); exists v; (split; [lia|]); split; auto.
  - unfold getitem.
    assert (Hlt : (Z.to_nat i < List.length voc_list)%nat)
      by (apply nth_error_Some; congruence).
    replace (i <? 0) with false by (symmetry; apply Z.ltb_ge; lia).
    replace (0 <=? i) with true by (symmetry; apply Z.leb_le; lia).
    replace (i <? Z.of_nat (List.length voc_list)) with true
      by (symmetry; apply Z.ltb_lt; lia).
    simpl. now rewrite Hn.
  - unfold getitem in Hn.
    replace (i <? 0) with false in Hn by (symmetry; apply Z.ltb_ge; lia).
    destruct (_ && _); [|discriminate].
    destruct (nth_error voc_list (Z.to_nat i)); congruence.
Qed.

(** X2: the groups of [group_elements] are the maximal runs of targets: no
    group is empty, inside a group each index is the one after the previous
    index, and between the last index of a group and the first index of the
    next group at least one timeline index is skipped. *)
Theorem group_elements_runs (voc_list : list Vocalization.t) (targets : list string)
  (alias_fn : string -> string) (gs : list VocGroup.t) :
  group_elements voc_list targets alias_fn = Ok gs ->
  Forall (fun g => VocGroup.voc_idxs g <> []) gs /\
  (forall P u i j w S,
      map VocGroup.voc_idxs gs = P ++ (u ++ i :: j :: w) :: S -> j = i + 1) /\
  (forall P u i j w S,
      map VocGroup.voc_idxs gs = P ++ (u ++ [i]) :: (j :: w) :: S -> i + 1 < j).
Proof.
  intros H.
  destruct (group_elements_chunks voc_list targets alias_fn) as (gs' & Hg & Hc).
  rewrite H in Hg. injection Hg as <-.
  pose proof (chunk_list_concat _ _ _ _ Hc) as Hcat.
  rewrite concat_map_singleton in Hcat.
  destruct (target_idxs targets alias_fn 0 voc_list) as [|a l] eqn:Et.
  - simpl in Hc. injection Hc as Hc. destruct gs; [|discriminate].
    split; [constructor|].
    split; intros P u i j w S E; destruct P; discriminate.
  - simpl in Hc.
    pose proof (chunks_singleton_nonempty _ _ _ _ Hc) as Hne.
    destruct (chunks_singleton_sound _ _ _ _ Hc) as [Hin Hout].
    split; [|split].
    + rewrite Forall_forall in *. intros g Hg. apply Hne.
      apply in_map. exact Hg.
    + intros P u i j w S E. apply Hin in E. unfold gap_break in E.
      injection E as E. apply negb_false_iff, Z.eqb_eq in E. exact E.
    + intros P u i j w S E.
      assert (Hlt : i < j).
      { apply (target_idxs_increasing targets alias_fn voc_list 0
                 (List.concat P ++ u) i j (w ++ List.concat S)).
        rewrite Et, <- Hcat, E, concat_app. simpl.
        rewrite <- !app_assoc. reflexivity. }
      apply Hout in E. unfold gap_break in E.
      injection E as E. apply negb_true_iff, Z.eqb_neq in E. lia.
Qed.

Lemma group_elements_runs_witness :
  group_elements Sample.mixed ["i"; "a"]%string (fun x => x)
  = Ok [Sample.group Sample.mixed [0]; Sample.group Sample.mixed [2]] /\
  Forall (fun g => VocGroup.voc_idxs g <> [])
         [Sample.group Sample.mixed [0]; Sample.group Sample.mixed [2]] /\
  (forall P u i j w S,
      [[0]; [2]] = P ++ (u ++ i :: j :: w) :: S -> j = i + 1) /\
  (forall P u i j w S,
      [[0]; [2]] = P ++ (u ++ [i]) :: (j :: w) :: S -> i + 1 < j).
Proof.
  split; [reflexivity|].
  apply (group_elements_runs Sample.mixed ["i"; "a"]%string (fun x => x)
           [Sample.group Sample.mixed [0]; Sample.group Sample.mixed [2]]).
  reflexivity.
Defined.

(** ** What annealing and splitting keep *)

(** X3: [anneal_groups] only moves the boundaries between groups: the
    indexes of its output, read in order, are those of its input. *)
Theorem anneal_groups_keeps_indexes (groups out : list VocGroup.t) (t : Q)
  (breaks : list Z) :
  anneal_groups groups t breaks = Ok out ->
  flat_map VocGroup.voc_idxs out = flat_map VocGroup.voc_idxs groups /\
  (List.length out <= List.length groups)%nat /\
  (groups <> [] -> out <> []).
Proof.
  intros H. apply anneal_groups_idxs in H. rewrite annealed_idxs_chunks in H.
  split; [|split].
  - apply chunk_list_concat in H. now rewrite !flat_map_concat_map.
  - rewrite <- (length_map VocGroup.voc_idxs out).
    revert H. generalize (map VocGroup.voc_idxs out) as o. clear out.
    destruct groups as [|g rest]; simpl; intros o H.
    + inv_ok. simpl. lia.
    + revert g o H. induction rest as [|g' rest IH]; simpl; intros g o H.
      * inv_ok. simpl. lia.
      * inv_bind H. inv_ok. apply IH in E0.
        destruct a; [simpl; lia|].
        destruct a0; simpl in *; lia.
  - intros Hne. destruct groups as [|g rest]; [congruence|]. simpl in H.
    apply chunks_nonempty in H. destruct out; [now elim H | discriminate].
Qed.

Lemma anneal_groups_keeps_indexes_witness :
  flat_map VocGroup.voc_idxs [Sample.intro_group] =
  flat_map VocGroup.voc_idxs [Sample.first_note; Sample.second_note] /\
  (List.length [Sample.intro_group]
   <= List.length [Sample.first_note; Sample.second_note])%nat /\
  ([Sample.first_note; Sample.second_note] <> [] -> [Sample.intro_group] <> []).
Proof.
  apply (anneal_groups_keeps_indexes [Sample.first_note; Sample.second_note]
           [Sample.intro_group] (true_divide 2 10) []).
  reflexivity.
Defined.

(** X4: [split_groups] only adds boundaries: the indexes of its output,
    read in order, are those of its input, and it returns at least as many
    groups as it is given. *)
Theorem split_groups_keeps_indexes (groups out : list VocGroup.t) (t : Q) :
  split_groups groups t = Ok out ->
  flat_map VocGroup.voc_idxs out = flat_map VocGroup.voc_idxs groups /\
  (List.length groups <= List.length out)%nat.
Proof.
  intros H. apply split_groups_idxs in H. destruct H as (fs & Hfs & Hout).
  split.
  - rewrite flat_map_concat_map, Hout. eapply fragments_all_concat; eauto.
  - rewrite <- (length_map VocGroup.voc_idxs out), Hout. clear Hout.
    revert fs Hfs. induction groups as [|g groups IH]; simpl; intros fs Hfs.
    + lia.
    + inv_bind Hfs. inv_ok. simpl. rewrite length_app.
      specialize (IH _ E0).
      assert (a <> []).
      { unfold fragments in E. destruct (VocGroup.voc_idxs g).
        - inv_ok. discriminate.
        - eapply chunks_nonempty; eauto. }
      destruct a; [congruence | simpl; lia].
Qed.

Lemma split_groups_keeps_indexes_witness :
  flat_map VocGroup.voc_idxs [Sample.intro_group; Sample.song_group] =
  flat_map VocGroup.voc_idxs [Sample.whole_group] /\
  (List.length [Sample.whole_group]
   <= List.length [Sample.intro_group; Sample.song_group])%nat.
Proof.
  apply (split_groups_keeps_indexes [Sample.whole_group]
           [Sample.intro_group; Sample.song_group] (3 # 1)).
  reflexivity.
Defined.

Lemma split_break_Ok (vl : list Vocalization.t) (t : Q) (cn nn : Z) (b : bool) :
  split_break vl t cn nn = Ok b ->
  exists c n,
    getitem vl cn = Ok c /\ getitem vl nn = Ok n /\
    b = Qleb t (total_seconds (Vocalization.start n - Vocalization.stop c)).
Proof.
  unfold split_break. intros H. inv_bind H. inv_ok.
  exists a, a0. repeat split; auto.
  unfold delta_t in E1. simpl in E1. now inv_ok.
Qed.

(** X5: what [split_groups] leaves.  The output is, group after group, the
    fragments of each input group.  The silence between two members is the
    number that [delta_t] returns for them, [total_seconds] of the time
    from the stop of the first to the start of the second (the float
    nearest to the seconds).  Inside a fragment the silence between two
    consecutive members is below the threshold; between the last member of
    a fragment and the first member of the next fragment of the same group
    it is at least the threshold. *)
Theorem split_groups_fragments (groups out : list VocGroup.t) (t : Q) :
  split_groups groups t = Ok out ->
  exists fs,
    map VocGroup.voc_idxs out = List.concat fs /\
    Forall2
      (fun g F =>
         List.concat F = VocGroup.voc_idxs g /\
         (forall P u cn nn w S,
             F = P ++ (u ++ cn :: nn :: w) :: S ->
             exists c n,
               getitem (VocGroup.voc_list g) cn = Ok c /\
               getitem (VocGroup.voc_list g) nn = Ok n /\
               (total_seconds (Vocalization.start n - Vocalization.stop c) < t)%Q) /\
         (forall P u cn nn w S,
             F = P ++ (u ++ [cn]) :: (nn :: w) :: S ->
             exists c n,
               getitem (VocGroup.voc_list g) cn = Ok c /\
               getitem (VocGroup.voc_list g) nn = Ok n /\
               (t <= total_seconds (Vocalization.start n - Vocalization.stop c))%Q))
      groups fs.
Proof.
  intros H. apply split_groups_idxs in H. destruct H as (fs & Hfs & Hout).
  exists fs. split; [assumption|].
  apply mapM_Forall2 in Hfs.
  eapply Forall2_impl; [|exact Hfs]. simpl.
  intros g F HF. split; [eapply fragments_concat; eauto|].
  unfold fragments in HF. destruct (VocGroup.voc_idxs g) as [|a l].
  - inv_ok. split; intros P u cn nn w S E.
    + destruct P as [|? [|? ?]]; try discriminate.
      injection E as E. destruct u as [|? [|? ?]]; discriminate.
    + destruct P as [|? [|? ?]]; discriminate.
  - destruct (chunks_singleton_sound _ _ _ _ HF) as [Hin Hcut].
    split; intros P u cn nn w S E.
    + apply Hin in E. apply split_break_Ok in E.
      destruct E as (c & n & Hc & Hn & Hb). exists c, n. repeat split; auto.
      apply Qleb_false. now symmetry.
    + apply Hcut in E. apply split_break_Ok in E.
      destruct E as (c & n & Hc & Hn & Hb). exists c, n. repeat split; auto.
      apply Qleb_true. now symmetry.
Qed.

Lemma split_groups_fragments_witness :
  exists fs,
    map VocGroup.voc_idxs [Sample.intro_group; Sample.song_group] = List.concat fs /\
    Forall2
      (fun g F =>
         List.concat F = VocGroup.voc_idxs g /\
         (forall P u cn nn w S,
             F = P ++ (u ++ cn :: nn :: w) :: S ->
             exists c n,
               getitem (VocGroup.voc_list g) cn = Ok c /\
               getitem (VocGroup.voc_list g) nn = Ok n /\
               (total_seconds (Vocalization.start n - Vocalization.stop c) < 3 # 1)%Q) /\
         (forall P u cn nn w S,
             F = P ++ (u ++ [cn]) :: (nn :: w) :: S ->
             exists c n,
               getitem (VocGroup.voc_list g) cn = Ok c /\
               getitem (VocGroup.voc_list g) nn = Ok n /\
               (3 # 1 <= total_seconds (Vocalization.start n - Vocalization.stop c))%Q))
      [Sample.whole_group] fs.
Proof.
  apply (split_groups_fragments [Sample.whole_group]
           [Sample.intro_group; Sample.song_group] (3 # 1)).
  reflexivity.
Defined.

Lemma mapM_adjacent {A B} (f : A -> result B) (pre : list A) (x y : A) (post : list A)
  (ys : list B) :
  mapM f (pre ++ x :: y :: post) = Ok ys ->
  exists p u v q, ys = p ++ u :: v :: q /\ f x = Ok u /\ f y = Ok v.
Proof.
  rewrite mapM_app. simpl. intros H. inv_binds.
  eexists _, _, _, _. split; [reflexivity|]. auto.
Qed.

(** X6: [split_groups] returns its input when no group has a long silence:
    for groups built on one timeline in which the silence between
    consecutive members, as [total_seconds] gives it (the float nearest to
    the seconds), is below the threshold, the output is the input. *)
Theorem split_groups_no_long_gap (vl : list Vocalization.t) (groups : list VocGroup.t)
  (t : Q) :
  Forall (fun g => VocGroup.init vl (VocGroup.voc_idxs g) = Ok g) groups ->
  (forall g p u v q,
      In g groups -> VocGroup.vocalizations g = p ++ u :: v :: q ->
      (total_seconds (Vocalization.start v - Vocalization.stop u) < t)%Q) ->
  split_groups groups t = Ok groups.
Proof.
  intros Hwf Hgap.
  assert (Hfr : forall g, In g groups -> fragments g t = Ok [VocGroup.voc_idxs g]).
  { intros g Hg. rewrite Forall_forall in Hwf.
    destruct (init_idxs _ _ _ (Hwf g Hg)) as (Hvl & _ & Hvs).
    unfold fragments. destruct (VocGroup.voc_idxs g) as [|a l] eqn:E; [reflexivity|].
    rewrite chunks_joined.
    - now rewrite concat_map_singleton.
    - intros pre x y post Hxy. rewrite Hxy in Hvs.
      apply mapM_adjacent in Hvs. destruct Hvs as (p & u & v & q & Hv & Hx & Hy).
      rewrite Hvl, (split_break_gap vl t x y u v Hx Hy). f_equal.
      apply Qleb_false. eapply Hgap; eauto. }
  assert (Hall : forall gs, (forall g, In g gs -> In g groups) ->
                            mapM (fun g => fragments g t) gs
                            = Ok (map (fun g => [VocGroup.voc_idxs g]) gs)).
  { induction gs as [|g gs IH]; simpl; intros Hsub; [reflexivity|].
    rewrite Hfr by (apply Hsub; now left). simpl.
    rewrite IH by (intros g' Hg'; apply Hsub; now right). reflexivity. }
  destruct groups as [|g0 rest] eqn:Eg; [reflexivity|]. rewrite <- Eg in *.
  assert (Hvl0 : VocGroup.voc_list g0 = vl).
  { rewrite Forall_forall in Hwf.
    apply (init_idxs vl (VocGroup.voc_idxs g0) g0). apply Hwf. rewrite Eg. now left. }
  unfold split_groups, split_idxs. rewrite Eg at 1. rewrite split_loop_groups.
  rewrite Hall by auto. cbn [bind app]. rewrite Hvl0.
  clear Hall Hfr Hgap Eg Hvl0. induction Hwf as [|g gs Hg _ IH]; [reflexivity|].
  simpl. rewrite Hg. simpl.
  simpl in IH. rewrite IH. reflexivity.
Qed.

Lemma split_groups_no_long_gap_witness :
  split_groups [Sample.intro_group; Sample.song_group] SYLLABLE_GROUP_SPLIT
  = Ok [Sample.intro_group; Sample.song_group].
Proof.
  apply (split_groups_no_long_gap Sample.timeline).
  - repeat constructor.
  - intros g p u v q [<-|[<-|[]]] H.
    + change (VocGroup.vocalizations Sample.intro_group)
        with (firstn 2 Sample.timeline) in H.
      unfold Sample.timeline, Sample.voc in H. simpl in H.
      repeat match goal with
             | H : _ :: _ = ?p ++ _ |- _ =>
                 destruct p as [|? p]; simpl in H;
                 [ inversion H; subst; apply Qltb_true; vm_compute; reflexivity
                 | injection H as _ H ]
             end.
      destruct p; discriminate H.
    + change (VocGroup.vocalizations Sample.song_group)
        with (skipn 2 Sample.timeline) in H.
      unfold Sample.timeline, Sample.voc in H. simpl in H.
      repeat match goal with
             | H : _ :: _ = ?p ++ _ |- _ =>
                 destruct p as [|? p]; simpl in H;
                 [ inversion H; subst; apply Qltb_true; vm_compute; reflexivity
                 | injection H as _ H ]
             end.
      destruct p; discriminate H.
Defined.

(** ** The runs of groups that annealing joins *)

(** Cutting with contributions [f] is cutting into runs of items and
    concatenating the contributions of each run. *)
Lemma chunks_runs {A B} (brk : A -> A -> result bool) (f : A -> list B) (l : list A) :
  forall a,
    chunks brk f a l =
    (runs <- chunks brk (fun x => [x]) a l ;; Ok (map (flat_map f) runs)).
Proof.
  induction l as [|b r IH]; intros a; simpl.
  - now rewrite app_nil_r.
  - destruct (brk a b) as [c|e]; simpl; [|reflexivity].
    rewrite IH.
    destruct (chunks brk (fun x => [x]) b r) as [runs|e] eqn:E; simpl; [|reflexivity].
    destruct c; simpl.
    + now rewrite app_nil_r.
    + destruct runs as [|y runs]; simpl; [now rewrite app_nil_r | reflexivity].
Qed.

Lemma filterM_all_false {A} (p : A -> result bool) (l hits : list A) :
  (forall x c, p x = Ok c -> c = false) -> filterM p l = Ok hits -> hits = [].
Proof.
  intros Hp. revert hits. induction l as [|x l IH]; simpl; intros hits H.
  - now inv_ok.
  - inv_bind H. inv_ok. rewrite (Hp _ _ E), (IH _ E0). reflexivity.
Qed.

(** When the test of [anneal_groups] on a pair returns, the stop of the
    first group and the start of the second are defined, and the test is:
    a barrier between them, or a silence above the threshold. *)
Lemma anneal_break_Ok (t : Q) (breaks : list Z) (cg ng : VocGroup.t) (c : bool) :
  anneal_break t breaks cg ng = Ok c ->
  exists e s,
    VocGroup.stop cg = Ok e /\ VocGroup.start ng = Ok s /\
    c = existsb (fun b => (e <=? b) && (b <=? s)) breaks
        || Qltb t (total_seconds (s - e)).
Proof.
  intros H.
  destruct (VocGroup.stop cg) as [e|x] eqn:He.
  - destruct (VocGroup.start ng) as [s|x] eqn:Hs.
    + exists e, s. repeat split.
      unfold anneal_break in H.
      rewrite (song_between_filter cg ng e s He Hs) in H. cbn [bind] in H.
      rewrite (delta_t_groups cg ng e s He Hs) in H. cbn [bind] in H.
      induction breaks as [|b breaks IH]; simpl in *.
      * now inv_ok.
      * destruct ((e <=? b) && (b <=? s)); simpl in *; [now inv_ok | auto].
    + exfalso. unfold anneal_break in H. inv_bind H.
      unfold song_between in E. inv_bind E. inv_ok.
      assert (a0 = []).
      { eapply filterM_all_false; [|exact E0]. simpl. intros b c0 Hb.
        rewrite He in Hb. simpl in Hb.
        destruct (e <=? b); [rewrite Hs in Hb; discriminate | now inv_ok]. }
      subst a0. simpl in H. unfold delta_t in H. simpl in H.
      rewrite Hs in H. discriminate.
  - exfalso. unfold anneal_break in H. inv_bind H.
    unfold song_between in E. inv_bind E. inv_ok.
    destruct breaks as [|b breaks].
    + simpl in E0. inv_ok. simpl in H. unfold delta_t in H. simpl in H.
      rewrite He in H. destruct (VocGroup.start ng); discriminate.
    + simpl in E0. rewrite He in E0. discriminate.
Qed.

(** X7: what [anneal_groups] joins.  The input groups fall into consecutive
    runs, each output group holding the indexes of one run.  The silence
    between two groups is the number that [delta_t] returns for them,
    [total_seconds] of the time from the stop of the first to the start of
    the second (the float nearest to the seconds).  Two adjacent groups of
    a run have no barrier between them and a silence of at most the
    threshold, and where a run ends the next group is held apart by a
    barrier or by a silence above the threshold. *)
Theorem anneal_groups_runs (groups out : list VocGroup.t) (t : Q) (breaks : list Z) :
  anneal_groups groups t breaks = Ok out ->
  exists runs,
    List.concat runs = groups /\
    Forall (fun r => r <> []) runs /\
    map VocGroup.voc_idxs out = map (flat_map VocGroup.voc_idxs) runs /\
    (forall P u cg ng w S,
        runs = P ++ (u ++ cg :: ng :: w) :: S ->
        exists e s,
          VocGroup.stop cg = Ok e /\ VocGroup.start ng = Ok s /\
          (forall b, In b breaks -> ~ (e <= b <= s)) /\
          (total_seconds (s - e) <= t)%Q) /\
    (forall P u cg ng w S,
        runs = P ++ (u ++ [cg]) :: (ng :: w) :: S ->
        exists e s,
          VocGroup.stop cg = Ok e /\ VocGroup.start ng = Ok s /\
          ((exists b, In b breaks /\ e <= b <= s) \/
           (t < total_seconds (s - e))%Q)).
Proof.
  intros H. apply anneal_groups_idxs in H. rewrite annealed_idxs_chunks in H.
  destruct groups as [|g0 rest].
  - simpl in H. injection H as H. exists []. repeat split; auto.
    + intros P u cg ng w S E. destruct P; discriminate.
    + intros P u cg ng w S E. destruct P; discriminate.
  - simpl in H. rewrite chunks_runs in H. inv_bind H. injection H as H.
    rename a into runs. exists runs.
    pose proof (chunk_list_concat _ _ (g0 :: rest) _ E) as Hcat.
    rewrite concat_map_singleton in Hcat.
    destruct (chunks_singleton_sound _ _ _ _ E) as [Hin Hcut].
    split; [assumption|]. split; [eapply chunks_singleton_nonempty; eauto|].
    split; [now symmetry|]. split.
    + intros P u cg ng w S Eq. apply Hin in Eq. apply anneal_break_Ok in Eq.
      destruct Eq as (e & s & He & Hs & Hc). exists e, s.
      symmetry in Hc. apply orb_false_iff in Hc. destruct Hc as [Hb Hq].
      repeat split; auto.
      * intros b Hbin [Hb1 Hb2].
        assert (Hex : existsb (fun b => (e <=? b) && (b <=? s)) breaks = true).
        { apply existsb_exists. exists b. split; [assumption|].
          apply andb_true_iff. split; apply Z.leb_le; assumption. }
        congruence.
      * now apply Qltb_false.
    + intros P u cg ng w S Eq. apply Hcut in Eq. apply anneal_break_Ok in Eq.
      destruct Eq as (e & s & He & Hs & Hc). exists e, s.
      repeat split; auto.
      symmetry in Hc. apply orb_true_iff in Hc. destruct Hc as [Hb|Hq].
      * left. apply existsb_exists in Hb. destruct Hb as (b & Hbin & Hb).
        apply andb_true_iff in Hb. destruct Hb as [Hb1 Hb2].
        apply Z.leb_le in Hb1, Hb2. eauto.
      * right. now apply Qltb_true.
Qed.

Lemma anneal_groups_runs_witness :
  exists runs,
    List.concat runs = [Sample.first_note; Sample.second_note; Sample.song_group] /\
    Forall (fun r => r <> []) runs /\
    map VocGroup.voc_idxs [Sample.intro_group; Sample.song_group]
    = map (flat_map VocGroup.voc_idxs) runs /\
    (forall P u cg ng w S,
        runs = P ++ (u ++ cg :: ng :: w) :: S ->
        exists e s,
          VocGroup.stop cg = Ok e /\ VocGroup.start ng = Ok s /\
          (forall b, In b [] -> ~ (e <= b <= s)) /\
          (total_seconds (s - e) <= 5 # 10)%Q) /\
    (forall P u cg ng w S,
        runs = P ++ (u ++ [cg]) :: (ng :: w) :: S ->
        exists e s,
          VocGroup.stop cg = Ok e /\ VocGroup.start ng = Ok s /\
          ((exists b, In b [] /\ e <= b <= s) \/
           (5 # 10 < total_seconds (s - e))%Q)).
Proof.
  apply (anneal_groups_runs
           [Sample.first_note; Sample.second_note; Sample.song_group]
           [Sample.intro_group; Sample.song_group] (5 # 10) []).
  reflexivity.
Defined.

(** ** Motifs: what the segmentation keeps and when it fails *)

Lemma mapM_init_voc_list (vl : list Vocalization.t) (ls : list (list Z))
  (gs : list VocGroup.t) :
  mapM (VocGroup.init vl) ls = Ok gs -> Forall (fun g => VocGroup.voc_list g = vl) gs.
Proof.
  revert gs. induction ls as [|l ls IH]; simpl; intros gs H.
  - inv_ok. constructor.
  - inv_bind H. inv_ok. constructor; [|auto]. now apply init_idxs in E.
Qed.

(** X8: the motifs of [define_motifs] are the syllables, cut: no motif is
    empty, their indexes read in order are the syllable indexes given,
    inside a motif the position in the song sequence never goes down from
    one syllable to the next, and it goes down from the last syllable of a
    motif to the first syllable of the next motif. *)
Theorem define_motifs_partition (vl : list Vocalization.t) (idxs : list Z)
  (seq : list string) (alias_fn : string -> string) (ms : list VocGroup.t) :
  define_motifs vl idxs seq alias_fn = Ok ms ->
  flat_map VocGroup.voc_idxs ms = idxs /\
  Forall (fun m => VocGroup.voc_idxs m <> [] /\ VocGroup.voc_list m = vl) ms /\
  (forall P u j i w S,
      map VocGroup.voc_idxs ms = P ++ (u ++ j :: i :: w) :: S ->
      exists pj pi,
        template_position vl seq alias_fn j = Ok pj /\
        template_position vl seq alias_fn i = Ok pi /\ pj <= pi) /\
  (forall P u j i w S,
      map VocGroup.voc_idxs ms = P ++ (u ++ [j]) :: (i :: w) :: S ->
      exists pj pi,
        template_position vl seq alias_fn j = Ok pj /\
        template_position vl seq alias_fn i = Ok pi /\ pi < pj).
Proof.
  intros H.
  assert (Hvl : Forall (fun m => VocGroup.voc_list m = vl) ms).
  { destruct idxs; simpl in H; [inv_ok; constructor|].
    inv_bind H. eapply mapM_init_voc_list; eauto. }
  apply define_motifs_idxs in H. rewrite motif_idxs_chunks in H.
  pose proof (chunk_list_concat _ _ _ _ H) as Hcat.
  rewrite concat_map_singleton in Hcat.
  split; [now rewrite flat_map_concat_map|].
  destruct idxs as [|a l].
  - simpl in H. injection H as H. destruct ms; [|discriminate].
    split; [constructor|].
    split; intros P u j i w S E; destruct P; discriminate.
  - simpl in H.
    pose proof (chunks_singleton_nonempty _ _ _ _ H) as Hne.
    destruct (chunks_singleton_sound _ _ _ _ H) as [Hin Hcut].
    split; [|split].
    + rewrite Forall_forall in *. intros m Hm. split; [|auto].
      apply Hne. now apply in_map.
    + intros P u j i w S E. apply Hin in E. apply motif_break_positions in E.
      destruct E as (pj & pi & Hj & Hi & Hc). exists pj, pi.
      repeat split; auto. symmetry in Hc. apply Z.ltb_ge in Hc. exact Hc.
    + intros P u j i w S E. apply Hcut in E. apply motif_break_positions in E.
      destruct E as (pj & pi & Hj & Hi & Hc). exists pj, pi.
      repeat split; auto. symmetry in Hc. apply Z.ltb_lt in Hc. exact Hc.
Qed.

Lemma define_motifs_partition_witness :
  flat_map VocGroup.voc_idxs Sample.song_motifs = [0; 1; 2; 3; 4; 5; 6] /\
  Forall (fun m => VocGroup.voc_idxs m <> [] /\ VocGroup.voc_list m = Sample.song)
         Sample.song_motifs /\
  (forall P u j i w S,
      map VocGroup.voc_idxs Sample.song_motifs = P ++ (u ++ j :: i :: w) :: S ->
      exists pj pi,
        template_position Sample.song ["a"; "b"; "c"]%string (fun x => x) j = Ok pj /\
        template_position Sample.song ["a"; "b"; "c"]%string (fun x => x) i = Ok pi /\
        pj <= pi) /\
  (forall P u j i w S,
      map VocGroup.voc_idxs Sample.song_motifs = P ++ (u ++ [j]) :: (i :: w) :: S ->
      exists pj pi,
        template_position Sample.song ["a"; "b"; "c"]%string (fun x => x) j = Ok pj /\
        template_position Sample.song ["a"; "b"; "c"]%string (fun x => x) i = Ok pi /\
        pi < pj).
Proof.
  apply (define_motifs_partition Sample.song [0; 1; 2; 3; 4; 5; 6]
           ["a"; "b"; "c"]%string (fun x => x) Sample.song_motifs).
  reflexivity.
Defined.

Lemma index_of_absent (x : string) (l : list string) :
  ~ In x l -> index_of x l = Raise ValueError.
Proof.
  induction l as [|y l IH]; simpl; intros H; [reflexivity|].
  destruct (String.eqb y x) eqn:E.
  - apply String.eqb_eq in E. exfalso. apply H. now left.
  - rewrite IH; [reflexivity|]. intros Hin. apply H. now right.
Qed.

Lemma index_of_Raise (x : string) (l : list string) (e : exn) :
  index_of x l = Raise e -> e = ValueError.
Proof.
  induction l as [|y l IH]; simpl; intros H; [congruence|].
  destruct (String.eqb y x); [discriminate|].
  destruct (index_of x l); simpl in H; [discriminate|].
  apply IH. congruence.
Qed.

(** When the test of one adjacent pair of the list raises [e], and the
    tests on items of the list raise nothing else, the whole cut raises. *)
Lemma chunk_list_Raise_in {A B} (brk : A -> A -> result bool) (f : A -> list B)
  (e : exn) (pre : list A) (x y : A) (post : list A) :
  (forall a b e',
      In a (pre ++ x :: y :: post) -> In b (pre ++ x :: y :: post) ->
      brk a b = Raise e' -> e' = e) ->
  brk x y = Raise e ->
  chunk_list brk f (pre ++ x :: y :: post) = Raise e.
Proof.
  intros Honly Hxy. induction pre as [|p pre IH].
  - simpl. rewrite Hxy. reflexivity.
  - assert (Hc : chunk_list brk f ((p :: pre) ++ x :: y :: post) =
                 (c <- brk p (hd x pre) ;;
                  rest <- chunk_list brk f (pre ++ x :: y :: post) ;;
                  Ok (if c then f p :: rest else glue (f p) rest))).
    { destruct pre; reflexivity. }
    rewrite Hc, IH.
    + destruct (brk p (hd x pre)) eqn:E; simpl; [reflexivity|].
      f_equal. eapply Honly; [| |exact E].
      * now left.
      * right. destruct pre; simpl; now left.
    + intros a b e' Ha Hb. apply Honly; now right.
Qed.

(** X9: [define_motifs] and names outside the song sequence.  With two
    syllables or more, all at valid indexes, [define_motifs] raises
    [ValueError] when the aliased name of one of them is not in the song
    sequence.  A single syllable is returned as one motif without its name
    being looked up. *)
Theorem define_motifs_unknown_name (vl : list Vocalization.t) (seq : list string)
  (alias_fn : string -> string) :
  (forall idxs i v,
      (2 <= List.length idxs)%nat ->
      (forall k, In k idxs -> exists w, getitem vl k = Ok w) ->
      In i idxs -> getitem vl i = Ok v ->
      ~ In (alias_fn (Vocalization.name v)) seq ->
      define_motifs vl idxs seq alias_fn = Raise ValueError) /\
  (forall i v,
      getitem vl i = Ok v ->
      define_motifs vl [i] seq alias_fn = Ok [VocGroup.make vl [i] [v]]).
Proof.
  split.
  - intros idxs i v Hlen Hvalid Hin Hi Hname.
    assert (Hdm : define_motifs vl idxs seq alias_fn =
                  (motifs <- motif_idxs vl idxs seq alias_fn ;;
                   mapM (VocGroup.init vl) motifs)).
    { destruct idxs; [simpl in Hlen; lia | reflexivity]. }
    rewrite Hdm, motif_idxs_chunks.
    assert (Hpair : exists pre x y post,
               idxs = pre ++ x :: y :: post /\ (i = x \/ i = y)).
    { apply in_split in Hin. destruct Hin as (l1 & l2 & ->).
      destruct l2 as [|y l2].
      - destruct (exists_last (l := l1)) as (p & x & ->).
        { intros ->. simpl in Hlen. lia. }
        exists p, x, i, []. rewrite <- app_assoc. auto.
      - exists l1, i, y, l2. auto. }
    destruct Hpair as (pre & x & y & post & -> & Hxy).
    apply index_of_absent in Hname.
    rewrite (chunk_list_Raise_in _ _ ValueError); [reflexivity | |].
    + intros a b e' Ha Hb Hr. unfold motif_break in Hr.
      destruct (Hvalid a Ha) as [wa Hwa]. destruct (Hvalid b Hb) as [wb Hwb].
      rewrite Hwa, Hwb in Hr. simpl in Hr.
      destruct (index_of (alias_fn (Vocalization.name wb)) seq) eqn:Eb; simpl in Hr.
      * destruct (index_of (alias_fn (Vocalization.name wa)) seq) eqn:Ea;
          simpl in Hr; [discriminate|].
        injection Hr as <-. eapply index_of_Raise; eauto.
      * injection Hr as <-. eapply index_of_Raise; eauto.
    + unfold motif_break.
      destruct (Hvalid x) as [wx Hwx]; [apply in_or_app; right; now left|].
      destruct (Hvalid y) as [wy Hwy]; [apply in_or_app; right; right; now left|].
      rewrite Hwx, Hwy. simpl.
      destruct Hxy as [<-|<-].
      * rewrite Hi in Hwx. injection Hwx as <-.
        destruct (index_of (alias_fn (Vocalization.name wy)) seq) eqn:Ey; simpl.
        -- now rewrite Hname.
        -- f_equal. eapply index_of_Raise; eauto.
      * rewrite Hi in Hwy. injection Hwy as <-. now rewrite Hname.
  - intros i v Hi. unfold define_motifs, motif_idxs. simpl.
    unfold VocGroup.init. simpl. rewrite Hi. reflexivity.
Qed.

Lemma define_motifs_unknown_name_witness :
  define_motifs Sample.song [0; 1; 2] ["a"; "b"]%string (fun x => x) = Raise ValueError /\
  define_motifs Sample.song [2] ["a"; "b"]%string (fun x => x)
  = Ok [VocGroup.make Sample.song [2] [Sample.voc 400000 500000 "c"]].
Proof.
  split.
  - apply (proj1 (define_motifs_unknown_name Sample.song ["a"; "b"]%string (fun x => x))
             [0; 1; 2] 2 (Sample.voc 400000 500000 "c")).
    + simpl. lia.
    + intros k [<-|[<-|[<-|[]]]]; eexists; reflexivity.
    + simpl. auto.
    + reflexivity.
    + simpl. intros [H|[H|[]]]; discriminate H.
  - apply (proj2 (define_motifs_unknown_name Sample.song ["a"; "b"]%string (fun x => x))).
    reflexivity.
Defined.

(** ** Phrases: what they keep and when they are defined *)

(** X10: the phrases of [define_phrases] are the bouts, cut: no phrase is
    empty, and the bouts of the phrases read in order are the bouts given. *)
Theorem define_phrases_partition (bout_list : list Bout.t) (t : Q)
  (phrases : list (list Bout.t)) :
  define_phrases bout_list t = Ok phrases ->
  List.concat phrases = bout_list /\
  Forall (fun p => p <> []) phrases /\
  (bout_list <> [] -> phrases <> []).
Proof.
  rewrite define_phrases_chunks. intros H.
  pose proof (chunk_list_concat _ _ _ _ H) as Hcat.
  rewrite concat_map_singleton in Hcat.
  split; [assumption|].
  destruct bout_list as [|b0 rest]; simpl in H.
  - inv_ok. split; [constructor | congruence].
  - split; [eapply chunks_singleton_nonempty; eauto|].
    intros _. eapply chunks_nonempty; eauto.
Qed.

Lemma define_phrases_partition_witness :
  List.concat Sample.session_phrases = Sample.session_bouts /\
  Forall (fun p => p <> []) Sample.session_phrases /\
  (Sample.session_bouts <> [] -> Sample.session_phrases <> []).
Proof.
  apply (define_phrases_partition Sample.session_bouts PHRASE_ANNEAL).
  reflexivity.
Defined.

(** X11: [define_phrases] raises only through the bouts: when the start
    and the stop of every bout of the list are defined, it returns. *)
Theorem define_phrases_total (bout_list : list Bout.t) (t : Q) :
  (forall b, In b bout_list ->
             exists s e, Bout.start b = Ok s /\ Bout.stop b = Ok e) ->
  exists phrases, define_phrases bout_list t = Ok phrases.
Proof.
  intros H. rewrite define_phrases_chunks.
  destruct bout_list as [|b0 rest]; simpl; [eauto|].
  apply chunks_total. intros x y Hx Hy.
  destruct (H x Hx) as (_ & e & _ & He). destruct (H y Hy) as (s & _ & Hs & _).
  unfold phrase_break, delta_t. simpl. rewrite Hs, He. simpl. eauto.
Qed.

Lemma define_phrases_total_witness :
  exists phrases, define_phrases Sample.session_bouts PHRASE_ANNEAL = Ok phrases.
Proof.
  apply (define_phrases_total Sample.session_bouts PHRASE_ANNEAL).
  intros b [<-|[<-|[<-|[]]]]; eexists; eexists; split; reflexivity.
Defined.

(** ** Bouts after [parse_motifs]: start, stop and duration *)

Lemma getitem_app_last {A} (l r : list A) :
  r <> [] -> getitem (l ++ r) (-1) = getitem r (-1).
Proof.
  intros H. destruct (exists_last H) as (p & x & ->).
  now rewrite app_assoc, !getitem_last.
Qed.

Lemma getitem_app_head {A} (l r : list A) :
  l <> [] -> getitem (l ++ r) 0 = getitem l 0.
Proof.
  destruct l as [|x l]; [congruence|]. intros _. simpl app.
  now rewrite !getitem_head.
Qed.

(** X12: once [parse_motifs] has run on a bout built from two groups that
    [VocGroup.init] made, its times are defined and span both sub-groups:
    the bout starts with the first of its intro notes and syllables taken
    together and stops with the last of them, and its duration is the time
    from that start to that stop. *)
Theorem bout_parsed_times (vl vi vs : list Vocalization.t) (ig sg : VocGroup.t)
  (b b' : Bout.t) (seq : list string) (alias_fn : string -> string) :
  VocGroup.init vi (VocGroup.voc_idxs ig) = Ok ig ->
  VocGroup.init vs (VocGroup.voc_idxs sg) = Ok sg ->
  Bout.init vl ig sg = Ok b ->
  Bout.parse_motifs b seq alias_fn = Ok b' ->
  exists f l,
    getitem (Bout.intro_notes b' ++ Bout.syllables b') 0 = Ok f /\
    getitem (Bout.intro_notes b' ++ Bout.syllables b') (-1) = Ok l /\
    Bout.start b' = Ok (Vocalization.start f) /\
    Bout.stop b' = Ok (Vocalization.stop l) /\
    Bout.duration b' =
    Ok (total_seconds (Vocalization.stop l - Vocalization.start f)).
Proof.
  intros Hig Hsg Hinit Hparse.
  assert (Hlen : forall vl0 g, VocGroup.init vl0 (VocGroup.voc_idxs g) = Ok g ->
                   List.length (VocGroup.vocalizations g)
                   = List.length (VocGroup.voc_idxs g)).
  { intros vl0 g Hg. apply init_idxs in Hg. destruct Hg as (_ & _ & Hm).
    eapply mapM_length; eauto. }
  pose proof (bout_last_after_parse_motifs vl ig sg b b' seq alias_fn
                (Hlen _ _ Hsg) Hinit Hparse) as Hlast.
  apply init_bout in Hinit.
  destruct Hinit as (_ & Hn & Hni & Hs & Hsi & _ & Hne).
  assert (Hn' : Bout.intro_notes b' = VocGroup.vocalizations ig).
  { unfold Bout.parse_motifs in Hparse. inv_bind Hparse. inv_ok. exact Hn. }
  assert (Hs' : Bout.syllables b' = VocGroup.vocalizations sg).
  { unfold Bout.parse_motifs in Hparse. inv_bind Hparse. inv_ok. exact Hs. }
  assert (Hall : Bout.intro_notes b' ++ Bout.syllables b' <> []).
  { rewrite Hn', Hs'. intros Hnil. apply app_eq_nil in Hnil. destruct Hnil as [H1 H2].
    apply Hne.
    pose proof (Hlen _ _ Hig) as L1. pose proof (Hlen _ _ Hsg) as L2.
    rewrite H1 in L1. rewrite H2 in L2.
    destruct (VocGroup.voc_idxs ig); [|discriminate L1].
    destruct (VocGroup.voc_idxs sg); [reflexivity | discriminate L2]. }
  assert (Hf : Bout.first b' = getitem (Bout.intro_notes b' ++ Bout.syllables b') 0).
  { unfold Bout.first. destruct (Bout.intro_notes b') as [|x r] eqn:E.
    - reflexivity.
    - symmetry. apply getitem_app_head. discriminate. }
  assert (Hl : Bout.last b' = getitem (Bout.intro_notes b' ++ Bout.syllables b') (-1)).
  { rewrite Hlast. destruct (Bout.syllables b') as [|x r] eqn:E.
    - now rewrite app_nil_r.
    - symmetry. apply getitem_app_last. discriminate. }
  destruct (Bout.intro_notes b' ++ Bout.syllables b') as [|f0 r] eqn:Eall; [congruence|].
  destruct (exists_last (l := f0 :: r)) as (q & l0 & Eq); [discriminate|].
  exists f0, l0.
  assert (G0 : getitem (f0 :: r) 0 = Ok f0) by apply getitem_head.
  assert (G1 : getitem (f0 :: r) (-1) = Ok l0) by (rewrite Eq; apply getitem_last).
  repeat split; auto.
  - unfold Bout.start. now rewrite Hf, G0.
  - unfold Bout.stop. now rewrite Hl, G1.
  - unfold Bout.duration, Bout.stop, Bout.start. now rewrite Hf, Hl, G0, G1.
Qed.

Lemma bout_parsed_times_witness :
  exists f l,
    getitem (Bout.intro_notes Sample.parsed_bout ++ Bout.syllables Sample.parsed_bout) 0
    = Ok f /\
    getitem (Bout.intro_notes Sample.parsed_bout ++ Bout.syllables Sample.parsed_bout) (-1)
    = Ok l /\
    Bout.start Sample.parsed_bout = Ok (Vocalization.start f) /\
    Bout.stop Sample.parsed_bout = Ok (Vocalization.stop l) /\
    Bout.duration Sample.parsed_bout =
    Ok (total_seconds (Vocalization.stop l - Vocalization.start f)).
Proof.
  apply (bout_parsed_times Sample.timeline Sample.timeline Sample.timeline
           Sample.intro_group Sample.song_group Sample.paired_bout Sample.parsed_bout
           (BirdMetadata.syllables Sample.bird) (BirdMetadata.alias Sample.bird));
    reflexivity.
Defined.

(** ** Sorted outputs *)

Lemma insert_by_key_sorted {A} (x : A) (kx : Z) (l : list (A * Z)) :
  Sorted Z.le (map snd l) -> Sorted Z.le (map snd (insert_by_key x kx l)).
Proof.
  induction l as [|[y ky] l IH]; simpl; intros H.
  - repeat constructor.
  - destruct (kx <=? ky) eqn:E; simpl.
    + constructor; [assumption|]. constructor. now apply Z.leb_le.
    + apply Z.leb_gt in E. inversion H as [|? ? Hs Hh]; subst.
      constructor; [auto|].
      destruct l as [|[z kz] l]; simpl in *.
      * constructor. lia.
      * destruct (kx <=? kz); simpl; constructor; [lia|].
        inversion Hh; subst. assumption.
Qed.

Lemma sort_keyed_sorted {A} (l : list (A * Z)) : Sorted Z.le (map snd (sort_keyed l)).
Proof.
  induction l as [|[x kx] l IH]; simpl; [constructor|].
  now apply insert_by_key_sorted.
Qed.

Lemma mapM_keyed {A} (key : A -> result Z) (S : list (A * Z)) :
  Forall (fun p => key (fst p) = Ok (snd p)) S ->
  mapM key (map fst S) = Ok (map snd S).
Proof.
  induction 1 as [|[x k] S Hx _ IH]; simpl; [reflexivity|].
  simpl in Hx. now rewrite Hx, IH.
Qed.

Lemma combine_keyed {A} (key : A -> result Z) (l : list A) (ks : list Z) :
  mapM key l = Ok ks -> Forall (fun p => key (fst p) = Ok (snd p)) (combine l ks).
Proof.
  revert ks. induction l as [|x l IH]; simpl; intros ks H.
  - constructor.
  - inv_bind H. inv_ok. simpl. constructor; auto.
Qed.

(** The keys of what [sorted] returns are defined and in order. *)
Lemma sorted_Sorted {A} (key : A -> result Z) (l l' : list A) :
  sorted key l = Ok l' ->
  exists ks, mapM key l' = Ok ks /\ Sorted Z.le ks.
Proof.
  unfold sorted. intros H. inv_bind H. inv_ok.
  exists (map snd (sort_keyed (combine l a))). split.
  - apply mapM_keyed.
    eapply Permutation_Forall; [symmetry; apply sort_keyed_perm|].
    now apply combine_keyed.
  - apply sort_keyed_sorted.
Qed.

(** X13: the bouts that [define_bouts] returns are sorted by start time:
    the start of each of them is defined, and from one bout to the next
    the start does not go down. *)
Theorem define_bouts_sorted (intro_groups song_groups : list VocGroup.t) (t : Q)
  (bouts : list Bout.t) :
  define_bouts intro_groups song_groups t = Ok bouts ->
  exists starts, mapM Bout.start bouts = Ok starts /\ Sorted Z.le starts.
Proof.
  unfold define_bouts. intros H. inv_bind H.
  eapply sorted_Sorted; eauto.
Qed.

Lemma define_bouts_sorted_witness :
  exists starts,
    mapM Bout.start Sample.timeline_bouts = Ok starts /\ Sorted Z.le starts.
Proof.
  apply (define_bouts_sorted [Sample.intro_group] [Sample.song_group] BOUT_ANNEAL).
  reflexivity.
Defined.

(** X14: the phrases that [full_parse] returns are sorted by the start of
    their first bout, which is defined for each of them. *)
Theorem full_parse_sorted (voc_list : list Vocalization.t) (bird_meta : BirdMetadata.t)
  (intro_anneal song_anneal intro_split song_split bout_anneal : Q)
  (parse_motifs : bool) (phrase_anneal : Q) (phrases : list (list Bout.t)) :
  full_parse voc_list bird_meta intro_anneal song_anneal intro_split song_split
             bout_anneal parse_motifs phrase_anneal = Ok phrases ->
  exists starts,
    mapM (fun p => b <- getitem p 0 ;; Bout.start b) phrases = Ok starts /\
    Sorted Z.le starts.
Proof.
  rewrite full_parse_assemble. intros H. inv_bind H.
  eapply sorted_Sorted; eauto.
Qed.

Lemma full_parse_sorted_witness :
  full_parse_default Sample.session Sample.bird true = Ok Sample.session_phrases /\
  exists starts,
    mapM (fun p => b <- getitem p 0 ;; Bout.start b) Sample.session_phrases = Ok starts /\
    Sorted Z.le starts.
Proof.
  split; [reflexivity|].
  apply (full_parse_sorted Sample.session Sample.bird INTRO_GROUP_ANNEAL
           SYLLABLE_GROUP_ANNEAL INTRO_GROUP_SPLIT SYLLABLE_GROUP_SPLIT BOUT_ANNEAL
           true PHRASE_ANNEAL Sample.session_phrases).
  reflexivity.
Defined.

(** ** The pairs that [define_bouts] makes *)

Lemma min_scan_In {A} (key : A -> result Q) (l : list A) :
  forall best kbest x, min_scan key best kbest l = Ok x -> x = best \/ In x l.
Proof.
  induction l as [|y l IH]; simpl; intros best kbest x H.
  - inv_ok. now left.
  - inv_bind H. destruct (Qltb a kbest); apply IH in H; destruct H; auto.
Qed.

Lemma min_by_key_In {A} (key : A -> result Q) (l : list A) (x : A) :
  min_by_key key l = Ok x -> In x l.
Proof.
  destruct l as [|y l]; simpl; intros H; [discriminate|].
  inv_bind H. apply min_scan_In in H. destruct H; auto.
Qed.

Lemma filterM_In {A} (p : A -> result bool) (l hits : list A) :
  filterM p l = Ok hits -> forall x, In x hits -> In x l /\ p x = Ok true.
Proof.
  revert hits. induction l as [|y l IH]; simpl; intros hits H x Hx.
  - inv_ok. contradiction.
  - inv_bind H. inv_ok. destruct a.
    + destruct Hx as [<-|Hx]; [auto|]. destruct (IH _ E0 _ Hx). auto.
    + destruct (IH _ E0 _ Hx). auto.
Qed.

Lemma in_enumerate {A} (l : list A) (k : nat) (x : A) :
  In (k, x) (enumerate l) -> nth_error l k = Some x.
Proof.
  unfold enumerate.
  assert (H : forall s, In (k, x) (combine (seq s (List.length l)) l) ->
                        (s <= k)%nat /\ nth_error l (k - s) = Some x).
  { induction l as [|y l IH]; simpl; intros s Hin; [contradiction|].
    destruct Hin as [Heq|Hin].
    - injection Heq as -> ->. rewrite Nat.sub_diag. auto.
    - apply IH in Hin. destruct Hin as [Hle Hn].
      split; [lia|]. replace (k - s)%nat with (S (k - S s)) by lia. exact Hn. }
  intros Hin. apply H in Hin. destruct Hin as [_ Hn].
  now rewrite Nat.sub_0_r in Hn.
Qed.

(** One turn of the loop of [define_bouts]: a bout that holds a song group
    holds one that starts after the stop of the intro group, by at most the
    threshold. *)
Lemma bout_step_pair (t : Q) (sg_left sg_left' : list VocGroup.t)
  (bouts bouts' : list Bout.t) (ig : VocGroup.t) :
  bout_step t (sg_left, bouts) ig = Ok (sg_left', bouts') ->
  exists b,
    bouts' = bouts ++ [b] /\
    (Bout.syllables b = [] \/
     exists g e s,
       In g sg_left /\
       Bout.intro_notes b = VocGroup.vocalizations ig /\
       Bout.syllables b = VocGroup.vocalizations g /\
       VocGroup.stop ig = Ok e /\ VocGroup.start g = Ok s /\
       e < s /\ (total_seconds (s - e) <= t)%Q).
Proof.
  unfold bout_step. intros H. inv_bind H.
  destruct (Qleb a2 t) eqn:Ele.
  - inv_bind H. inv_ok.
    apply init_bout in E3. destruct E3 as (_ & Hn & _ & Hs & _ & _ & _).
    exists a3. split; [reflexivity|]. right.
    apply min_by_key_In in E0.
    unfold later_groups in E. inv_bind E. inv_ok.
    apply in_map_iff in E0. destruct E0 as ([k g] & Hk & Hin). simpl in Hk. subst k.
    destruct (filterM_In _ _ _ E3 _ Hin) as [Henum Hp]. simpl in Hp.
    apply in_enumerate in Henum.
    apply getitem_nat in E1. rewrite Henum in E1. injection E1 as ->.
    inv_bind Hp. inv_ok.
    match goal with
    | He : VocGroup.stop ig = Ok ?e, Hst : VocGroup.start a1 = Ok ?s |- _ =>
        exists a1, e, s;
        rewrite (delta_t_groups ig a1 e s He Hst) in E2; injection E2 as <-
    end.
    repeat split; auto.
    + eapply nth_error_In; eauto.
    + apply Z.ltb_lt. congruence.
    + now apply Qleb_true.
  - inv_bind H. inv_ok.
    apply init_bout in E4. destruct E4 as (_ & _ & _ & Hs & _ & _ & _).
    unfold VocGroup.init_empty, VocGroup.init in E3. simpl in E3. inv_ok.
    exists a4. split; [reflexivity|]. left. exact Hs.
Qed.

(** X15: in what [define_bouts] returns, a bout with both intro notes and
    syllables pairs an intro group with a song group that starts strictly
    after the last intro note stops, and the silence between the two, as
    [delta_t] returns it ([total_seconds] of the time between them, the
    float nearest to the seconds), is at most the threshold. *)
Theorem define_bouts_pairs_close (intro_groups song_groups : list VocGroup.t) (t : Q)
  (bouts : list Bout.t) :
  define_bouts intro_groups song_groups t = Ok bouts ->
  forall b,
    In b bouts -> Bout.intro_notes b <> [] -> Bout.syllables b <> [] ->
    exists u v,
      getitem (Bout.intro_notes b) (-1) = Ok u /\
      getitem (Bout.syllables b) 0 = Ok v /\
      Vocalization.stop u < Vocalization.start v /\
      (total_seconds (Vocalization.start v - Vocalization.stop u) <= t)%Q.
Proof.
  pose (good := fun b : Bout.t =>
          Bout.intro_notes b = [] \/ Bout.syllables b = [] \/
          exists u v,
            getitem (Bout.intro_notes b) (-1) = Ok u /\
            getitem (Bout.syllables b) 0 = Ok v /\
            Vocalization.stop u < Vocalization.start v /\
            (total_seconds (Vocalization.start v - Vocalization.stop u) <= t)%Q).
  assert (Hloop : forall igs sg bs sg' bs',
             foldM (bout_step t) igs (sg, bs) = Ok (sg', bs') ->
             Forall good bs -> Forall good bs').
  { induction igs as [|ig igs IH]; simpl; intros sg bs sg' bs' H HF.
    - now inv_ok.
    - inv_bind H. destruct a as [sg1 bs1].
      apply bout_step_pair in E. destruct E as (b & -> & Hb).
      eapply IH; [exact H|]. apply Forall_app. split; [assumption|].
      constructor; [|constructor].
      destruct Hb as [Hb | (g & e & s & _ & Hn & Hs & He & Hst & Hlt & Hle)].
      + right. now left.
      + right. right.
        unfold VocGroup.stop, VocGroup.last in He. inv_bind He. inv_ok.
        unfold VocGroup.start, VocGroup.first in Hst. inv_bind Hst. inv_ok.
        exists a, a0. rewrite Hn, Hs. auto. }
  unfold define_bouts. intros H. inv_bind H. destruct a as [sg_left paired].
  simpl in *.
  apply Hloop in E; [|constructor].
  apply song_only_bouts in E0. destruct E0 as [_ HFR].
  apply sorted_perm in H.
  assert (Hall : Forall good bouts).
  { eapply Permutation_Forall; [symmetry; exact H|].
    apply Forall_app. split; [assumption|].
    eapply Forall_impl; [|exact HFR]. intros b [_ Hb]. now left. }
  intros b Hb Hi Hs. rewrite Forall_forall in Hall.
  destruct (Hall b Hb) as [Hg | [Hg | Hg]]; [congruence | congruence | exact Hg].
Qed.

Lemma define_bouts_pairs_close_witness :
  exists bouts,
    define_bouts [Sample.intro_group] [Sample.song_group] (4 # 1) = Ok bouts /\
    forall b,
      In b bouts -> Bout.intro_notes b <> [] -> Bout.syllables b <> [] ->
      exists u v,
        getitem (Bout.intro_notes b) (-1) = Ok u /\
        getitem (Bout.syllables b) 0 = Ok v /\
        Vocalization.stop u < Vocalization.start v /\
        (total_seconds (Vocalization.start v - Vocalization.stop u) <= 4 # 1)%Q.
Proof.
  exists [Sample.paired_bout]. split; [reflexivity|].
  apply (define_bouts_pairs_close [Sample.intro_group] [Sample.song_group] (4 # 1)).
  reflexivity.
Defined.

(** ** The intervening vocalizations of a bout *)

Lemma fold_min_spec (xs : list Z) :
  forall x, In (fold_left Z.min xs x) (x :: xs) /\
            forall y, In y (x :: xs) -> fold_left Z.min xs x <= y.
Proof.
  induction xs as [|z xs IH]; simpl; intros x.
  - split; [now left|]. intros y [<-|[]]. lia.
  - destruct (IH (Z.min x z)) as [Hin Hle]. split.
    + destruct Hin as [Hm|Hin]; [|auto].
      rewrite <- Hm. destruct (Z.min_spec x z) as [[_ ->]|[_ ->]]; auto.
    + intros y [<-|[<-|Hy]].
      * specialize (Hle (Z.min x z) (or_introl eq_refl)). lia.
      * specialize (Hle (Z.min x z) (or_introl eq_refl)). lia.
      * apply Hle. now right.
Qed.

Lemma fold_max_spec (xs : list Z) :
  forall x, In (fold_left Z.max xs x) (x :: xs) /\
            forall y, In y (x :: xs) -> y <= fold_left Z.max xs x.
Proof.
  induction xs as [|z xs IH]; simpl; intros x.
  - split; [now left|]. intros y [<-|[]]. lia.
  - destruct (IH (Z.max x z)) as [Hin Hle]. split.
    + destruct Hin as [Hm|Hin]; [|auto].
      rewrite <- Hm. destruct (Z.max_spec x z) as [[_ ->]|[_ ->]]; auto.
    + intros y [<-|[<-|Hy]].
      * specialize (Hle (Z.max x z) (or_introl eq_refl)). lia.
      * specialize (Hle (Z.max x z) (or_introl eq_refl)). lia.
      * apply Hle. now right.
Qed.

Lemma in_range (lo hi i : Z) : In i (range lo hi) <-> lo <= i < hi.
Proof.
  unfold range. rewrite in_map_iff. split.
  - intros (k & <- & Hk). apply in_seq in Hk. lia.
  - intros H. exists (Z.to_nat (i - lo)). split; [lia|].
    apply in_seq. lia.
Qed.

Lemma in_Z_In (x : Z) (l : list Z) : in_Z x l = true <-> In x l.
Proof.
  unfold in_Z. rewrite existsb_exists. split.
  - intros (y & Hy & E). apply Z.eqb_eq in E. now subst.
  - intros H. exists x. split; [assumption | apply Z.eqb_refl].
Qed.

(** X16: the intervening indexes of a bout are the timeline indexes that
    lie strictly between two indexes of the bout and are in neither of its
    sub-groups; the intervening vocalizations are the vocalizations at
    those indexes. *)
Theorem bout_intervening (vl : list Vocalization.t) (ig sg : VocGroup.t) (b : Bout.t) :
  Bout.init vl ig sg = Ok b ->
  (forall i,
      In i (Bout.intervening_idxs b) <->
      (~ In i (bout_idxs b) /\
       exists lo hi, In lo (bout_idxs b) /\ In hi (bout_idxs b) /\ lo < i < hi)) /\
  mapM (getitem vl) (Bout.intervening_idxs b) = Ok (Bout.intervening_vocs b).
Proof.
  unfold Bout.init. intros H. inv_bind H. inv_ok. unfold bout_idxs. simpl.
  split; [|assumption].
  set (idxs := VocGroup.voc_idxs ig ++ VocGroup.voc_idxs sg) in *.
  destruct idxs as [|x xs] eqn:Eidxs; [discriminate|].
  simpl in E, E0. inv_ok.
  destruct (fold_min_spec xs x) as [Hmin_in Hmin_le].
  destruct (fold_max_spec xs x) as [Hmax_in Hmax_le].
  intros i. rewrite filter_In, in_range, negb_true_iff.
  split.
  - intros [Hr Hn]. split.
    + intros Hin. apply in_Z_In in Hin. congruence.
    + exists (fold_left Z.min xs x), (fold_left Z.max xs x).
      repeat split; auto; try lia.
      destruct (Z.eq_dec i (fold_left Z.min xs x)) as [->|]; [|lia].
      exfalso. apply in_Z_In in Hmin_in. congruence.
  - intros [Hn (lo & hi & Hlo & Hhi & Hlt)]. split.
    + specialize (Hmin_le lo Hlo). specialize (Hmax_le hi Hhi). lia.
    + destruct (in_Z i (x :: xs)) eqn:Ein; [|reflexivity].
      apply in_Z_In in Ein. contradiction.
Qed.

Lemma bout_intervening_witness :
  exists b,
    Bout.init Sample.timeline Sample.first_note Sample.late_group = Ok b /\
    (forall i,
        In i (Bout.intervening_idxs b) <->
        (~ In i (bout_idxs b) /\
         exists lo hi, In lo (bout_idxs b) /\ In hi (bout_idxs b) /\ lo < i < hi)) /\
    mapM (getitem Sample.timeline) (Bout.intervening_idxs b)
    = Ok (Bout.intervening_vocs b).
Proof.
  destruct (Bout.init Sample.timeline Sample.first_note Sample.late_group)
    as [b|e] eqn:E; [|discriminate E].
  exists b. split; [reflexivity|].
  exact (bout_intervening Sample.timeline Sample.first_note Sample.late_group b E).
Defined.

(** ** Aliasing of vocalization names *)

Local Open Scope string_scope.

Lemma str_last_snoc (s : string) (c : ascii) : str_last (s ++ String c "") = Some c.
Proof.
  induction s as [|d s IH]; [reflexivity|].
  simpl. rewrite IH. destruct (s ++ String c ""); [discriminate IH | reflexivity].
Qed.

Lemma str_init_snoc (s : string) (c : ascii) : str_init (s ++ String c "") = s.
Proof.
  induction s as [|d s IH]; [reflexivity|].
  simpl. rewrite IH. destruct (s ++ String c "") eqn:E; [|reflexivity].
  destruct s; discriminate E.
Qed.

Lemma str_contains_app (c : ascii) (s r : string) :
  str_contains c (s ++ r) = str_contains c s || str_contains c r.
Proof.
  induction s as [|d s IH]; [reflexivity|].
  simpl. rewrite IH. now rewrite orb_assoc.
Qed.

Lemma str_before_app (c : ascii) (s r : string) :
  str_contains c s = false -> str_before c (s ++ String c r) = s.
Proof.
  induction s as [|d s IH]; simpl; intros H.
  - now rewrite Ascii.eqb_refl.
  - apply orb_false_iff in H. destruct H as [Hd Hs].
    rewrite Hd, IH by assumption. reflexivity.
Qed.

Lemma str_init_cons (d : ascii) (x : string) :
  x <> "" -> str_init (String d x) = String d (str_init x).
Proof. destruct x; [congruence | reflexivity]. Qed.

Lemma str_last_cons (d : ascii) (x : string) :
  x <> "" -> str_last (String d x) = str_last x.
Proof. destruct x; [congruence | reflexivity]. Qed.

Lemma str_init_version (s n : string) :
  str_last (s ++ String "_" n) = Some "*"%char ->
  str_init (s ++ String "_" n) = s ++ String "_" (str_init n).
Proof.
  induction s as [|d s IH]; intros H.
  - destruct n; [discriminate H | reflexivity].
  - assert (Hne : s ++ String "_" n <> "") by (destruct s; discriminate).
    cbn [append] in *. rewrite str_last_cons in H by assumption.
    rewrite str_init_cons by assumption. now rewrite IH.
Qed.

Lemma snoc_not_empty (s : string) (c : ascii) : String.eqb (s ++ String c "") "" = false.
Proof. destruct s; reflexivity. Qed.

(** X17: a garbled take is aliased like the clean name.  For a name that is
    not empty, does not itself end with the garbled mark and is not in the
    ignore list, marking it with a final [*] (the marked name not being
    ignored either) does not change its alias, when garbled marks are
    elided. *)
Theorem alias_garbled (self : BirdMetadata.t) (s : string) (elide_versions : bool) :
  s <> "" ->
  str_last s <> Some "*"%char ->
  in_str s (BirdMetadata.ignore self) = false ->
  in_str (s ++ "*") (BirdMetadata.ignore self) = false ->
  BirdMetadata.alias_with self (s ++ "*") true elide_versions =
  BirdMetadata.alias_with self s true elide_versions.
Proof.
  intros Hne Hlast Hign Hign'. unfold BirdMetadata.alias_with.
  rewrite snoc_not_empty, Hign', Hign.
  replace (String.eqb s "") with false
    by (symmetry; apply String.eqb_neq; exact Hne).
  cbn [orb andb]. rewrite str_last_snoc, str_init_snoc. cbn [Ascii.eqb].
  replace (Ascii.eqb "*" "*") with true by reflexivity.
  destruct (str_last s) as [c|] eqn:El.
  - replace (Ascii.eqb c "*") with false; [reflexivity|].
    symmetry. apply Ascii.eqb_neq. congruence.
  - reflexivity.
Qed.

Lemma alias_garbled_witness :
  BirdMetadata.alias_with Sample.bird ("I" ++ "*") true true =
  BirdMetadata.alias_with Sample.bird "I" true true.
Proof.
  apply (alias_garbled Sample.bird "I" true).
  - discriminate.
  - discriminate.
  - reflexivity.
  - reflexivity.
Defined.

(** X18: a numbered version is aliased like the plain name.  For a name
    that is not empty, has no [_], does not end with the garbled mark and
    is not ignored, adding [_] and any suffix (the longer name not being
    ignored either) does not change its alias under the default elisions.
    When garbled marks are kept instead, a version that carries the mark
    is aliased to the plain name with the mark put back. *)
Theorem alias_version (self : BirdMetadata.t) (s n : string) :
  s <> "" ->
  str_contains "_" s = false ->
  str_last s <> Some "*"%char ->
  in_str s (BirdMetadata.ignore self) = false ->
  (in_str (s ++ String "_" n) (BirdMetadata.ignore self) = false ->
   BirdMetadata.alias self (s ++ String "_" n) = BirdMetadata.alias self s) /\
  (in_str (s ++ String "_" (n ++ "*")) (BirdMetadata.ignore self) = false ->
   BirdMetadata.alias_with self (s ++ String "_" (n ++ "*")) false true =
   if in_str (s ++ "*") (BirdMetadata.intro_aliases self)
   then BirdMetadata.intro_note self else s ++ "*").
Proof.
  intros Hne Hund Hlast Hign.
  assert (Hnonempty : forall m, String.eqb (s ++ String "_" m) "" = false).
  { intros m. destruct s; reflexivity. }
  assert (Hcont : forall m, str_contains "_" (s ++ String "_" m) = true).
  { intros m. rewrite str_contains_app. simpl. apply orb_true_r. }
  split; intros Hign'.
  - unfold BirdMetadata.alias, BirdMetadata.alias_with.
    rewrite Hnonempty, Hign', Hign.
    replace (String.eqb s "") with false
      by (symmetry; apply String.eqb_neq; exact Hne).
    cbn [orb andb negb].
    assert (Hs : match str_last s with
                 | Some c => Ascii.eqb c "*"
                 | None => false
                 end = false).
    { destruct (str_last s) as [c|]; [|reflexivity].
      apply Ascii.eqb_neq. congruence. }
    rewrite Hs, Hund.
    destruct (match str_last (s ++ String "_" n) with
              | Some c => Ascii.eqb c "*"
              | None => false
              end) eqn:El.
    + rewrite str_init_version.
      * rewrite Hcont, str_before_app by assumption.
        rewrite andb_false_r. reflexivity.
      * destruct (str_last (s ++ String "_" n)) as [c|]; [|discriminate].
        apply Ascii.eqb_eq in El. now subst.
    + rewrite Hcont, str_before_app by assumption.
      rewrite andb_false_r. reflexivity.
  - unfold BirdMetadata.alias_with.
    rewrite Hnonempty, Hign'. cbn [orb andb negb].
    rewrite Hcont, str_before_app by assumption.
    replace (str_contains "*" (s ++ String "_" (n ++ "*"))) with true; [reflexivity|].
    symmetry. rewrite str_contains_app. simpl. rewrite str_contains_app. simpl.
    rewrite !orb_true_r. reflexivity.
Qed.

Lemma alias_version_witness :
  BirdMetadata.alias Sample.bird ("I" ++ String "_" "2*") = BirdMetadata.alias Sample.bird "I" /\
  BirdMetadata.alias_with Sample.bird ("a" ++ String "_" ("2" ++ "*")) false true = "a*".
Proof.
  split.
  - apply (proj1 (alias_version Sample.bird "I" "2*" ltac:(discriminate) eq_refl
                    ltac:(discriminate) eq_refl)).
    reflexivity.
  - apply (proj2 (alias_version Sample.bird "a" "2" ltac:(discriminate) eq_refl
                    ltac:(discriminate) eq_refl)).
    reflexivity.
Defined.

Local Close Scope string_scope.

(** ** The whole chain: where the indexes of the timeline go *)

Lemma group_elements_flat_map (voc_list : list Vocalization.t) (targets : list string)
  (alias_fn : string -> string) (gs : list VocGroup.t) :
  group_elements voc_list targets alias_fn = Ok gs ->
  flat_map VocGroup.voc_idxs gs = target_idxs targets alias_fn 0 voc_list.
Proof.
  intros H.
  destruct (group_elements_chunks voc_list targets alias_fn) as (gs' & Hg & Hc).
  rewrite H in Hg. injection Hg as <-.
  apply chunk_list_concat in Hc. rewrite concat_map_singleton in Hc.
  now rewrite flat_map_concat_map.
Qed.

Lemma anneal_groups_flat_map (groups out : list VocGroup.t) (t : Q) (breaks : list Z) :
  anneal_groups groups t breaks = Ok out ->
  flat_map VocGroup.voc_idxs out = flat_map VocGroup.voc_idxs groups.
Proof.
  intros H. apply anneal_groups_idxs in H. rewrite annealed_idxs_chunks in H.
  apply chunk_list_concat in H. now rewrite !flat_map_concat_map.
Qed.

Lemma split_groups_flat_map (groups out : list VocGroup.t) (t : Q) :
  split_groups groups t = Ok out ->
  flat_map VocGroup.voc_idxs out = flat_map VocGroup.voc_idxs groups.
Proof.
  intros H. apply split_groups_idxs in H. destruct H as (fs & Hfs & Hout).
  rewrite flat_map_concat_map, Hout. eapply fragments_all_concat; eauto.
Qed.

Lemma parse_motifs_idxs (seq : list string) (alias_fn : string -> string)
  (bouts bouts' : list Bout.t) :
  mapM (fun b => Bout.parse_motifs b seq alias_fn) bouts = Ok bouts' ->
  flat_map bout_idxs bouts' = flat_map bout_idxs bouts.
Proof.
  revert bouts'. induction bouts as [|b bouts IH]; simpl; intros bouts' H.
  - now inv_ok.
  - inv_bind H. inv_ok. simpl. rewrite (IH _ E0). f_equal.
    unfold Bout.parse_motifs in E. inv_bind E. now inv_ok.
Qed.

Lemma Permutation_concat_lists {A} (l l' : list (list A)) :
  Permutation l l' -> Permutation (List.concat l) (List.concat l').
Proof.
  induction 1 as [|x l l' _ IH|x y l|l l' l'' _ IH1 _ IH2]; simpl.
  - reflexivity.
  - now apply Permutation_app_head.
  - rewrite !app_assoc. apply Permutation_app_tail, Permutation_app_comm.
  - now rewrite IH1.
Qed.

(** X19: [full_parse] neither loses nor invents a vocalization: the
    indexes held by the bouts of the phrases it returns are the indexes of
    the intro notes of the timeline together with the indexes of its
    syllables (by aliased name), each as many times as it is there; and no
    phrase is empty. *)
Theorem full_parse_indexes (voc_list : list Vocalization.t) (bird_meta : BirdMetadata.t)
  (intro_anneal song_anneal intro_split song_split bout_anneal : Q)
  (parse_motifs : bool) (phrase_anneal : Q) (phrases : list (list Bout.t)) :
  full_parse voc_list bird_meta intro_anneal song_anneal intro_split song_split
             bout_anneal parse_motifs phrase_anneal = Ok phrases ->
  Permutation
    (flat_map bout_idxs (List.concat phrases))
    (target_idxs [BirdMetadata.intro_note bird_meta] (BirdMetadata.alias bird_meta)
                 0 voc_list ++
     target_idxs (BirdMetadata.syllables bird_meta) (BirdMetadata.alias bird_meta)
                 0 voc_list) /\
  Forall (fun p => p <> []) phrases.
Proof.
  rewrite full_parse_assemble. intros H. inv_bind H.
  rename a into bouts, a0 into bouts', a1 into phrases0.
  (* the phrases are those of [define_phrases], rearranged *)
  apply sorted_perm in H.
  rewrite define_phrases_chunks in E1.
  pose proof (chunk_list_concat _ _ _ _ E1) as Hcat.
  rewrite concat_map_singleton in Hcat.
  assert (Hne : Forall (fun p => p <> []) phrases0).
  { destruct bouts' as [|b0 r]; simpl in E1.
    - inv_ok. constructor.
    - eapply chunks_singleton_nonempty; eauto. }
  split; [|eapply Permutation_Forall; [symmetry; exact H | exact Hne]].
  assert (Hph : Permutation (List.concat phrases) bouts').
  { rewrite <- Hcat. now apply Permutation_concat_lists. }
  rewrite Hph.
  (* parsing the motifs keeps the indexes *)
  assert (Hb : flat_map bout_idxs bouts' = flat_map bout_idxs bouts).
  { destruct parse_motifs; [eapply parse_motifs_idxs; eauto | now inv_ok]. }
  rewrite Hb.
  (* the bouts hold the indexes of the groups *)
  unfold assemble_bouts in E. inv_bind E.
  apply define_bouts_Ok in E. destruct E as [HP _]. rewrite HP.
  repeat match goal with
         | Hs : split_groups _ _ = Ok _ |- _ =>
             apply split_groups_flat_map in Hs; rewrite Hs; clear Hs
         | Ha : anneal_groups _ _ _ = Ok _ |- _ =>
             apply anneal_groups_flat_map in Ha; rewrite Ha; clear Ha
         | Hg : group_elements _ _ _ = Ok _ |- _ =>
             apply group_elements_flat_map in Hg; rewrite Hg; clear Hg
         end.
  reflexivity.
Qed.

Lemma full_parse_indexes_witness :
  Permutation
    (flat_map bout_idxs (List.concat Sample.session_phrases))
    (target_idxs [BirdMetadata.intro_note Sample.bird] (BirdMetadata.alias Sample.bird)
                 0 Sample.session ++
     target_idxs (BirdMetadata.syllables Sample.bird) (BirdMetadata.alias Sample.bird)
                 0 Sample.session) /\
  Forall (fun p => p <> []) Sample.session_phrases.
Proof.
  apply (full_parse_indexes Sample.session Sample.bird INTRO_GROUP_ANNEAL
           SYLLABLE_GROUP_ANNEAL INTRO_GROUP_SPLIT SYLLABLE_GROUP_SPLIT BOUT_ANNEAL
           true PHRASE_ANNEAL Sample.session_phrases).
  reflexivity.
Defined.

(** ** One bout per intro group *)

Lemma bout_loop_intros (t : Q) (igs : list VocGroup.t) :
  forall sg_left bouts sg_left' bouts',
    foldM (bout_step t) igs (sg_left, bouts) = Ok (sg_left', bouts') ->
    exists added,
      bouts' = bouts ++ added /\
      map Bout.intro_idxs added = map VocGroup.voc_idxs igs /\
      map Bout.intro_notes added = map VocGroup.vocalizations igs /\
      (List.length sg_left' <= List.length sg_left)%nat.
Proof.
  induction igs as [|ig igs IH]; simpl; intros sg_left bouts sg_left' bouts' H.
  - inv_ok. exists []. rewrite app_nil_r. auto.
  - inv_bind H. destruct a as [sg1 bouts1].
    apply bout_step_Ok in E.
    destruct E as (b & -> & _ & Hn & Hi & Hcase).
    apply IH in H. destruct H as (added & -> & Hidx & Hnotes & Hlen).
    exists (b :: added). rewrite <- app_assoc. simpl.
    rewrite Hi, Hn, Hidx, Hnotes. repeat split; auto.
    destruct Hcase as [(l1 & g & l2 & -> & -> & _) | (-> & _)]; [|assumption].
    rewrite length_app in *. simpl. lia.
Qed.

(** X20: [define_bouts] makes one bout for each intro group, and bouts
    without intro notes from song groups that are left: what it returns is
    a rearrangement of one bout per intro group, in the order of the intro
    groups and each holding the notes of its group, followed by bouts
    without intro notes, no more of them than there are song groups. *)
Theorem define_bouts_one_per_intro_group (intro_groups song_groups : list VocGroup.t)
  (t : Q) (bouts : list Bout.t) :
  define_bouts intro_groups song_groups t = Ok bouts ->
  exists with_intro without_intro,
    Permutation bouts (with_intro ++ without_intro) /\
    map Bout.intro_idxs with_intro = map VocGroup.voc_idxs intro_groups /\
    map Bout.intro_notes with_intro = map VocGroup.vocalizations intro_groups /\
    Forall (fun b => Bout.intro_notes b = []) without_intro /\
    (List.length without_intro <= List.length song_groups)%nat.
Proof.
  unfold define_bouts. intros H. inv_bind H. destruct a as [sg_left paired].
  simpl in *.
  apply bout_loop_intros in E. destruct E as (added & -> & Hidx & Hnotes & Hlen).
  simpl in *.
  pose proof (mapM_length _ _ _ E0) as Hrest.
  apply song_only_bouts in E0. destruct E0 as [_ HF].
  apply sorted_perm in H.
  exists added, a0. repeat split; auto.
  - eapply Forall_impl; [|exact HF]. simpl. tauto.
  - lia.
Qed.

Lemma define_bouts_one_per_intro_group_witness :
  exists with_intro without_intro,
    Permutation Sample.timeline_bouts (with_intro ++ without_intro) /\
    map Bout.intro_idxs with_intro = map VocGroup.voc_idxs [Sample.intro_group] /\
    map Bout.intro_notes with_intro = map VocGroup.vocalizations [Sample.intro_group] /\
    Forall (fun b => Bout.intro_notes b = []) without_intro /\
    (List.length without_intro <= List.length [Sample.song_group])%nat.
Proof.
  apply (define_bouts_one_per_intro_group [Sample.intro_group] [Sample.song_group]
           BOUT_ANNEAL).
  reflexivity.
Defined.

(** ** Splitting twice *)

Lemma fragments_of_fragment (vl : list Vocalization.t) (t : Q) (g g' : VocGroup.t)
  (F : list (list Z)) :
  VocGroup.voc_list g = vl -> VocGroup.voc_list g' = vl ->
  fragments g t = Ok F -> In (VocGroup.voc_idxs g') F ->
  fragments g' t = Ok [VocGroup.voc_idxs g'].
Proof.
  intros Hvl Hvl' HF Hin. unfold fragments in *. rewrite Hvl in HF. rewrite Hvl'.
  destruct (VocGroup.voc_idxs g') as [|a l] eqn:E'; [reflexivity|].
  destruct (VocGroup.voc_idxs g) as [|a0 l0].
  - inv_ok. destruct Hin as [Hin|[]]. discriminate.
  - destruct (chunks_singleton_sound _ _ _ _ HF) as [Hsame _].
    rewrite chunks_joined; [now rewrite concat_map_singleton|].
    intros pre x y post Hxy.
    apply in_split in Hin. destruct Hin as (P & S & HP).
    apply (Hsame P pre x y post S). now rewrite HP, Hxy.
Qed.

(** X21: splitting is done once and for all: for groups on one timeline,
    [split_groups] applied to its own output, with the same threshold,
    returns that output. *)
Theorem split_groups_idempotent (vl : list Vocalization.t)
  (groups out : list VocGroup.t) (t : Q) :
  Forall (fun g => VocGroup.voc_list g = vl) groups ->
  split_groups groups t = Ok out ->
  split_groups out t = Ok out.
Proof.
  intros Hvl H.
  destruct groups as [|g0 rest] eqn:Eg; [simpl in H; now inv_ok|].
  rewrite <- Eg in *.
  assert (Hvl0 : VocGroup.voc_list g0 = vl).
  { rewrite Forall_forall in Hvl. apply Hvl. rewrite Eg. now left. }
  unfold split_groups, split_idxs in H. rewrite Eg in H at 1.
  rewrite split_loop_groups in H. inv_bind H. inv_bind E. injection E as <-.
  simpl in H. rewrite Hvl0 in H. rename a0 into fs.
  pose proof (mapM_init_idxs _ _ _ H) as Hidxs.
  pose proof (mapM_init_voc_list _ _ _ H) as Hvlo.
  (* every output group is a fragment that has no long silence left *)
  assert (Hfr : forall g', In g' out -> fragments g' t = Ok [VocGroup.voc_idxs g']).
  { intros g' Hg'.
    assert (Hin : In (VocGroup.voc_idxs g') (List.concat fs)).
    { rewrite <- Hidxs. now apply in_map. }
    apply in_concat in Hin. destruct Hin as (F & HF & Hin).
    assert (Hg : exists g, In g groups /\ fragments g t = Ok F).
    { clear - E0 HF. revert fs E0 HF.
      induction groups as [|g gs IH]; simpl; intros fs E0 HF.
      - inv_ok. contradiction.
      - inv_bind E0. inv_ok. destruct HF as [<-|HF]; [eauto|].
        destruct (IH _ E1 HF) as (g1 & Hg1 & Hf1). eauto. }
    destruct Hg as (g & Hg & HgF).
    rewrite Forall_forall in Hvl, Hvlo.
    apply (fragments_of_fragment vl t g g' F); auto. }
  assert (Hall : forall gs, (forall g, In g gs -> In g out) ->
                            mapM (fun g => fragments g t) gs
                            = Ok (map (fun g => [VocGroup.voc_idxs g]) gs)).
  { induction gs as [|g gs IH]; simpl; intros Hsub; [reflexivity|].
    rewrite Hfr by (apply Hsub; now left). simpl.
    rewrite IH by (intros g' Hg'; apply Hsub; now right). reflexivity. }
  destruct out as [|o0 orest] eqn:Eo; [reflexivity|]. rewrite <- Eo in *.
  assert (Hvlo0 : VocGroup.voc_list o0 = vl).
  { rewrite Forall_forall in Hvlo. apply Hvlo. rewrite Eo. now left. }
  unfold split_groups, split_idxs. rewrite Eo at 1. rewrite split_loop_groups.
  rewrite Hall by auto. cbn [bind app]. rewrite Hvlo0.
  replace (List.concat (map (fun g => [VocGroup.voc_idxs g]) out))
    with (map VocGroup.voc_idxs out)
    by (clear; induction out; simpl; congruence).
  rewrite Hidxs. exact H.
Qed.

Lemma split_groups_idempotent_witness :
  split_groups [Sample.intro_group; Sample.song_group] (3 # 1)
  = Ok [Sample.intro_group; Sample.song_group].
Proof.
  apply (split_groups_idempotent Sample.timeline [Sample.whole_group]
           [Sample.intro_group; Sample.song_group] (3 # 1)).
  - repeat constructor.
  - reflexivity.
Defined.

(** ** Annealing twice *)

Lemma chunks_all_cut {A B} (brk : A -> A -> result bool) (f : A -> list B) (l : list A) :
  forall a,
    (forall pre x y post, a :: l = pre ++ x :: y :: post -> brk x y = Ok true) ->
    chunks brk f a l = Ok (map f (a :: l)).
Proof.
  induction l as [|b r IH]; intros a H; simpl; [reflexivity|].
  rewrite (H [] a b r eq_refl). simpl.
  rewrite IH; [reflexivity|].
  intros pre x y post E. apply (H (a :: pre) x y post). simpl. now rewrite E.
Qed.

(** The test of [anneal_groups] reads only the stop of the first group and
    the start of the second. *)
Lemma anneal_break_ext (t : Q) (breaks : list Z) (cg ng cg' ng' : VocGroup.t) :
  VocGroup.stop cg' = VocGroup.stop cg ->
  VocGroup.start ng' = VocGroup.start ng ->
  anneal_break t breaks cg' ng' = anneal_break t breaks cg ng.
Proof.
  intros He Hs. unfold anneal_break, song_between, delta_t. simpl.
  rewrite He, Hs. reflexivity.
Qed.

Lemma run_vocalizations (vl : list Vocalization.t) (r : list VocGroup.t) :
  Forall (fun g => VocGroup.init vl (VocGroup.voc_idxs g) = Ok g) r ->
  mapM (getitem vl) (flat_map VocGroup.voc_idxs r)
  = Ok (flat_map VocGroup.vocalizations r).
Proof.
  induction 1 as [|g r Hg _ IH]; simpl; [reflexivity|].
  apply init_idxs in Hg. destruct Hg as (_ & _ & Hg).
  rewrite mapM_app, Hg, IH. reflexivity.
Qed.

Lemma stop_defined (g : VocGroup.t) (e : Z) :
  VocGroup.stop g = Ok e -> VocGroup.vocalizations g <> [].
Proof.
  unfold VocGroup.stop, VocGroup.last. intros H Hnil.
  rewrite Hnil, getitem_nil in H. discriminate.
Qed.

Lemma start_defined (g : VocGroup.t) (s : Z) :
  VocGroup.start g = Ok s -> VocGroup.vocalizations g <> [].
Proof.
  unfold VocGroup.start, VocGroup.first. intros H Hnil.
  rewrite Hnil, getitem_nil in H. discriminate.
Qed.

(** X22: annealing is done once and for all: for groups that
    [VocGroup.init] built on one timeline, [anneal_groups] applied to its
    own output, with the same threshold and barriers, returns that
    output. *)
Theorem anneal_groups_idempotent (vl : list Vocalization.t)
  (groups out : list VocGroup.t) (t : Q) (breaks : list Z) :
  Forall (fun g => VocGroup.init vl (VocGroup.voc_idxs g) = Ok g) groups ->
  anneal_groups groups t breaks = Ok out ->
  anneal_groups out t breaks = Ok out.
Proof.
  intros Hwf H.
  destruct groups as [|g0 rest] eqn:Eg; [simpl in H; now inv_ok|].
  assert (Hvl0 : VocGroup.voc_list g0 = vl).
  { inversion Hwf as [|? ? Hg0 _]; subst. now apply init_idxs in Hg0. }
  unfold anneal_groups in H. rewrite annealed_idxs_chunks in H.
  cbn [chunk_list] in H. rewrite chunks_runs in H.
  inv_bind H. inv_bind E. injection E as <-. rename a0 into runs.
  rewrite Hvl0 in H.
  pose proof (chunk_list_concat _ _ (g0 :: rest) _ E0) as Hcat.
  rewrite concat_map_singleton in Hcat.
  destruct (chunks_singleton_sound _ _ _ _ E0) as [_ Hcut].
  pose proof (chunks_singleton_nonempty _ _ _ _ E0) as Hne.
  (* each output group is a run of well-formed groups, joined *)
  assert (Hrunwf : Forall (Forall (fun g => VocGroup.init vl (VocGroup.voc_idxs g) = Ok g))
                          runs).
  { rewrite Forall_forall. intros r Hr. rewrite Forall_forall. intros g Hg.
    rewrite Forall_forall in Hwf. apply Hwf. rewrite <- Hcat.
    apply in_concat. eauto. }
  assert (HR : Forall2 (fun o r => VocGroup.init vl (VocGroup.voc_idxs o) = Ok o /\
                                  VocGroup.vocalizations o
                                  = flat_map VocGroup.vocalizations r) out runs).
  { clear - H Hrunwf. revert out H.
    induction Hrunwf as [|r runs Hr _ IH]; simpl; intros out H.
    - inv_ok. constructor.
    - inv_bind H. injection H as <-. constructor; [|auto].
      pose proof (init_idxs _ _ _ E) as (_ & Hi & Hv).
      rewrite Hi. split; [assumption|].
      rewrite (run_vocalizations vl r Hr) in Hv. now injection Hv. }
  (* adjacent output groups are held apart *)
  assert (Hapart : forall pre x y post,
             out = pre ++ x :: y :: post -> anneal_break t breaks x y = Ok true).
  { intros pre x y post Eo. rewrite Eo in HR.
    apply Forall2_app_inv_l in HR.
    destruct HR as (P & R2 & _ & HR & ->).
    inversion HR as [|? rx ? R3 [_ Hx] HR']; subst.
    inversion HR' as [|? ry ? S [_ Hy] _]; subst.
    assert (Hnx : rx <> []).
    { rewrite Forall_forall in Hne. apply Hne. apply in_or_app. right. now left. }
    assert (Hny : ry <> []).
    { rewrite Forall_forall in Hne. apply Hne. apply in_or_app. right. right. now left. }
    destruct (exists_last Hnx) as (u & cg & ->).
    destruct ry as [|ng w]; [congruence|].
    pose proof (Hcut P u cg ng w S eq_refl) as Hb.
    destruct (anneal_break_Ok _ _ _ _ _ Hb) as (e & s & He & Hs & _).
    rewrite <- Hb. apply anneal_break_ext.
    - unfold VocGroup.stop, VocGroup.last. rewrite Hx, flat_map_app. simpl.
      rewrite app_nil_r, getitem_app_last by (eapply stop_defined; eauto).
      reflexivity.
    - unfold VocGroup.start, VocGroup.first. rewrite Hy. simpl.
      rewrite getitem_app_head by (eapply start_defined; eauto).
      reflexivity. }
  (* so annealing the output changes nothing *)
  destruct out as [|o0 orest] eqn:Eo; [reflexivity|]. rewrite <- Eo in *.
  assert (Ho : Forall (fun o => VocGroup.init vl (VocGroup.voc_idxs o) = Ok o) out).
  { clear - HR. induction HR as [|o r out runs [Ho _] _ IH]; constructor; auto. }
  assert (Hvlo0 : VocGroup.voc_list o0 = vl).
  { rewrite Forall_forall in Ho.
    apply (init_idxs vl (VocGroup.voc_idxs o0) o0). apply Ho. rewrite Eo. now left. }
  unfold anneal_groups. rewrite Eo at 1. rewrite annealed_idxs_chunks.
  rewrite Eo at 1. cbn [chunk_list].
  rewrite chunks_all_cut by (rewrite <- Eo; exact Hapart).
  cbn [bind]. rewrite Hvlo0, <- Eo.
  clear - Ho. induction Ho as [|o out Ho _ IH]; simpl; [reflexivity|].
  rewrite Ho. simpl. rewrite IH. reflexivity.
Qed.

Lemma anneal_groups_idempotent_witness :
  anneal_groups [Sample.intro_group; Sample.song_group] (5 # 10) []
  = Ok [Sample.intro_group; Sample.song_group].
Proof.
  apply (anneal_groups_idempotent Sample.timeline
           [Sample.first_note; Sample.second_note; Sample.song_group]
           [Sample.intro_group; Sample.song_group] (5 # 10) []).
  - repeat constructor.
  - reflexivity.
Defined.

Lemma group_elements_complete_witness :
  exists gs,
    group_elements Sample.mixed ["i"; "a"]%string (fun x => x) = Ok gs /\
    flat_map VocGroup.voc_idxs gs
    = target_idxs ["i"; "a"]%string (fun x => x) 0 Sample.mixed /\
    (forall p i j q, flat_map VocGroup.voc_idxs gs = p ++ i :: j :: q -> i < j) /\
    (forall i, In i (flat_map VocGroup.voc_idxs gs) <->
               exists v, 0 <= i /\ getitem Sample.mixed i = Ok v /\
                         in_str ((fun x => x) (Vocalization.name v)) ["i"; "a"]%string
                         = true).
Proof.
  exact (group_elements_complete Sample.mixed ["i"; "a"]%string (fun x => x)).
Defined.

(** * The float that [total_seconds] returns *)

Lemma round_half_even_near (num den : Z) :
  0 <= num -> 0 < den ->
  2 * Z.abs (round_half_even num den * den - num) <= den /\
  (2 * Z.abs (round_half_even num den * den - num) = den ->
   Z.even (round_half_even num den) = true).
Proof.
  intros Hn Hd. unfold round_half_even.
  assert (E := Z.div_mod num den ltac:(lia)).
  assert (B := Z.mod_pos_bound num den Hd).
  set (q := num / den) in *. set (r := num mod den) in *.
  destruct (Z.compare_spec (2 * r) den) as [H|H|H].
  - destruct (Z.even q) eqn:Ev.
    + split; [lia | auto].
    + split; [lia|]. intros _.
      replace (q + 1) with (Z.succ q) by lia.
      rewrite Z.even_succ, <- Z.negb_even, Ev. reflexivity.
  - split; lia.
  - split; lia.
Qed.

(** The exponent that [true_divide] finds is the one of the quotient:
    [2 ^ fl <= a / m < 2 ^ (fl + 1)]. *)
Lemma quotient_exponent (a m : Z) :
  0 < a -> 0 < m ->
  let k := Z.log2 a - Z.log2 m in
  let fl := if (if 0 <=? k then m * 2 ^ k <=? a else m <=? a * 2 ^ (- k))
            then k else k - 1 in
  (0 <= fl -> m * 2 ^ fl <= a < m * 2 ^ (fl + 1)) /\
  (fl < 0 -> m <= a * 2 ^ (- fl) /\ a * 2 ^ (- fl) < 2 * m).
Proof.
  intros Ha Hm.
  destruct (Z.log2_spec a Ha) as [La Ua].
  destruct (Z.log2_spec m Hm) as [Lm Um].
  assert (Pa := Z.log2_nonneg a). assert (Pm := Z.log2_nonneg m).
  set (la := Z.log2 a) in *. set (lm := Z.log2 m) in *.
  rewrite Z.pow_succ_r in Ua, Um by assumption.
  intros k fl. subst fl.
  destruct (0 <=? k) eqn:Hk.
  - apply Z.leb_le in Hk.
    assert (Ela : 2 ^ la = 2 ^ k * 2 ^ lm).
    { rewrite <- Z.pow_add_r by lia. f_equal. subst k. lia. }
    assert (Pk : 0 < 2 ^ k) by (apply Z.pow_pos_nonneg; lia).
    assert (Plm : 0 < 2 ^ lm) by (apply Z.pow_pos_nonneg; lia).
    destruct (m * 2 ^ k <=? a) eqn:Hc.
    + apply Z.leb_le in Hc. split; [|lia]. intros _.
      rewrite Z.pow_add_r, Z.pow_1_r by lia. nia.
    + apply Z.leb_gt in Hc. split.
      * intros Hfl. replace (k - 1 + 1) with k by lia.
        split; [|lia].
        assert (Ek : 2 ^ k = 2 * 2 ^ (k - 1)).
        { rewrite <- Z.pow_succ_r by lia. f_equal. lia. }
        assert (0 < 2 ^ (k - 1)) by (apply Z.pow_pos_nonneg; lia).
        nia.
      * intros Hfl. assert (k = 0) by lia.
        replace (- (k - 1)) with 1 by lia.
        replace (2 ^ k) with 1 in *
          by (subst k; replace (la - lm) with 0 by lia; reflexivity).
        rewrite Z.pow_1_r. nia.
  - apply Z.leb_gt in Hk.
    assert (Elm : 2 ^ lm = 2 ^ (- k) * 2 ^ la).
    { rewrite <- Z.pow_add_r by lia. f_equal. subst k. lia. }
    assert (Pk : 0 < 2 ^ (- k)) by (apply Z.pow_pos_nonneg; lia).
    assert (Pla : 0 < 2 ^ la) by (apply Z.pow_pos_nonneg; lia).
    destruct (m <=? a * 2 ^ (- k)) eqn:Hc.
    + apply Z.leb_le in Hc. split; [lia|]. intros _. split; [assumption|]. nia.
    + apply Z.leb_gt in Hc. split; [lia|]. intros _.
      replace (- (k - 1)) with (- k + 1) by lia.
      rewrite Z.pow_add_r, Z.pow_1_r by lia. split; nia.
Qed.

(** With [e = fl - 52] the quotient over [2 ^ e] lies in [2^52, 2^53). *)
Lemma quotient_scaled (a m fl : Z) :
  0 < a -> 0 < m ->
  (0 <= fl -> m * 2 ^ fl <= a < m * 2 ^ (fl + 1)) ->
  (fl < 0 -> m <= a * 2 ^ (- fl) /\ a * 2 ^ (- fl) < 2 * m) ->
  let e := fl - 52 in
  (0 <= e -> 2 ^ 52 * (m * 2 ^ e) <= a < 2 * 2 ^ 52 * (m * 2 ^ e)) /\
  (e < 0 -> 2 ^ 52 * m <= a * 2 ^ (- e) < 2 * 2 ^ 52 * m).
Proof.
  intros Ha Hm Hpos Hneg e. subst e.
  set (P := 2 ^ 52). assert (HP : 0 < P) by reflexivity.
  split; intros He.
  - destruct Hpos as [L U]; [lia|].
    replace (fl + 1) with (fl - 52 + 53) in U by lia.
    replace fl with (fl - 52 + 52) in L at 1 by lia.
    rewrite Z.pow_add_r in L, U by lia.
    change (2 ^ 53) with (2 * P) in U. change (2 ^ 52) with P in L.
    assert (0 < 2 ^ (fl - 52)) by (apply Z.pow_pos_nonneg; lia).
    nia.
  - destruct (Z_lt_le_dec fl 0) as [Hfl|Hfl].
    + destruct (Hneg Hfl) as [L U].
      replace (- (fl - 52)) with (- fl + 52) by lia.
      rewrite Z.pow_add_r by lia. change (2 ^ 52) with P.
      nia.
    + destruct (Hpos Hfl) as [L U].
      assert (E : 2 ^ fl * 2 ^ (- (fl - 52)) = P).
      { rewrite <- Z.pow_add_r by lia. replace (fl + - (fl - 52)) with 52 by lia.
        reflexivity. }
      rewrite Z.pow_add_r, Z.pow_1_r in U by lia.
      assert (0 < 2 ^ (- (fl - 52))) by (apply Z.pow_pos_nonneg; lia).
      assert (0 < 2 ^ fl) by (apply Z.pow_pos_nonneg; lia).
      set (x := 2 ^ fl) in *. set (y := 2 ^ (- (fl - 52))) in *.
      split.
      * replace (P * m) with (m * x * y) by (rewrite <- E; ring).
        apply Z.mul_le_mono_nonneg_r; lia.
      * replace (2 * P * m) with (m * (x * 2) * y) by (rewrite <- E; ring).
        apply Z.mul_lt_mono_pos_r; lia.
Qed.

Lemma mantissa_range (P N D r : Z) :
  0 < P -> 0 < D -> P * D <= N < 2 * P * D ->
  2 * Z.abs (r * D - N) <= D ->
  P <= r <= 2 * P.
Proof.
  intros HP HD [L U] H.
  assert (H1 : (2 * P - 1) * D <= 2 * r * D) by lia.
  assert (H2 : 2 * r * D < (4 * P + 1) * D) by lia.
  apply Z.mul_le_mono_pos_r in H1; [|assumption].
  apply Z.mul_lt_mono_pos_r in H2; [|assumption].
  lia.
Qed.

Lemma sign_cases (n : Z) :
  n <> 0 -> (Z.sgn n = 1 /\ Z.abs n = n) \/ (Z.sgn n = -1 /\ Z.abs n = - n).
Proof. lia. Qed.

(** [true_divide n m] is the quotient rounded to 53 bits, to the nearest,
    ties to even: a mantissa [mant] of 53 bits scaled by [2 ^ e], where [e]
    is the exponent that puts the quotient over [2 ^ e] in [2^52, 2^53);
    the result is within half of [2 ^ e] of the quotient, and [mant] is
    even when the quotient is halfway between two neighbours. *)
Lemma true_divide_nearest (n m : Z) :
  n <> 0 -> 0 < m ->
  exists mant e,
    2 ^ 52 <= mant <= 2 ^ 53 /\
    (true_divide n m == inject_Z (Z.sgn n * mant) * pow2 e)%Q /\
    (inject_Z (2 ^ 52) * pow2 e <= Qabs (n # Z.to_pos m))%Q /\
    (Qabs (n # Z.to_pos m) < inject_Z (2 ^ 53) * pow2 e)%Q /\
    (Qabs (true_divide n m - (n # Z.to_pos m)) * 2 <= pow2 e)%Q /\
    ((Qabs (true_divide n m - (n # Z.to_pos m)) * 2 == pow2 e)%Q ->
     Z.even mant = true).
Proof.
  intros Hn Hm. unfold true_divide.
  replace (n =? 0) with false by (symmetry; apply Z.eqb_neq; assumption).
  assert (Ha : 0 < Z.abs n) by lia.
  destruct (quotient_exponent (Z.abs n) m Ha Hm) as [Hpos Hneg].
  set (fl := if (if 0 <=? Z.log2 (Z.abs n) - Z.log2 m
                 then m * 2 ^ (Z.log2 (Z.abs n) - Z.log2 m) <=? Z.abs n
                 else m <=? Z.abs n * 2 ^ (- (Z.log2 (Z.abs n) - Z.log2 m)))
             then Z.log2 (Z.abs n) - Z.log2 m
             else Z.log2 (Z.abs n) - Z.log2 m - 1) in *.
  destruct (quotient_scaled (Z.abs n) m fl Ha Hm Hpos Hneg) as [Spos Sneg].
  clearbody fl. clear Hpos Hneg.
  set (e := fl - 52) in *. clearbody e.
  assert (Em : Z.pos (Z.to_pos m) = m) by (apply Z2Pos.id; assumption).
  assert (Hs := sign_cases n Hn).
  destruct (0 <=? e) eqn:He.
  - apply Z.leb_le in He. specialize (Spos He). clear Sneg.
    assert (HD : 0 < m * 2 ^ e).
    { apply Z.mul_pos_pos; [assumption | apply Z.pow_pos_nonneg; lia]. }
    destruct (round_half_even_near (Z.abs n) (m * 2 ^ e) ltac:(lia) HD) as [Near Tie].
    set (mant := round_half_even (Z.abs n) (m * 2 ^ e)) in *. clearbody mant.
    exists mant, e. split.
    { apply (mantissa_range (2 ^ 52) _ _ mant eq_refl HD Spos Near). }
    unfold pow2. replace (0 <=? e) with true by (symmetry; apply Z.leb_le; assumption).
    rewrite !Qred_correct.
    change (2 ^ 53) with (2 * 2 ^ 52). set (P := 2 ^ 52) in *. clearbody P.
    split; [|split; [|split; [|split]]].
    + unfold Qeq. simpl. ring.
    + unfold Qabs, Qmult, Qle, inject_Z. cbn [Qnum Qden].
      rewrite Pos.mul_1_l, Em. lia.
    + unfold Qabs, Qmult, Qlt, inject_Z. cbn [Qnum Qden].
      rewrite Pos.mul_1_l, Em. lia.
    + unfold Qminus, Qplus, Qopp, Qabs, Qmult, Qle, inject_Z. cbn [Qnum Qden].
      rewrite Pos.mul_1_l, Pos.mul_1_r, Em.
      destruct Hs as [[-> Ea]|[-> Ea]]; rewrite Ea in Near; lia.
    + intros H. apply Tie. revert H.
      unfold Qminus, Qplus, Qopp, Qabs, Qmult, Qeq, inject_Z. cbn [Qnum Qden].
      rewrite Pos.mul_1_l, Pos.mul_1_r, Em.
      destruct Hs as [[-> Ea]|[-> Ea]]; rewrite Ea; lia.
  - apply Z.leb_gt in He. specialize (Sneg He). clear Spos.
    assert (Hp : 0 < 2 ^ (- e)) by (apply Z.pow_pos_nonneg; lia).
    assert (Ep : Z.pos (Z.to_pos (2 ^ (- e))) = 2 ^ (- e)) by (apply Z2Pos.id; assumption).
    destruct (round_half_even_near (Z.abs n * 2 ^ (- e)) m ltac:(lia) Hm) as [Near Tie].
    set (mant := round_half_even (Z.abs n * 2 ^ (- e)) m) in *. clearbody mant.
    exists mant, e. split.
    { apply (mantissa_range (2 ^ 52) _ _ mant eq_refl Hm Sneg Near). }
    unfold pow2. replace (0 <=? e) with false by (symmetry; apply Z.leb_gt; assumption).
    rewrite !Qred_correct.
    set (j := 2 ^ (- e)) in *. clearbody j.
    change (2 ^ 53) with (2 * 2 ^ 52). set (P := 2 ^ 52) in *. clearbody P.
    split; [|split; [|split; [|split]]].
    + unfold Qeq. simpl. ring.
    + unfold Qabs, Qmult, Qle, inject_Z. cbn [Qnum Qden].
      rewrite Pos.mul_1_l, Em, Ep. lia.
    + unfold Qabs, Qmult, Qlt, inject_Z. cbn [Qnum Qden].
      rewrite Pos.mul_1_l, Em, Ep. lia.
    + unfold Qminus, Qplus, Qopp, Qabs, Qmult, Qle, inject_Z. cbn [Qnum Qden].
      rewrite Pos.mul_1_r, !Pos2Z.inj_mul, Em, Ep.
      destruct Hs as [[-> Ea]|[-> Ea]]; rewrite Ea in Near; nia.
    + intros H. apply Tie. revert H.
      unfold Qminus, Qplus, Qopp, Qabs, Qmult, Qeq, inject_Z. cbn [Qnum Qden].
      rewrite Pos.mul_1_r, !Pos2Z.inj_mul, Em, Ep.
      destruct Hs as [[-> Ea]|[-> Ea]]; rewrite Ea; nia.
Qed.

(** X24: the number that [total_seconds] returns for a timedelta of [d]
    microseconds, which [delta_t] and [Bout.duration] return, is the float
    nearest to [d / 10^6]: zero for [d = 0]; otherwise a mantissa [mant]
    with [2^52 <= mant <= 2^53], given the sign of [d] and scaled by
    [2 ^ e], where [e] puts the seconds over [2 ^ e] in [2^52, 2^53); it is
    within half of [2 ^ e] of the seconds, and [mant] is even when the
    seconds are halfway between two neighbours. *)
Theorem total_seconds_nearest_float :
  total_seconds 0 = 0%Q /\
  forall d,
    d <> 0 ->
    exists mant e,
      2 ^ 52 <= mant <= 2 ^ 53 /\
      (total_seconds d == inject_Z (Z.sgn d * mant) * pow2 e)%Q /\
      (inject_Z (2 ^ 52) * pow2 e <= Qabs (exact_seconds d))%Q /\
      (Qabs (exact_seconds d) < inject_Z (2 ^ 53) * pow2 e)%Q /\
      (Qabs (total_seconds d - exact_seconds d) * 2 <= pow2 e)%Q /\
      ((Qabs (total_seconds d - exact_seconds d) * 2 == pow2 e)%Q ->
       Z.even mant = true).
Proof.
  split; [reflexivity|].
  intros d Hd. exact (true_divide_nearest d 1000000 Hd eq_refl).
Qed.

Lemma total_seconds_nearest_float_witness :
  exists mant e,
    2 ^ 52 <= mant <= 2 ^ 53 /\
    (total_seconds 100000 == inject_Z (Z.sgn 100000 * mant) * pow2 e)%Q /\
    (inject_Z (2 ^ 52) * pow2 e <= Qabs (exact_seconds 100000))%Q /\
    (Qabs (exact_seconds 100000) < inject_Z (2 ^ 53) * pow2 e)%Q /\
    (Qabs (total_seconds 100000 - exact_seconds 100000) * 2 <= pow2 e)%Q /\
    ((Qabs (total_seconds 100000 - exact_seconds 100000) * 2 == pow2 e)%Q ->
     Z.even mant = true).
Proof.
  apply (proj2 total_seconds_nearest_float 100000). discriminate.
Defined.

(** X25: [total_seconds] on sample values.  Whole and half seconds are
    returned as they are, with their sign; 0.1 s is the float
    [0x1.999999999999ap-4], 0.3 s the float [0x1.3333333333333p-2]; the
    float literals [0.5], [0.8] and [2.0] of the default thresholds are
    1/2, [0x1.999999999999ap-1] and 2; and 10^17 - 1, 10^17 and 10^17 + 1
    microseconds all give 10^11 s. *)
Theorem total_seconds_values :
  total_seconds 0 = 0%Q /\
  total_seconds 1000000 = 1%Q /\
  total_seconds 500000 = (1 # 2)%Q /\
  total_seconds (-1500000) = (-3 # 2)%Q /\
  total_seconds 100000 = (3602879701896397 # 36028797018963968)%Q /\
  total_seconds 300000 = (5404319552844595 # 18014398509481984)%Q /\
  BOUT_ANNEAL = (1 # 2)%Q /\
  SYLLABLE_GROUP_SPLIT = (3602879701896397 # 4503599627370496)%Q /\
  PHRASE_ANNEAL = 2%Q /\
  total_seconds 99999999999999999 = (100000000000 # 1)%Q /\
  total_seconds 100000000000000000 = (100000000000 # 1)%Q /\
  total_seconds 100000000000000001 = (100000000000 # 1)%Q.
Proof.
  repeat split; vm_compute; reflexivity.
Qed.

(** * Bouts without intro notes in [define_phrases] and [full_parse] *)

(** The cut returns as soon as the test returns on every adjacent pair. *)
Lemma chunks_total_adjacent {A B} (brk : A -> A -> result bool) (f : A -> list B)
  (l : list A) :
  forall a,
    (forall pre x y post, a :: l = pre ++ x :: y :: post -> exists c, brk x y = Ok c) ->
    exists out, chunks brk f a l = Ok out.
Proof.
  induction l as [|b r IH]; intros a H; simpl; [eauto|].
  destruct (H [] a b r eq_refl) as [c ->].
  destruct (IH b) as [rest ->].
  { intros pre x y post E. apply (H (a :: pre) x y post). simpl. now rewrite E. }
  simpl. eauto.
Qed.

Lemma followed_in_front {A} (front : list A) (z : A) (pre : list A) (x y : A)
  (post : list A) :
  front ++ [z] = pre ++ x :: y :: post -> In x front.
Proof.
  intros E.
  assert (Hne : y :: post <> []) by discriminate.
  destruct (exists_last Hne) as (q & z' & Hq).
  rewrite Hq in E.
  change (pre ++ x :: q ++ [z']) with (pre ++ (x :: q) ++ [z']) in E.
  rewrite app_assoc in E. apply app_inj_tail in E. destruct E as [-> _].
  apply in_or_app. right. now left.
Qed.

(** [define_phrases] reads the start of every bout and the stop of every
    bout but the last one. *)
Lemma define_phrases_reads (front : list Bout.t) (b : Bout.t) (t : Q) :
  (forall x, In x front -> exists e, Bout.stop x = Ok e) ->
  (forall x, In x (front ++ [b]) -> exists s, Bout.start x = Ok s) ->
  exists phrases, define_phrases (front ++ [b]) t = Ok phrases.
Proof.
  intros Hstop Hstart. rewrite define_phrases_chunks. unfold chunk_list.
  destruct (front ++ [b]) as [|b0 rest] eqn:E; [eauto|].
  apply chunks_total_adjacent. intros pre x y post Hxy.
  destruct (Hstop x) as [e He].
  { rewrite <- E in Hxy. eapply followed_in_front; eauto. }
  destruct (Hstart y) as [s Hs].
  { rewrite Hxy. apply in_or_app. right. right. now left. }
  unfold phrase_break, delta_t. simpl. rewrite Hs, He. simpl. eauto.
Qed.

Lemma bout_stop_unparsed_intro (b : Bout.t) :
  Bout.motifs b = None -> Bout.intro_notes b <> [] -> exists e, Bout.stop b = Ok e.
Proof.
  intros Hm Hi. unfold Bout.stop. rewrite bout_last_unparsed by assumption.
  destruct (exists_last Hi) as (p & x & ->). rewrite getitem_last. simpl. eauto.
Qed.

Lemma define_bouts_starts (intro_groups song_groups : list VocGroup.t) (t : Q)
  (bouts : list Bout.t) :
  define_bouts intro_groups song_groups t = Ok bouts ->
  forall b, In b bouts -> exists s, Bout.start b = Ok s.
Proof.
  unfold define_bouts. intros H. inv_bind H. inv_bind H.
  apply sorted_Sorted in H. destruct H as (ks & Hks & _).
  eapply mapM_Ok_each; eauto.
Qed.

Lemma sorted_total {A} (key : A -> result Z) (l : list A) :
  (forall x, In x l -> exists k, key x = Ok k) -> exists l', sorted key l = Ok l'.
Proof.
  intros H. unfold sorted. destruct (mapM_total key l H) as [ks ->]. simpl. eauto.
Qed.

(** The phrases of [define_phrases] can be sorted by the start of their
    first bout when every bout has a start. *)
Lemma define_phrases_sortable (bouts : list Bout.t) (t : Q) (phrases : list (list Bout.t)) :
  define_phrases bouts t = Ok phrases ->
  (forall x, In x bouts -> exists s, Bout.start x = Ok s) ->
  exists out, sorted (fun p => b <- getitem p 0 ;; Bout.start b) phrases = Ok out.
Proof.
  intros H Hstart. apply sorted_total. intros p Hp.
  rewrite define_phrases_chunks in H.
  assert (Hcat := chunk_list_concat _ _ _ _ H).
  rewrite concat_map_singleton in Hcat.
  assert (Hne : p <> []).
  { destruct bouts as [|b0 rest]; simpl in H.
    - inv_ok. contradiction.
    - apply chunks_singleton_nonempty in H. rewrite Forall_forall in H. now apply H. }
  destruct p as [|x p]; [congruence|].
  rewrite getitem_head. simpl. apply Hstart. rewrite <- Hcat.
  apply in_concat. exists (x :: p). split; [assumption | now left].
Qed.

(** C2, amended: for a bout without intro notes whose motifs are not parsed
    yet, [last], [stop] and [duration] raise [IndexError].  [define_phrases]
    reads the stop of every bout but the last one: it raises when such a
    bout is followed by another bout, and so does [full_parse] without
    motif parsing when the assembled bout list has such a bout before its
    last place.  A bout without intro notes in the last place does not make
    them fail: [define_phrases] returns when every bout has a start and
    every bout but the last has a stop, and [full_parse] without motif
    parsing returns when every assembled bout but the last has intro
    notes. *)
Theorem unparsed_intro_less_bout_raises :
  (forall b,
      Bout.intro_notes b = [] -> Bout.motifs b = None ->
      Bout.last b = Raise IndexError /\
      Bout.stop b = Raise IndexError /\
      Bout.duration b = Raise IndexError) /\
  (forall pre b post t,
      Bout.intro_notes b = [] -> Bout.motifs b = None -> post <> [] ->
      define_phrases (pre ++ b :: post) t = Raise IndexError) /\
  (forall voc_list bird_meta intro_anneal song_anneal intro_split song_split
          bout_anneal phrase_anneal pre b post,
      assemble_bouts voc_list bird_meta intro_anneal song_anneal intro_split song_split
                     bout_anneal = Ok (pre ++ b :: post) ->
      Bout.intro_notes b = [] -> post <> [] ->
      full_parse voc_list bird_meta intro_anneal song_anneal intro_split song_split
                 bout_anneal false phrase_anneal = Raise IndexError) /\
  (forall pre b t,
      (forall x, In x pre -> exists e, Bout.stop x = Ok e) ->
      (forall x, In x (pre ++ [b]) -> exists s, Bout.start x = Ok s) ->
      exists phrases, define_phrases (pre ++ [b]) t = Ok phrases) /\
  (forall voc_list bird_meta intro_anneal song_anneal intro_split song_split
          bout_anneal phrase_anneal pre b,
      assemble_bouts voc_list bird_meta intro_anneal song_anneal intro_split song_split
                     bout_anneal = Ok (pre ++ [b]) ->
      (forall x, In x pre -> Bout.intro_notes x <> []) ->
      exists phrases,
        full_parse voc_list bird_meta intro_anneal song_anneal intro_split song_split
                   bout_anneal false phrase_anneal = Ok phrases).
Proof.
  assert (Hphr : forall pre b post t,
             Bout.intro_notes b = [] -> Bout.motifs b = None -> post <> [] ->
             define_phrases (pre ++ b :: post) t = Raise IndexError).
  { intros pre b [|y post] t Hi Hm Hpost; [congruence|].
    rewrite define_phrases_chunks. apply chunk_list_Raise.
    - intros a0 b0 e'. apply phrase_break_Raise.
    - now apply phrase_break_intro_less. }
  split; [|split; [|split; [|split]]].
  - intros b Hi Hm.
    assert (Hl : Bout.last b = Raise IndexError).
    { rewrite bout_last_unparsed, Hi by assumption. apply getitem_nil. }
    unfold Bout.duration, Bout.stop. rewrite Hl. auto.
  - exact Hphr.
  - intros vl bm ia sa isp ssp ba pa pre b post Hasm Hi Hpost.
    rewrite full_parse_assemble, Hasm. simpl.
    rewrite Hphr; auto.
    unfold assemble_bouts in Hasm. inv_bind Hasm.
    apply define_bouts_Ok in Hasm. destruct Hasm as [_ HF].
    rewrite Forall_forall in HF. apply HF.
    apply in_or_app. right. now left.
  - intros pre b t. apply define_phrases_reads.
  - intros vl bm ia sa isp ssp ba pa pre b Hasm Hi.
    rewrite full_parse_assemble, Hasm. simpl.
    unfold assemble_bouts in Hasm. inv_bind Hasm.
    assert (Hstart := define_bouts_starts _ _ _ _ Hasm).
    apply define_bouts_Ok in Hasm. destruct Hasm as [_ HF].
    rewrite Forall_forall in HF.
    destruct (define_phrases_reads pre b pa) as [phrases Hp].
    + intros x Hx. apply bout_stop_unparsed_intro; [|now apply Hi].
      apply HF. apply in_or_app. now left.
    + exact Hstart.
    + rewrite Hp. simpl. eapply define_phrases_sortable; eauto.
Qed.

Lemma unparsed_intro_less_bout_raises_witness :
  full_parse_default Sample.song_then_bout Sample.bird false = Raise IndexError /\
  exists phrases, full_parse_default Sample.song_only Sample.bird false = Ok phrases.
Proof.
  unfold full_parse_default. split.
  - eapply (proj1 (proj2 (proj2 unparsed_intro_less_bout_raises))) with (pre := []).
    + reflexivity.
    + reflexivity.
    + discriminate.
  - eapply (proj2 (proj2 (proj2 (proj2 unparsed_intro_less_bout_raises))))
      with (pre := []).
    + reflexivity.
    + intros x [].
Defined.

(** C2 as stated fails when the bout without intro notes is the last one:
    the four syllables of the sample form one bout without intro notes, and
    [define_phrases] and [full_parse] without motif parsing return one
    phrase. *)
Lemma full_parse_unparsed_song_only_returns :
  exists b,
    assemble_bouts Sample.song_only Sample.bird INTRO_GROUP_ANNEAL SYLLABLE_GROUP_ANNEAL
                   INTRO_GROUP_SPLIT SYLLABLE_GROUP_SPLIT BOUT_ANNEAL = Ok [b] /\
    Bout.intro_notes b = [] /\
    Bout.motifs b = None /\
    Bout.stop b = Raise IndexError /\
    define_phrases [b] PHRASE_ANNEAL = Ok [[b]] /\
    full_parse_default Sample.song_only Sample.bird false = Ok [[b]].
Proof.
  eexists. split; [reflexivity|]. repeat split; reflexivity.
Qed.
